(** * ArtistDao: the governance and revenue-accounting engine

    A shallow embedding of [server/storage.ts] (the in-memory ledger
    [MemStorage]), of the vote, proposal and revenue handlers of
    [server/routes.ts], and of the insert schemas of the shared schema
    module, followed by the properties of the specification that concern
    them.

    Conventions of the embedding.
    - A JavaScript [number] that the schema stores in a [real] column
      (token amounts, vote weights, revenue amounts, share percentages) is a
      value of an abstract number type with the operations of [JsNum]; the
      instance [binary64] is the arithmetic the program runs with
      (IEEE 754 double precision, the kernel's primitive floats, whose
      operations [FloatAxioms] specifies over [SpecFloat]), the instance
      [exact] is arithmetic without rounding, on rationals extended with
      NaN.
    - Ids and option indexes are integers ([Z]); the insert schemas check
      them, and the numbers bound for [real] columns, against the range of
      their column.
    - A [Date] is its time value in milliseconds ([Z]); [new Date()] is the
      argument [now] of the operation that reads the clock.
    - A [Map<number, T>] is an association list in insertion order
      ([JsMap]), which is the order [Array.from(map.values())] enumerates.
    - An [async] method of the store is a function from the store to its
      result and the store after the call. *)

From Stdlib Require Import ZArith List Bool String Lia.
From Stdlib Require Import QArith Qcanon Qabs Qpower Lqa.
From Stdlib Require Import Floats.PrimFloat Numbers.Cyclic.Int63.Uint63.
From Stdlib Require Import Floats.SpecFloat Floats.FloatOps Floats.FloatAxioms.
Import ListNotations.

Local Open Scope Z_scope.

(** ** Numbers *)

(** The operations on numbers that the modelled code uses: the literals [0]
    and [100], [+], [*], [/], and NaN, which is what [undefined + x]
    evaluates to. *)
Class JsNum (num : Type) : Type := {
  nzero : num;
  nhundred : num;
  nnan : num;
  nadd : num -> num -> num;
  nmul : num -> num -> num;
  ndiv : num -> num -> num
}.

(** IEEE 754 binary64, the numbers of the running program. *)
#[export] Instance binary64 : JsNum float := {|
  nzero := 0%float;
  nhundred := 100%float;
  nnan := PrimFloat.nan;
  nadd := PrimFloat.add;
  nmul := PrimFloat.mul;
  ndiv := PrimFloat.div
|}.

(** Arithmetic without rounding: a rational, or NaN. Division by zero gives
    NaN (the infinities are not represented). *)
Inductive xnum : Type :=
| XNum (q : Qc)
| XNaN.

Definition xadd (a b : xnum) : xnum :=
  match a, b with
  | XNum x, XNum y => XNum (x + y)%Qc
  | _, _ => XNaN
  end.

Definition xmul (a b : xnum) : xnum :=
  match a, b with
  | XNum x, XNum y => XNum (x * y)%Qc
  | _, _ => XNaN
  end.

Definition xdiv (a b : xnum) : xnum :=
  match a, b with
  | XNum x, XNum y => if Qc_eq_dec y (Q2Qc 0) then XNaN else XNum (x / y)%Qc
  | _, _ => XNaN
  end.

Definition xofZ (z : Z) : xnum := XNum (Q2Qc (inject_Z z)).

#[export] Instance exact : JsNum xnum := {|
  nzero := xofZ 0;
  nhundred := xofZ 100;
  nnan := XNaN;
  nadd := xadd;
  nmul := xmul;
  ndiv := xdiv
|}.

(** The laws of addition that hold without rounding. Binary64 addition
    satisfies them only on operands whose sums are all representable. *)
Class ExactAdd {num : Type} (N : JsNum num) : Prop := {
  nadd_assoc : forall a b c : num, nadd a (nadd b c) = nadd (nadd a b) c;
  nadd_comm : forall a b : num, nadd a b = nadd b a;
  nadd_zero_l : forall a : num, nadd nzero a = a
}.

(** The checks of the insert schemas. [createInsertSchema] of drizzle-zod
    turns an [integer] column into
    [z.number().min(-2147483648).max(2147483647).int()] and a [real] column
    into [z.number().min(-8388608).max(8388607)]. *)
Definition integerColumn (z : Z) : bool :=
  (-2147483648 <=? z) && (z <=? 2147483647).

Class RealColumn (num : Type) : Type := {
  realColumn : num -> bool
}.

#[export] Instance binary64_column : RealColumn float := {|
  realColumn x :=
    (PrimFloat.leb (PrimFloat.opp 8388608%float) x
     && PrimFloat.leb x 8388607%float)%bool
|}.

#[export] Instance exact_column : RealColumn xnum := {|
  realColumn x :=
    match x with
    | XNum q => Qle_bool (inject_Z (-8388608)) q && Qle_bool q (inject_Z 8388607)
    | XNaN => false
    end
|}.

(** [array.reduce((sum, x) => sum + f(x), 0)] *)
Definition sumOf {num : Type} {N : JsNum num} {A : Type}
  (f : A -> num) (l : list A) : num :=
  fold_left (fun sum x => nadd sum (f x)) l nzero.

(** ** Map<number, V> with insertion order *)

Module JsMap.
Section Defs.
Context {V : Type}.

Definition t : Type := list (Z * V).

Definition empty : t := [].

(** [map.get(k)]; [None] is [undefined]. *)
Fixpoint get (k : Z) (m : t) : option V :=
  match m with
  | [] => None
  | (k', v) :: m' => if k =? k' then Some v else get k m'
  end.

(** [map.set(k, v)]: an existing key keeps its position, a new key goes
    last. *)
Fixpoint set (k : Z) (v : V) (m : t) : t :=
  match m with
  | [] => [(k, v)]
  | (k', v') :: m' =>
      if k =? k' then (k, v) :: m' else (k', v') :: set k v m'
  end.

(** [Array.from(map.values())] *)
Definition values (m : t) : list V := map snd m.

Definition keys (m : t) : list Z := map fst m.

(** Every key is below [n]: the id counter has not been reached. *)
Definition below (n : Z) (m : t) : Prop := forall k, In k (keys m) -> k < n.

End Defs.
Arguments t : clear implicits.
End JsMap.

(** ** Entities

    [Insert] is the type the insert schema infers (what a caller supplies);
    [t] is the stored row: the spread of the insert data ([data]) with the
    fields the store assigns. A nullable column is an [option]. The [json]
    column [options] of a proposal is represented for the values that the
    handlers cast it to ([as string[]]) and that the seed data and the
    client's form give it, an array of strings; a proposal that holds
    another JSON value there, on which the tabulation would throw or count
    otherwise, is outside the model. *)

Module User.
Record Insert : Type := mkInsert {
  username : string;
  password : string;
  isArtist : option bool;
  walletAddress : option string;
  bio : option string;
  profileImage : option string
}.
Record t : Type := mk { data : Insert; id : Z; createdAt : Z }.
End User.

Module Artist.
Record Insert {num : Type} : Type := mkInsert {
  userId : Z;
  name : string;
  genres : option (list string);
  location : option string;
  bannerImage : option string;
  tokenName : string;
  tokenSymbol : string;
  tokenSupply : Z;
  artistShare : num;
  tokenHolderShare : num;
  treasuryShare : num;
  contractAddress : option string
}.
Arguments Insert : clear implicits.
Arguments mkInsert {num}.
Record t {num : Type} : Type := mk { data : Insert num; id : Z }.
Arguments t : clear implicits.
Arguments mk {num}.
End Artist.

Module Token.
Record Insert {num : Type} : Type := mkInsert {
  artistId : Z;
  userId : Z;
  amount : num;
  txHash : option string;
  method : option string
}.
Arguments Insert : clear implicits.
Arguments mkInsert {num}.
Record t {num : Type} : Type := mk {
  data : Insert num; id : Z; purchaseDate : Z
}.
Arguments t : clear implicits.
Arguments mk {num}.
End Token.

Module Proposal.
Record Insert : Type := mkInsert {
  artistId : Z;
  creatorId : Z;
  title : string;
  description : string;
  type : string;
  options : list string;
  endDate : Z
}.
Record t : Type := mk {
  data : Insert; id : Z; startDate : Z; status : string
}.
End Proposal.

Module Vote.
Record Insert {num : Type} : Type := mkInsert {
  proposalId : Z;
  userId : Z;
  optionIndex : Z;
  weight : num
}.
Arguments Insert : clear implicits.
Arguments mkInsert {num}.
Record t {num : Type} : Type := mk {
  data : Insert num; id : Z; timestamp : Z
}.
Arguments t : clear implicits.
Arguments mk {num}.
End Vote.

Module Revenue.
Record Insert {num : Type} : Type := mkInsert {
  artistId : Z;
  amount : num;
  source : string
}.
Arguments Insert : clear implicits.
Arguments mkInsert {num}.
Record t {num : Type} : Type := mk {
  data : Insert num; id : Z; date : Z; distributed : bool
}.
Arguments t : clear implicits.
Arguments mk {num}.
End Revenue.

Module Earning.
Record Insert {num : Type} : Type := mkInsert {
  revenueId : Z;
  userId : option Z;
  artistId : option Z;
  treasuryId : option Z;
  amount : num;
  type : string
}.
Arguments Insert : clear implicits.
Arguments mkInsert {num}.
Record t {num : Type} : Type := mk { data : Insert num; id : Z; date : Z }.
Arguments t : clear implicits.
Arguments mk {num}.
End Earning.

(** ** The store: [MemStorage] *)

Module CurrentIds.
Record t : Type := mk {
  user : Z;
  artist : Z;
  token : Z;
  proposal : Z;
  vote : Z;
  revenue : Z;
  earning : Z
}.
End CurrentIds.

Record MemStorage {num : Type} : Type := mkStorage {
  users : JsMap.t User.t;
  artists : JsMap.t (Artist.t num);
  tokens : JsMap.t (Token.t num);
  proposals : JsMap.t Proposal.t;
  votes : JsMap.t (Vote.t num);
  revenues : JsMap.t (Revenue.t num);
  earnings : JsMap.t (Earning.t num);
  currentIds : CurrentIds.t
}.
Arguments MemStorage : clear implicits.
Arguments mkStorage {num}.

Section Store.
Context {num : Type}.

Local Abbreviation Storage := (MemStorage num).

(** The store as the constructor builds it, before [seedData] (whose
    effect is a sequence of the create operations below). *)
Definition emptyStorage : Storage := {|
  users := JsMap.empty;
  artists := JsMap.empty;
  tokens := JsMap.empty;
  proposals := JsMap.empty;
  votes := JsMap.empty;
  revenues := JsMap.empty;
  earnings := JsMap.empty;
  currentIds := CurrentIds.mk 1 1 1 1 1 1 1
|}.

(** *** User operations *)

Definition getUser (id : Z) (st : Storage) : option User.t :=
  JsMap.get id (users st).

Definition getUserByUsername (username : string) (st : Storage)
  : option User.t :=
  find (fun user => String.eqb (User.username (User.data user)) username)
       (JsMap.values (users st)).

Definition createUser (now : Z) (user : User.Insert) (st : Storage)
  : User.t * Storage :=
  let ids := currentIds st in
  let id := CurrentIds.user ids in
  let newUser := User.mk user id now in
  (newUser,
   {| users := JsMap.set id newUser (users st);
      artists := artists st;
      tokens := tokens st;
      proposals := proposals st;
      votes := votes st;
      revenues := revenues st;
      earnings := earnings st;
      currentIds :=
        CurrentIds.mk (id + 1) (CurrentIds.artist ids) (CurrentIds.token ids)
          (CurrentIds.proposal ids) (CurrentIds.vote ids)
          (CurrentIds.revenue ids) (CurrentIds.earning ids) |}).

(** *** Artist operations *)

Definition getArtist (id : Z) (st : Storage) : option (Artist.t num) :=
  JsMap.get id (artists st).

Definition getAllArtists (st : Storage) : list (Artist.t num) :=
  JsMap.values (artists st).

Definition createArtist (artist : Artist.Insert num) (st : Storage)
  : Artist.t num * Storage :=
  let ids := currentIds st in
  let id := CurrentIds.artist ids in
  let newArtist := Artist.mk artist id in
  (newArtist,
   {| users := users st;
      artists := JsMap.set id newArtist (artists st);
      tokens := tokens st;
      proposals := proposals st;
      votes := votes st;
      revenues := revenues st;
      earnings := earnings st;
      currentIds :=
        CurrentIds.mk (CurrentIds.user ids) (id + 1) (CurrentIds.token ids)
          (CurrentIds.proposal ids) (CurrentIds.vote ids)
          (CurrentIds.revenue ids) (CurrentIds.earning ids) |}).

(** [{ ...artist, contractAddress }] *)
Definition withContractAddress (contractAddress : string)
  (artist : Artist.t num) : Artist.t num :=
  let d := Artist.data artist in
  Artist.mk
    (Artist.mkInsert (Artist.userId d) (Artist.name d) (Artist.genres d)
       (Artist.location d) (Artist.bannerImage d) (Artist.tokenName d)
       (Artist.tokenSymbol d) (Artist.tokenSupply d) (Artist.artistShare d)
       (Artist.tokenHolderShare d) (Artist.treasuryShare d)
       (Some contractAddress))
    (Artist.id artist).

Definition updateArtistContractAddress (id : Z) (contractAddress : string)
  (st : Storage) : option (Artist.t num) * Storage :=
  match JsMap.get id (artists st) with
  | None => (None, st)
  | Some artist =>
      let updatedArtist := withContractAddress contractAddress artist in
      (Some updatedArtist,
       {| users := users st;
          artists := JsMap.set id updatedArtist (artists st);
          tokens := tokens st;
          proposals := proposals st;
          votes := votes st;
          revenues := revenues st;
          earnings := earnings st;
          currentIds := currentIds st |})
  end.

(** *** Token operations *)

Definition getUserTokens (userId : Z) (st : Storage) : list (Token.t num) :=
  filter (fun token => Token.userId (Token.data token) =? userId)
         (JsMap.values (tokens st)).

Definition getArtistTokens (artistId : Z) (st : Storage)
  : list (Token.t num) :=
  filter (fun token => Token.artistId (Token.data token) =? artistId)
         (JsMap.values (tokens st)).

Definition createToken (now : Z) (token : Token.Insert num) (st : Storage)
  : Token.t num * Storage :=
  let ids := currentIds st in
  let id := CurrentIds.token ids in
  let newToken := Token.mk token id now in
  (newToken,
   {| users := users st;
      artists := artists st;
      tokens := JsMap.set id newToken (tokens st);
      proposals := proposals st;
      votes := votes st;
      revenues := revenues st;
      earnings := earnings st;
      currentIds :=
        CurrentIds.mk (CurrentIds.user ids) (CurrentIds.artist ids) (id + 1)
          (CurrentIds.proposal ids) (CurrentIds.vote ids)
          (CurrentIds.revenue ids) (CurrentIds.earning ids) |}).

(** *** Proposal operations *)

Definition getProposal (id : Z) (st : Storage) : option Proposal.t :=
  JsMap.get id (proposals st).

Definition getArtistProposals (artistId : Z) (st : Storage)
  : list Proposal.t :=
  filter (fun proposal =>
            Proposal.artistId (Proposal.data proposal) =? artistId)
         (JsMap.values (proposals st)).

Definition getUserProposals (userId : Z) (st : Storage) : list Proposal.t :=
  filter (fun proposal =>
            Proposal.creatorId (Proposal.data proposal) =? userId)
         (JsMap.values (proposals st)).

Definition createProposal (now : Z) (proposal : Proposal.Insert)
  (st : Storage) : Proposal.t * Storage :=
  let ids := currentIds st in
  let id := CurrentIds.proposal ids in
  let startDate := now in
  let status := "active"%string in
  let newProposal := Proposal.mk proposal id startDate status in
  (newProposal,
   {| users := users st;
      artists := artists st;
      tokens := tokens st;
      proposals := JsMap.set id newProposal (proposals st);
      votes := votes st;
      revenues := revenues st;
      earnings := earnings st;
      currentIds :=
        CurrentIds.mk (CurrentIds.user ids) (CurrentIds.artist ids)
          (CurrentIds.token ids) (id + 1) (CurrentIds.vote ids)
          (CurrentIds.revenue ids) (CurrentIds.earning ids) |}).

(** [{ ...proposal, status }] *)
Definition withStatus (status : string) (proposal : Proposal.t)
  : Proposal.t :=
  Proposal.mk (Proposal.data proposal) (Proposal.id proposal)
    (Proposal.startDate proposal) status.

Definition updateProposalStatus (id : Z) (status : string) (st : Storage)
  : option Proposal.t * Storage :=
  match JsMap.get id (proposals st) with
  | None => (None, st)
  | Some proposal =>
      let updatedProposal := withStatus status proposal in
      (Some updatedProposal,
       {| users := users st;
          artists := artists st;
          tokens := tokens st;
          proposals := JsMap.set id updatedProposal (proposals st);
          votes := votes st;
          revenues := revenues st;
          earnings := earnings st;
          currentIds := currentIds st |})
  end.

(** The filter of [getActiveProposals]:
    [proposal.status === "active" && new Date(proposal.endDate) > new Date()] *)
Definition isActiveAt (now : Z) (proposal : Proposal.t) : bool :=
  String.eqb (Proposal.status proposal) "active"
  && (now <? Proposal.endDate (Proposal.data proposal)).

Definition getActiveProposals (now : Z) (st : Storage) : list Proposal.t :=
  filter (isActiveAt now) (JsMap.values (proposals st)).

(** *** Vote operations *)

Definition getUserVotes (userId : Z) (st : Storage) : list (Vote.t num) :=
  filter (fun vote => Vote.userId (Vote.data vote) =? userId)
         (JsMap.values (votes st)).

Definition getProposalVotes (proposalId : Z) (st : Storage)
  : list (Vote.t num) :=
  filter (fun vote => Vote.proposalId (Vote.data vote) =? proposalId)
         (JsMap.values (votes st)).

Definition createVote (now : Z) (vote : Vote.Insert num) (st : Storage)
  : Vote.t num * Storage :=
  let ids := currentIds st in
  let id := CurrentIds.vote ids in
  let newVote := Vote.mk vote id now in
  (newVote,
   {| users := users st;
      artists := artists st;
      tokens := tokens st;
      proposals := proposals st;
      votes := JsMap.set id newVote (votes st);
      revenues := revenues st;
      earnings := earnings st;
      currentIds :=
        CurrentIds.mk (CurrentIds.user ids) (CurrentIds.artist ids)
          (CurrentIds.token ids) (CurrentIds.proposal ids) (id + 1)
          (CurrentIds.revenue ids) (CurrentIds.earning ids) |}).

(** *** Revenue operations *)

Definition getArtistRevenues (artistId : Z) (st : Storage)
  : list (Revenue.t num) :=
  filter (fun revenue => Revenue.artistId (Revenue.data revenue) =? artistId)
         (JsMap.values (revenues st)).

Definition createRevenue (now : Z) (revenue : Revenue.Insert num)
  (st : Storage) : Revenue.t num * Storage :=
  let ids := currentIds st in
  let id := CurrentIds.revenue ids in
  let distributed := false in
  let newRevenue := Revenue.mk revenue id now distributed in
  (newRevenue,
   {| users := users st;
      artists := artists st;
      tokens := tokens st;
      proposals := proposals st;
      votes := votes st;
      revenues := JsMap.set id newRevenue (revenues st);
      earnings := earnings st;
      currentIds :=
        CurrentIds.mk (CurrentIds.user ids) (CurrentIds.artist ids)
          (CurrentIds.token ids) (CurrentIds.proposal ids)
          (CurrentIds.vote ids) (id + 1) (CurrentIds.earning ids) |}).

(** [{ ...revenue, distributed: true }] *)
Definition asDistributed (revenue : Revenue.t num) : Revenue.t num :=
  Revenue.mk (Revenue.data revenue) (Revenue.id revenue)
    (Revenue.date revenue) true.

Definition markRevenueDistributed (id : Z) (st : Storage)
  : option (Revenue.t num) * Storage :=
  match JsMap.get id (revenues st) with
  | None => (None, st)
  | Some revenue =>
      let updatedRevenue := asDistributed revenue in
      (Some updatedRevenue,
       {| users := users st;
          artists := artists st;
          tokens := tokens st;
          proposals := proposals st;
          votes := votes st;
          revenues := JsMap.set id updatedRevenue (revenues st);
          earnings := earnings st;
          currentIds := currentIds st |})
  end.

(** *** Earnings operations *)

Definition getUserEarnings (userId : Z) (st : Storage)
  : list (Earning.t num) :=
  filter (fun earning =>
            match Earning.userId (Earning.data earning) with
            | Some u => u =? userId
            | None => false
            end)
         (JsMap.values (earnings st)).

Definition getArtistEarnings (artistId : Z) (st : Storage)
  : list (Earning.t num) :=
  filter (fun earning =>
            match Earning.artistId (Earning.data earning) with
            | Some a => a =? artistId
            | None => false
            end)
         (JsMap.values (earnings st)).

Definition createEarning (now : Z) (earning : Earning.Insert num)
  (st : Storage) : Earning.t num * Storage :=
  let ids := currentIds st in
  let id := CurrentIds.earning ids in
  let newEarning := Earning.mk earning id now in
  (newEarning,
   {| users := users st;
      artists := artists st;
      tokens := tokens st;
      proposals := proposals st;
      votes := votes st;
      revenues := revenues st;
      earnings := JsMap.set id newEarning (earnings st);
      currentIds :=
        CurrentIds.mk (CurrentIds.user ids) (CurrentIds.artist ids)
          (CurrentIds.token ids) (CurrentIds.proposal ids)
          (CurrentIds.vote ids) (CurrentIds.revenue ids) (id + 1) |}).

(** The Earning rows produced for one revenue event. *)
Definition earningsOfRevenue (revenueId : Z) (st : Storage)
  : list (Earning.t num) :=
  filter (fun earning => Earning.revenueId (Earning.data earning) =? revenueId)
         (JsMap.values (earnings st)).

(** *** Histories of the store

    The writing operations of [IStorage], and the states a store reaches
    through them from its construction. *)

Inductive Op : Type :=
| CreateUser (now : Z) (user : User.Insert)
| CreateArtist (artist : Artist.Insert num)
| UpdateArtistContractAddress (id : Z) (contractAddress : string)
| CreateToken (now : Z) (token : Token.Insert num)
| CreateProposal (now : Z) (proposal : Proposal.Insert)
| UpdateProposalStatus (id : Z) (status : string)
| CreateVote (now : Z) (vote : Vote.Insert num)
| CreateRevenue (now : Z) (revenue : Revenue.Insert num)
| MarkRevenueDistributed (id : Z)
| CreateEarning (now : Z) (earning : Earning.Insert num).

Definition exec (op : Op) (st : Storage) : Storage :=
  match op with
  | CreateUser now user => snd (createUser now user st)
  | CreateArtist artist => snd (createArtist artist st)
  | UpdateArtistContractAddress id a =>
      snd (updateArtistContractAddress id a st)
  | CreateToken now token => snd (createToken now token st)
  | CreateProposal now proposal => snd (createProposal now proposal st)
  | UpdateProposalStatus id status => snd (updateProposalStatus id status st)
  | CreateVote now vote => snd (createVote now vote st)
  | CreateRevenue now revenue => snd (createRevenue now revenue st)
  | MarkRevenueDistributed id => snd (markRevenueDistributed id st)
  | CreateEarning now earning => snd (createEarning now earning st)
  end.

Inductive reachable : Storage -> Prop :=
| reachable_new : reachable emptyStorage
| reachable_exec : forall op st, reachable st -> reachable (exec op st).

(** Ids handed out so far are below the counters. *)
Record idsBelowCounters (st : Storage) : Prop := {
  users_below : JsMap.below (CurrentIds.user (currentIds st)) (users st);
  artists_below : JsMap.below (CurrentIds.artist (currentIds st)) (artists st);
  tokens_below : JsMap.below (CurrentIds.token (currentIds st)) (tokens st);
  proposals_below :
    JsMap.below (CurrentIds.proposal (currentIds st)) (proposals st);
  votes_below : JsMap.below (CurrentIds.vote (currentIds st)) (votes st);
  revenues_below :
    JsMap.below (CurrentIds.revenue (currentIds st)) (revenues st);
  earnings_below :
    JsMap.below (CurrentIds.earning (currentIds st)) (earnings st)
}.

End Store.

(** ** The handlers of [routes.ts] *)

(** What a handler answers: the status code, and the body of a success.
    The handlers' [catch] blocks answer 400 (500 in the read-only
    handlers). The error kinds of the specification correspond to
    [BadRequest] (ValidationError), [NotFound] (NotFoundError) and
    [Forbidden] (UnauthorizedError); no answer of the handlers below
    corresponds to InvalidStateError or InvalidTransitionError. *)
Inductive Response (A : Type) : Type :=
| Ok (body : A)          (* 200 *)
| Created (body : A)     (* 201 *)
| BadRequest             (* 400 *)
| Forbidden              (* 403 *)
| NotFound.              (* 404 *)
Arguments Ok {A}.
Arguments Created {A}.
Arguments BadRequest {A}.
Arguments Forbidden {A}.
Arguments NotFound {A}.

(** Request bodies. A required field is [None] when the body lacks it or
    holds a value that is not of the column's JavaScript type (an integer
    number for an [integer] column, a number for a [real] column, a string
    for a [text] column), so that the insert schema rejects the body; a
    number that is present is still checked against the range of its
    column ([integerColumn], [realColumn]). The nullable text columns
    [txHash] and [method] of a token are [None] when left out or [null];
    a body that holds a value of another type there is not represented. *)
Module VoteBody.
Record t {num : Type} : Type := mk {
  userId : option Z;
  optionIndex : option Z;
  weight : option num
}.
Arguments t : clear implicits.
Arguments mk {num}.
End VoteBody.

(** The body of POST /api/proposals. [options] is a [json] column, for
    which the schema accepts any JSON value; the bodies represented here
    are those that hold an array of strings, or nothing, there. [endDate]
    is a [timestamp] column, for which the schema is [z.date()]: [Some t]
    is a [Date] object of time value [t], and [None] is a missing field or
    a value of any other type. A body that [express.json()] parsed holds
    no [Date], so a request that arrives over HTTP has [None] there. *)
Module ProposalBody.
Record t : Type := mk {
  artistId : option Z;
  creatorId : option Z;
  title : option string;
  description : option string;
  type : option string;
  options : option (list string);
  endDate : option Z
}.
End ProposalBody.

Module TokenBody.
Record t {num : Type} : Type := mk {
  artistId : option Z;
  userId : option Z;
  amount : option num;
  txHash : option string;
  method : option string
}.
Arguments t : clear implicits.
Arguments mk {num}.
End TokenBody.

(** The rows of the vote tabulation: a JavaScript array, whose slots are
    numbers or holes ([None]). *)
Definition JsArray (num : Type) : Type := list (option num).

Module VoteCounts.
Record t {num : Type} : Type := mk {
  options : list string;
  counts : JsArray num;
  total : num
}.
Arguments t : clear implicits.
Arguments mk {num}.
End VoteCounts.

Module Distribution.
Record t {num : Type} : Type := mk {
  totalEarnings : num;
  artistAmount : num;
  tokenHolderAmount : num;
  treasuryAmount : num
}.
Arguments t : clear implicits.
Arguments mk {num}.
End Distribution.

Section Routes.
Context {num : Type} {N : JsNum num} {RC : RealColumn num}.

Local Abbreviation Storage := (MemStorage num).

(** *** The insert schemas: [schema.parse(body)], [None] when it throws *)

(** [insertVoteSchema.parse({ ...req.body, proposalId })]: every column of
    [votes] but [id] and [timestamp] is required, [weight] included, and
    every number is checked against the range of its column. *)
Definition insertVoteSchema (proposalId : Z) (body : VoteBody.t num)
  : option (Vote.Insert num) :=
  match VoteBody.userId body, VoteBody.optionIndex body,
        VoteBody.weight body with
  | Some userId, Some optionIndex, Some weight =>
      if integerColumn proposalId && integerColumn userId
         && integerColumn optionIndex && realColumn weight
      then Some (Vote.mkInsert proposalId userId optionIndex weight)
      else None
  | _, _, _ => None
  end.

Definition insertProposalSchema (body : ProposalBody.t)
  : option Proposal.Insert :=
  match ProposalBody.artistId body, ProposalBody.creatorId body,
        ProposalBody.title body, ProposalBody.description body,
        ProposalBody.type body, ProposalBody.options body,
        ProposalBody.endDate body with
  | Some artistId, Some creatorId, Some title, Some description, Some type,
    Some options, Some endDate =>
      if integerColumn artistId && integerColumn creatorId
      then Some (Proposal.mkInsert artistId creatorId title description type
                   options endDate)
      else None
  | _, _, _, _, _, _, _ => None
  end.

Definition insertTokenSchema (body : TokenBody.t num)
  : option (Token.Insert num) :=
  match TokenBody.artistId body, TokenBody.userId body,
        TokenBody.amount body with
  | Some artistId, Some userId, Some amount =>
      if integerColumn artistId && integerColumn userId && realColumn amount
      then Some (Token.mkInsert artistId userId amount (TokenBody.txHash body)
                   (TokenBody.method body))
      else None
  | _, _, _ => None
  end.

(** *** POST /api/tokens *)
Definition postToken (now : Z) (body : TokenBody.t num) (st : Storage)
  : Response (Token.t num) * Storage :=
  match insertTokenSchema body with
  | None => (BadRequest, st)
  | Some tokenData =>
      let (token, st') := createToken now tokenData st in
      (Created token, st')
  end.

(** *** POST /api/proposals *)
Definition postProposal (now : Z) (body : ProposalBody.t) (st : Storage)
  : Response Proposal.t * Storage :=
  match insertProposalSchema body with
  | None => (BadRequest, st)
  | Some proposalData =>
      let (proposal, st') := createProposal now proposalData st in
      (Created proposal, st')
  end.

(** *** POST /api/proposals/:id/vote *)

(** [{ ...voteData, weight: tokenAmount }] *)
Definition withWeight (weight : num) (voteData : Vote.Insert num)
  : Vote.Insert num :=
  Vote.mkInsert (Vote.proposalId voteData) (Vote.userId voteData)
    (Vote.optionIndex voteData) weight.

Definition postVote (now : Z) (proposalId : Z) (body : VoteBody.t num)
  (st : Storage) : Response (Vote.t num) * Storage :=
  match getProposal proposalId st with
  | None => (NotFound, st)
  | Some proposal =>
      match insertVoteSchema proposalId body with
      | None => (BadRequest, st)
      | Some voteData =>
          let userTokens := getUserTokens (Vote.userId voteData) st in
          let artistTokens :=
            filter (fun token =>
                      Token.artistId (Token.data token)
                      =? Proposal.artistId (Proposal.data proposal))
                   userTokens in
          if (List.length artistTokens =? 0)%nat then (Forbidden, st)
          else
            let tokenAmount :=
              fold_left (fun sum token => nadd sum (Token.amount (Token.data token)))
                        artistTokens nzero in
            let (vote, st') :=
              createVote now (withWeight tokenAmount voteData) st in
            (Created vote, st')
      end
  end.

(** The specification's Holdings Accessor, in its words: the holding rows
    of the pair (artist, user), and [totalHolding], the sum of [amount]
    over them. The handler above computes both in line. *)
Definition holdingRows (artistId userId : Z) (st : Storage)
  : list (Token.t num) :=
  filter (fun token =>
            (Token.artistId (Token.data token) =? artistId)
            && (Token.userId (Token.data token) =? userId))
         (JsMap.values (tokens st)).

Definition totalHolding (artistId userId : Z) (st : Storage) : num :=
  sumOf (fun token => Token.amount (Token.data token))
        (holdingRows artistId userId st).

(** *** The vote tabulation of GET /api/proposals/active and of
    GET /api/artists/:id/proposals (the two handlers hold the same code).
    The rounded percentages are a projection of [counts] and [total] and
    are left out. *)

(** The largest array index is [2^32 - 2]. *)
Definition arrayIndexLimit : Z := 4294967295.

Fixpoint setNth {A : Type} (n : nat) (x : A) (l : list A) : list A :=
  match l, n with
  | [], _ => []
  | _ :: l', O => x :: l'
  | y :: l', S n' => y :: setNth n' x l'
  end.

(** [optionVotes[i] += w]. Within the array the slot is added to (reading
    a hole gives [undefined], and [undefined + w] is NaN); at an index past
    the end the array grows, with holes up to the new slot, which receives
    [undefined + w]; any other key (a negative number, or one that is not
    an array index) names a property that is no slot of the array. *)
Definition addAt (i : Z) (w : num) (a : JsArray num) : JsArray num :=
  if (0 <=? i) && (i <? Z.of_nat (List.length a)) then
    match nth_error a (Z.to_nat i) with
    | Some (Some x) => setNth (Z.to_nat i) (Some (nadd x w)) a
    | _ => setNth (Z.to_nat i) (Some nnan) a
    end
  else if (0 <=? i) && (i <? arrayIndexLimit) then
    a ++ repeat None (Z.to_nat i - List.length a) ++ [Some nnan]
  else a.

(** [array.reduce((a, b) => a + b, 0)]: holes are skipped. *)
Definition reduceSum (a : JsArray num) : num :=
  fold_left (fun acc slot =>
               match slot with
               | Some b => nadd acc b
               | None => acc
               end) a nzero.

Definition tabulate (proposal : Proposal.t) (votes : list (Vote.t num))
  : VoteCounts.t num :=
  let options := Proposal.options (Proposal.data proposal) in
  let optionVotes0 := repeat (Some nzero) (List.length options) in
  let optionVotes :=
    fold_left (fun optionVotes vote =>
                 addAt (Vote.optionIndex (Vote.data vote))
                       (Vote.weight (Vote.data vote)) optionVotes)
              votes optionVotes0 in
  let totalVotes := reduceSum optionVotes in
  VoteCounts.mk options optionVotes totalVotes.

(** The [votes] object a handler attaches to a proposal. *)
Definition proposalVotes (proposal : Proposal.t) (st : Storage)
  : VoteCounts.t num :=
  tabulate proposal (getProposalVotes (Proposal.id proposal) st).

(** [counts[i]] as the handler's client reads it: [None] is [undefined]. *)
Definition countAt (i : nat) (c : VoteCounts.t num) : option num :=
  match nth_error (VoteCounts.counts c) i with
  | Some slot => slot
  | None => None
  end.

(** The sum of [counts[i]] over the indexes [i] of the options; a slot
    that reads [undefined] adds as NaN. *)
Definition sumOverOptions (c : VoteCounts.t num) : num :=
  sumOf (fun i => match countAt i c with
                  | Some x => x
                  | None => nnan
                  end)
        (seq 0 (List.length (VoteCounts.options c))).

(** *** GET /api/artists/:id/revenue: the distribution object. The
    grouping by month, which reads the locale, is left out. *)
Definition revenueDistribution (artist : Artist.t num)
  (revenues : list (Revenue.t num)) : Distribution.t num :=
  let totalEarnings :=
    fold_left (fun sum revenue => nadd sum (Revenue.amount (Revenue.data revenue)))
              revenues nzero in
  let shares := Artist.data artist in
  let artistAmount :=
    nmul totalEarnings (ndiv (Artist.artistShare shares) nhundred) in
  let tokenHolderAmount :=
    nmul totalEarnings (ndiv (Artist.tokenHolderShare shares) nhundred) in
  let treasuryAmount :=
    nmul totalEarnings (ndiv (Artist.treasuryShare shares) nhundred) in
  Distribution.mk totalEarnings artistAmount tokenHolderAmount treasuryAmount.

Definition getArtistRevenue (artistId : Z) (st : Storage)
  : Response (Distribution.t num) :=
  match getArtist artistId st with
  | None => NotFound
  | Some artist =>
      Ok (revenueDistribution artist (getArtistRevenues artistId st))
  end.

End Routes.

(** ** Sample data

    Stores built with the operations above, in the program's arithmetic
    ([float]) and in exact arithmetic ([xnum]); the artist is the seed
    data's Aurora (shares 60/30/10, supply 1,000,000). *)

Module Sample.
Section Generic.
Context {num : Type} (lit : Z -> num).

Definition aurora : Artist.Insert num :=
  Artist.mkInsert 1 "Aurora" (Some ["Electronic"; "Indie Pop"]%string)
    (Some "Stockholm, Sweden"%string) None "AuroraShares" "AURORA" 1000000
    (lit 60) (lit 30) (lit 10) None.

(** A two-option proposal of artist 1 that ends at time 1000. *)
Definition albumConcept : Proposal.Insert :=
  Proposal.mkInsert 1 1 "Album Concept Direction"
    "Vote on the creative direction" "creative"
    ["Ethereal Electronic"; "Acoustic Reimagining"]%string 1000.

(** Artist 1, proposal 1 (created at time 0), and user 3 holding [held]
    tokens of artist 1. *)
Definition ledger (held : Z) : MemStorage num :=
  exec (CreateToken 5 (Token.mkInsert 1 3 (lit held) None None))
    (exec (CreateProposal 0 albumConcept)
       (exec (CreateArtist aurora) emptyStorage)).

(** [ledger], after revenue event 1 of artist 1 was recorded and marked
    distributed. *)
Definition distributedLedger (amount : Z) : MemStorage num :=
  exec (MarkRevenueDistributed 1)
    (exec (CreateRevenue 10 (Revenue.mkInsert 1 (lit amount) "streaming"))
       (ledger 250)).

(** [ledger], after proposal 1 was closed. *)
Definition closedLedger : MemStorage num :=
  exec (UpdateProposalStatus 1 "closed") (ledger 250).

(** [ledger], with one vote of user 3 on proposal 1 stored for the option
    index [optionIndex]. *)
Definition votedLedger (optionIndex : Z) : MemStorage num :=
  exec (CreateVote 20 (Vote.mkInsert 1 3 optionIndex (lit 250)))
    (ledger 250).

Definition voteBody (userId optionIndex weight : Z) : VoteBody.t num :=
  VoteBody.mk (Some userId) (Some optionIndex) (Some (lit weight)).

Definition artistEarning (amount : Z) : Earning.Insert num :=
  Earning.mkInsert 1 None (Some 1) None (lit amount) "artist".

(** Artist 1 with the given shares. *)
Definition sharing (artistShare tokenHolderShare treasuryShare : Z)
  : Artist.t num :=
  Artist.mk
    (Artist.mkInsert 1 "Aurora" None None None "AuroraShares" "AURORA" 1000000
       (lit artistShare) (lit tokenHolderShare) (lit treasuryShare) None)
    1.

(** One undistributed revenue event of artist 1. *)
Definition revenueOf (amount : Z) : Revenue.t num :=
  Revenue.mk (Revenue.mkInsert 1 (lit amount) "streaming") 1 10 false.

End Generic.

(** Small integers as binary64 numbers. *)
Definition f64 (z : Z) : float :=
  if z <? 0 then PrimFloat.opp (PrimFloat.of_uint63 (Uint63.of_Z (- z)))
  else PrimFloat.of_uint63 (Uint63.of_Z z).

End Sample.

(** ** The values of binary64 numbers

    [Prim2SF] gives the sign, the mantissa and the exponent of a binary64
    number; the rounding of the program's arithmetic is measured on the
    rational values that these stand for. *)

(** The value of a binary64 number, 0 for the infinities and NaN. *)
Definition SF2Q (x : spec_float) : Q :=
  match x with
  | S754_finite s m e =>
      ((if s then -1 else 1) * (inject_Z (Z.pos m) * 2 ^ e))%Q
  | _ => 0%Q
  end.

Definition valueOf (x : float) : Q := SF2Q (Prim2SF x).

(** A number that is neither NaN nor an infinity. *)
Definition isFinite (x : float) : bool :=
  match Prim2SF x with
  | S754_zero _ | S754_finite _ _ _ => true
  | _ => false
  end.

(** Half the distance, relative to 1, between neighbouring binary64
    numbers, 2^-53: the largest relative error of one rounding. *)
Definition unitRoundoff : Q := 1 # 9007199254740992.

(** A positive zero, or a positive normal number (53 digits) with its
    exponent in the given range. *)
Definition nonnegNormal (lo hi : Z) (x : spec_float) : Prop :=
  x = S754_zero false
  \/ exists (m : positive) (e : Z),
       x = S754_finite false m e
       /\ Z.pos (digits2_pos m) = 53
       /\ lo <= e <= hi.

(** The quotient [s / 100] of a whole percentage [s], checked against
    [s / 100] without rounding. *)
Definition shareChecked (s : Z) : bool :=
  match Prim2SF (PrimFloat.div (Sample.f64 s) 100) with
  | S754_zero false => s =? 0
  | S754_finite false m e =>
      (Z.pos (digits2_pos m) =? 53) && (-59 <=? e) && (e <=? -52)
      && Qle_bool ((1 - unitRoundoff) * (s # 100))
           (inject_Z (Z.pos m) * 2 ^ e)
      && Qle_bool (inject_Z (Z.pos m) * 2 ^ e)
           ((1 + unitRoundoff) * (s # 100))
  | _ => false
  end.

(** The sum of the integers [f x] over a list. *)
Definition sumZ {A : Type} (f : A -> Z) (l : list A) : Z :=
  fold_right (fun x s => f x + s) 0 l.

(** The numbers [ofZ 0], ..., [ofZ bound] stand for the integers from 0 to
    [bound], and are added without rounding. *)
Definition addsIntegers {num : Type} {N : JsNum num}
  (ofZ : Z -> num) (bound : Z) : Prop :=
  ofZ 0 = nzero
  /\ forall a b,
       0 <= a -> 0 <= b -> a + b <= bound ->
       nadd (ofZ a) (ofZ b) = ofZ (a + b).

(** ** Further operations

    The remaining readers of the store, the invariant that ties a row to
    its key, the user, login, artist-listing, proposal-listing and revenue
    handlers of [routes.ts], and the submission of the client's proposal
    form. *)

From Stdlib Require Import Sorted Ascii.

(** [array.filter(Boolean)] on an array of rows and [undefined]s. *)
Definition filterBoolean {A : Type} (l : list (option A)) : list A :=
  flat_map (fun x => match x with Some a => [a] | None => [] end) l.

(** Every row of the map is stored under the id it carries. *)
Definition keyedById {V : Type} (idOf : V -> Z) (m : JsMap.t V) : Prop :=
  forall k v, In (k, v) m -> idOf v = k.

(** The keys are in strictly increasing order, the order of creation. *)
Definition ascendingKeys {V : Type} (m : JsMap.t V) : Prop :=
  StronglySorted Z.lt (JsMap.keys m).

Section StoreReaders.
Context {num : Type}.

Local Abbreviation Storage := (MemStorage num).

(** [ids.map(id => this.users.get(id)).filter(Boolean)] *)
Definition getUsersByIds (ids : list Z) (st : Storage) : list User.t :=
  filterBoolean (map (fun id => JsMap.get id (users st)) ids).

Definition getArtistByUserId (userId : Z) (st : Storage)
  : option (Artist.t num) :=
  find (fun artist => Artist.userId (Artist.data artist) =? userId)
       (JsMap.values (artists st)).

(** In each of the seven maps the rows sit under their own ids, in the
    order of their creation. *)
Record rowsInOrder (st : Storage) : Prop := {
  users_keyed : keyedById User.id (users st);
  users_ascending : ascendingKeys (users st);
  artists_keyed : keyedById Artist.id (artists st);
  artists_ascending : ascendingKeys (artists st);
  tokens_keyed : keyedById Token.id (tokens st);
  tokens_ascending : ascendingKeys (tokens st);
  proposals_keyed : keyedById Proposal.id (proposals st);
  proposals_ascending : ascendingKeys (proposals st);
  votes_keyed : keyedById Vote.id (votes st);
  votes_ascending : ascendingKeys (votes st);
  revenues_keyed : keyedById Revenue.id (revenues st);
  revenues_ascending : ascendingKeys (revenues st);
  earnings_keyed : keyedById Earning.id (earnings st);
  earnings_ascending : ascendingKeys (earnings st)
}.

(** No two stored users have the same username. *)
Definition uniqueUsernames (st : Storage) : Prop :=
  NoDup (map (fun user => User.username (User.data user))
             (JsMap.values (users st))).

(** Histories: the store after a sequence of operations, first to last. *)
Definition execAll (ops : list Op) (st : Storage) : Storage :=
  fold_left (fun s op => exec op s) ops st.

End StoreReaders.

(** *** Users and login *)

(** A user as the handlers answer it: [const { password, ...rest } = user]. *)
Module PublicUser.
Record t : Type := mk {
  username : string;
  isArtist : option bool;
  walletAddress : option string;
  bio : option string;
  profileImage : option string;
  id : Z;
  createdAt : Z
}.
End PublicUser.

(** A field of a request body that the schema lets be left out: left out
    (or [null]), a value of the column's type, or a value of another type,
    which the schema rejects. *)
Inductive Optional (A : Type) : Type :=
| Omitted
| Given (a : A)
| Mistyped.
Arguments Omitted {A}.
Arguments Given {A}.
Arguments Mistyped {A}.

(** [schema.optional().nullable()] on such a field: the value to store, or
    [None] when the parse throws. *)
Definition optionalColumn {A : Type} (x : Optional A) : option (option A) :=
  match x with
  | Omitted => Some None
  | Given a => Some (Some a)
  | Mistyped => None
  end.

Module UserBody.
Record t : Type := mk {
  username : option string;
  password : option string;
  isArtist : Optional bool;
  walletAddress : Optional string;
  bio : Optional string;
  profileImage : Optional string
}.
End UserBody.

(** A credential of the login body: missing (or a falsy value that is no
    string), a string, or a truthy value that is no string. *)
Inductive Credential : Type :=
| Absent
| Text (s : string)
| NotText.

(** The answers of POST /api/auth/login. The constant [token] of the 200
    answer is left out. *)
Inductive LoginResponse {num : Type} : Type :=
| LoggedIn (user : PublicUser.t) (artist : option (Artist.t num))  (* 200 *)
| CredentialsRequired                                             (* 400 *)
| InvalidCredentials.                                             (* 401 *)
Arguments LoginResponse : clear implicits.

Module RevenueBody.
Record t {num : Type} : Type := mk {
  artistId : option Z;
  amount : option num;
  source : option string
}.
Arguments t : clear implicits.
Arguments mk {num}.
End RevenueBody.

(** An artist with the details of its user (GET /api/artists). *)
Module ArtistDetails.
Record t {num : Type} : Type := mk {
  artist : Artist.t num;
  username : option string;
  profileImage : option string;
  bio : option string;
  walletAddress : option string
}.
Arguments t : clear implicits.
Arguments mk {num}.
End ArtistDetails.

(** A proposal with the name and symbol of its artist and its vote counts
    (GET /api/proposals/active). *)
Module ProposalDetails.
Record t {num : Type} : Type := mk {
  proposal : Proposal.t;
  artistName : string;
  tokenSymbol : string;
  votes : VoteCounts.t num
}.
Arguments t : clear implicits.
Arguments mk {num}.
End ProposalDetails.

Section MoreRoutes.
Context {num : Type} {N : JsNum num} {RC : RealColumn num}.

Local Abbreviation Storage := (MemStorage num).

Definition withoutPassword (user : User.t) : PublicUser.t :=
  let d := User.data user in
  PublicUser.mk (User.username d) (User.isArtist d) (User.walletAddress d)
    (User.bio d) (User.profileImage d) (User.id user) (User.createdAt user).

(** [insertUserSchema.parse(req.body)]: [username] and [password] are
    required strings (the empty string included); the other fields may be
    left out, and are rejected when they hold a value of another type than
    their column's. *)
Definition insertUserSchema (body : UserBody.t) : option User.Insert :=
  match UserBody.username body, UserBody.password body,
        optionalColumn (UserBody.isArtist body),
        optionalColumn (UserBody.walletAddress body),
        optionalColumn (UserBody.bio body),
        optionalColumn (UserBody.profileImage body) with
  | Some username, Some password, Some isArtist, Some walletAddress,
    Some bio, Some profileImage =>
      Some (User.mkInsert username password isArtist walletAddress bio
              profileImage)
  | _, _, _, _, _, _ => None
  end.

(** POST /api/users *)
Definition postUser (now : Z) (body : UserBody.t) (st : Storage)
  : Response PublicUser.t * Storage :=
  match insertUserSchema body with
  | None => (BadRequest, st)
  | Some userData =>
      match getUserByUsername (User.username userData) st with
      | Some existingUser => (BadRequest, st)
      | None =>
          let (user, st') := createUser now userData st in
          (Created (withoutPassword user), st')
      end
  end.

(** [!x] for a credential. *)
Definition notGiven (c : Credential) : bool :=
  match c with
  | Absent => true
  | Text s => String.eqb s ""
  | NotText => false
  end.

(** POST /api/auth/login. A value that is no string is [===] to no
    username and to no password. *)
Definition login (username password : Credential) (st : Storage)
  : LoginResponse num :=
  if notGiven username || notGiven password then CredentialsRequired
  else
    let user :=
      match username with
      | Text u => getUserByUsername u st
      | _ => None
      end in
    match user with
    | None => InvalidCredentials
    | Some user =>
        let samePassword :=
          match password with
          | Text p => String.eqb (User.password (User.data user)) p
          | _ => false
          end in
        if negb samePassword then InvalidCredentials
        else
          let artistProfile :=
            match User.isArtist (User.data user) with
            | Some true => getArtistByUserId (User.id user) st
            | _ => None
            end in
          LoggedIn (withoutPassword user) artistProfile
    end.

(** *** GET /api/artists *)
Definition getArtistsWithDetails (st : Storage)
  : list (ArtistDetails.t num) :=
  let artists := getAllArtists st in
  let userIds := map (fun artist => Artist.userId (Artist.data artist)) artists in
  let users := getUsersByIds userIds st in
  map (fun artist =>
         let user :=
           find (fun u => User.id u =? Artist.userId (Artist.data artist))
                users in
         ArtistDetails.mk artist
           (option_map (fun u => User.username (User.data u)) user)
           (match user with
            | Some u => User.profileImage (User.data u)
            | None => None
            end)
           (match user with
            | Some u => User.bio (User.data u)
            | None => None
            end)
           (match user with
            | Some u => User.walletAddress (User.data u)
            | None => None
            end))
      artists.

(** *** GET /api/proposals/active *)

(** [set.add(x)] on a [Set<number>], in insertion order. *)
Definition setAdd (x : Z) (s : list Z) : list Z :=
  if existsb (Z.eqb x) s then s else s ++ [x].

Definition getActiveProposalsWithDetails (now : Z) (st : Storage)
  : list (ProposalDetails.t num) :=
  let proposals := getActiveProposals now st in
  let artistIdSet :=
    fold_left (fun s proposal =>
                 setAdd (Proposal.artistId (Proposal.data proposal)) s)
              proposals [] in
  let artistIds := artistIdSet in
  let artists := map (fun id => getArtist id st) artistIds in
  let artistMap :=
    fold_left (fun m artist =>
                 match artist with
                 | Some a => JsMap.set (Artist.id a) a m
                 | None => m
                 end)
              artists JsMap.empty in
  map (fun proposal =>
         let artist :=
           JsMap.get (Proposal.artistId (Proposal.data proposal)) artistMap in
         ProposalDetails.mk proposal
           (match artist with
            | Some a => Artist.name (Artist.data a)
            | None => "Unknown Artist"%string
            end)
           (match artist with
            | Some a => Artist.tokenSymbol (Artist.data a)
            | None => "UNKNOWN"%string
            end)
           (proposalVotes proposal st))
      proposals.

(** *** POST /api/revenues *)
Definition insertRevenueSchema (body : RevenueBody.t num)
  : option (Revenue.Insert num) :=
  match RevenueBody.artistId body, RevenueBody.amount body,
        RevenueBody.source body with
  | Some artistId, Some amount, Some source =>
      if integerColumn artistId && realColumn amount
      then Some (Revenue.mkInsert artistId amount source)
      else None
  | _, _, _ => None
  end.

Definition postRevenue (now : Z) (body : RevenueBody.t num) (st : Storage)
  : Response (Revenue.t num) * Storage :=
  match insertRevenueSchema body with
  | None => (BadRequest, st)
  | Some revenueData =>
      let (revenue, st') := createRevenue now revenueData st in
      (Created revenue, st')
  end.

(** The store after a sequence of registration requests, each a time and
    a body, first to last. *)
Definition postUsers (requests : list (Z * UserBody.t)) (st : Storage)
  : Storage :=
  fold_left (fun s request => snd (postUser (fst request) (snd request) s))
            requests st.

End MoreRoutes.

(** *** The proposal form of the client ([ProposalForm.tsx])

    A string is read as its sequence of UTF-16 code units, each below 256;
    the white space of [trim] in that range is TAB, LF, VT, FF, CR, space
    and NBSP. The form data has the fields of [Proposal.Insert]. *)

Module ProposalForm.

Definition isWhiteSpace (c : ascii) : bool :=
  let n := nat_of_ascii c in
  ((9 <=? n) && (n <=? 13) || (n =? 32) || (n =? 160))%nat.

Fixpoint trimStart (s : string) : string :=
  match s with
  | EmptyString => EmptyString
  | String c s' => if isWhiteSpace c then trimStart s' else s
  end.

Fixpoint trimEnd (s : string) : string :=
  match s with
  | EmptyString => EmptyString
  | String c s' =>
      match trimEnd s' with
      | EmptyString => if isWhiteSpace c then EmptyString else String c EmptyString
      | t => String c t
      end
  end.

Definition trim (s : string) : string := trimEnd (trimStart s).

(** [formSchema.safeParse(data).success], the date being compared with the
    clock at the time of the validation. *)
Definition formSchema (now : Z) (data : Proposal.Insert) : bool :=
  (0 <? Proposal.artistId data)
  && (0 <? Proposal.creatorId data)
  && (5 <=? String.length (Proposal.title data))%nat
  && (String.length (Proposal.title data) <=? 100)%nat
  && (10 <=? String.length (Proposal.description data))%nat
  && (1 <=? String.length (Proposal.type data))%nat
  && forallb (fun option => (1 <=? String.length option)%nat)
             (Proposal.options data)
  && (2 <=? List.length (Proposal.options data))%nat
  && (now <? Proposal.endDate data).

(** [onSubmit(data)]: the data handed to [proposalMutation.mutate], which
    posts it to /api/proposals; [None] when the form only shows its
    validation toast. *)
Definition onSubmit (data : Proposal.Insert) : option Proposal.Insert :=
  let filteredOptions :=
    filter (fun option => negb (String.eqb (trim option) ""))
           (Proposal.options data) in
  if (List.length filteredOptions <? 2)%nat then None
  else
    Some (Proposal.mkInsert (Proposal.artistId data) (Proposal.creatorId data)
            (Proposal.title data) (Proposal.description data)
            (Proposal.type data) filteredOptions (Proposal.endDate data)).

(** [form.handleSubmit(onSubmit)]: [onSubmit] runs on data that passes the
    schema. *)
Definition handleSubmit (now : Z) (data : Proposal.Insert)
  : option Proposal.Insert :=
  if formSchema now data then onSubmit data else None.

End ProposalForm.

(** * Properties *)

(** ** Facts about [JsMap] *)

Module JsMapFacts.
Section Facts.
Context {V : Type}.
Implicit Types (m : JsMap.t V) (k : Z) (v : V).

Lemma get_set_same k v m : JsMap.get k (JsMap.set k v m) = Some v.
Proof.
  induction m as [|[k' v'] m IH]; simpl.
  - now rewrite Z.eqb_refl.
  - destruct (k =? k') eqn:E; simpl; rewrite ?E, ?Z.eqb_refl; auto.
Qed.

Lemma get_set_other k k' v m :
  k <> k' -> JsMap.get k (JsMap.set k' v m) = JsMap.get k m.
Proof.
  intros Hne. induction m as [|[k0 v0] m IH]; simpl.
  - destruct (Z.eqb_spec k k'); congruence.
  - destruct (Z.eqb_spec k' k0) as [->|]; simpl.
    + destruct (Z.eqb_spec k k0); congruence.
    + destruct (Z.eqb_spec k k0); auto.
Qed.

(** Writing back the value a key already has changes nothing. *)
Lemma set_same_value k v m : JsMap.get k m = Some v -> JsMap.set k v m = m.
Proof.
  induction m as [|[k' v'] m IH]; simpl; [discriminate|].
  destruct (Z.eqb_spec k k') as [->|]; intros H.
  - congruence.
  - now rewrite IH.
Qed.

Lemma get_Some_key k v m : JsMap.get k m = Some v -> In k (JsMap.keys m).
Proof.
  induction m as [|[k' v'] m IH]; simpl; [discriminate|].
  destruct (Z.eqb_spec k k') as [->|]; auto.
Qed.

Lemma get_None_iff k m : JsMap.get k m = None <-> ~ In k (JsMap.keys m).
Proof.
  induction m as [|[k' v'] m IH]; simpl.
  - tauto.
  - destruct (Z.eqb_spec k k') as [->|Hne].
    + split; [discriminate | intros H; exfalso; auto].
    + rewrite IH. split; [intros H [E|I]; auto | tauto].
Qed.

Lemma get_Some_value k v m : JsMap.get k m = Some v -> In v (JsMap.values m).
Proof.
  induction m as [|[k' v'] m IH]; simpl; [discriminate|].
  destruct (k =? k'); [intros [= ->]; auto | auto].
Qed.

(** A key the map does not hold is appended. *)
Lemma set_fresh k v m : JsMap.get k m = None -> JsMap.set k v m = m ++ [(k, v)].
Proof.
  induction m as [|[k' v'] m IH]; simpl; auto.
  destruct (k =? k'); [discriminate|]. intros H. now rewrite IH.
Qed.

Lemma keys_set k v m x :
  In x (JsMap.keys (JsMap.set k v m)) -> x = k \/ In x (JsMap.keys m).
Proof.
  induction m as [|[k' v'] m IH]; simpl.
  - intros [<-|[]]; auto.
  - destruct (Z.eqb_spec k k') as [->|]; simpl.
    + intros [<-|H]; auto.
    + intros [<-|H]; auto. destruct (IH H); auto.
Qed.

Lemma below_get_None n k m : JsMap.below n m -> n <= k -> JsMap.get k m = None.
Proof.
  intros Hb Hk. apply get_None_iff. intros Hin. apply Hb in Hin. lia.
Qed.

Lemma below_set n n' k v m :
  JsMap.below n m -> n <= n' -> k < n' -> JsMap.below n' (JsMap.set k v m).
Proof.
  intros Hb Hn Hk x Hx. apply keys_set in Hx as [->|Hx]; auto.
  apply Hb in Hx. lia.
Qed.

Lemma below_update n k v v' m :
  JsMap.below n m -> JsMap.get k m = Some v -> JsMap.below n (JsMap.set k v' m).
Proof.
  intros Hb Hg. apply below_set with (n := n); auto; try lia.
  apply Hb. eapply get_Some_key; eauto.
Qed.

Lemma below_empty n : JsMap.below n (@JsMap.empty V).
Proof. intros k []. Qed.

End Facts.
End JsMapFacts.

(** ** Invariant of the store: the counters are ahead of the ids in use *)

Section StoreInvariant.
Context {num : Type}.
Implicit Types (st : MemStorage num) (op : Op (num := num)).

Lemma emptyStorage_ids : idsBelowCounters (@emptyStorage num).
Proof. split; simpl; apply JsMapFacts.below_empty. Qed.

Ltac fresh_key :=
  eapply JsMapFacts.below_set; [eassumption | lia | lia].

Lemma exec_ids op st : idsBelowCounters st -> idsBelowCounters (exec op st).
Proof.
  intros [Hu Ha Ht Hp Hv Hr He].
  destruct op; simpl;
    unfold updateArtistContractAddress, updateProposalStatus,
      markRevenueDistributed;
    try (split; simpl; auto; fresh_key).
  - destruct (JsMap.get id (artists st)) eqn:G; split; simpl; auto.
    eapply JsMapFacts.below_update; eauto.
  - destruct (JsMap.get id (proposals st)) eqn:G; split; simpl; auto.
    eapply JsMapFacts.below_update; eauto.
  - destruct (JsMap.get id (revenues st)) eqn:G; split; simpl; auto.
    eapply JsMapFacts.below_update; eauto.
Qed.

Lemma reachable_ids st : reachable st -> idsBelowCounters st.
Proof.
  induction 1; [apply emptyStorage_ids | now apply exec_ids].
Qed.

End StoreInvariant.

(** ** How the writing operations treat the rows they do not create *)

Section StoreFrames.
Context {num : Type}.
Implicit Types (st : MemStorage num) (op : Op (num := num)).

(** Rebuilding a store from its own fields gives the store. *)
Lemma storage_eta st :
  {| users := users st; artists := artists st; tokens := tokens st;
     proposals := proposals st; votes := votes st; revenues := revenues st;
     earnings := earnings st; currentIds := currentIds st |} = st.
Proof. now destruct st. Qed.

(** A stored revenue event survives every operation; only
    [markRevenueDistributed] on its id changes it, to [asDistributed]. *)
Lemma exec_revenue op st id (r : Revenue.t num) :
  idsBelowCounters st ->
  JsMap.get id (revenues st) = Some r ->
  JsMap.get id (revenues (exec op st)) = Some r
  \/ (op = MarkRevenueDistributed id
      /\ JsMap.get id (revenues (exec op st)) = Some (asDistributed r)).
Proof.
  intros Inv G.
  destruct op; simpl;
    unfold updateArtistContractAddress, updateProposalStatus,
      markRevenueDistributed; auto.
  - destruct (JsMap.get id0 (artists st)); auto.
  - destruct (JsMap.get id0 (proposals st)); auto.
  - left. rewrite JsMapFacts.get_set_other; auto.
    intros ->.
    rewrite (JsMapFacts.below_get_None _ _ _ (revenues_below _ Inv)) in G;
      [discriminate | lia].
  - destruct (Z.eq_dec id0 id) as [->|Hne].
    + right. rewrite G. simpl. split; auto. apply JsMapFacts.get_set_same.
    + left. destruct (JsMap.get id0 (revenues st)); simpl; auto.
      rewrite JsMapFacts.get_set_other; auto.
Qed.

(** A stored proposal survives every operation; only
    [updateProposalStatus] on its id changes it, to [withStatus]. *)
Lemma exec_proposal op st id (p : Proposal.t) :
  idsBelowCounters st ->
  JsMap.get id (proposals st) = Some p ->
  JsMap.get id (proposals (exec op st)) = Some p
  \/ (exists status, op = UpdateProposalStatus id status
      /\ JsMap.get id (proposals (exec op st)) = Some (withStatus status p)).
Proof.
  intros Inv G.
  destruct op; simpl;
    unfold updateArtistContractAddress, updateProposalStatus,
      markRevenueDistributed; auto.
  - destruct (JsMap.get id0 (artists st)); auto.
  - left. rewrite JsMapFacts.get_set_other; auto.
    intros ->.
    rewrite (JsMapFacts.below_get_None _ _ _ (proposals_below _ Inv)) in G;
      [discriminate | lia].
  - destruct (Z.eq_dec id0 id) as [->|Hne].
    + right. exists status. rewrite G. simpl. split; auto.
      apply JsMapFacts.get_set_same.
    + left. destruct (JsMap.get id0 (proposals st)); simpl; auto.
      rewrite JsMapFacts.get_set_other; auto.
  - destruct (JsMap.get id0 (revenues st)); auto.
Qed.

Lemma asDistributed_fixed (r : Revenue.t num) :
  Revenue.distributed r = true -> asDistributed r = r.
Proof. destruct r; simpl; now intros ->. Qed.

End StoreFrames.

(** ** C10: an unknown id is reported and changes nothing *)

(** C10. For an id that the store does not hold, [updateProposalStatus],
    [updateArtistContractAddress] and [markRevenueDistributed] return
    [undefined] ([None]) and the store after the call is the store before
    it: every map and every id counter is as it was. *)
Theorem unknown_id_is_reported_and_changes_nothing
  {num : Type} (st : MemStorage num) (id : Z) :
  (~ In id (JsMap.keys (proposals st)) ->
   forall status, updateProposalStatus id status st = (None, st))
  /\ (~ In id (JsMap.keys (artists st)) ->
      forall contractAddress,
        updateArtistContractAddress id contractAddress st = (None, st))
  /\ (~ In id (JsMap.keys (revenues st)) ->
      markRevenueDistributed id st = (None, st)).
Proof.
  unfold updateProposalStatus, updateArtistContractAddress,
    markRevenueDistributed.
  repeat split; intros H; intros;
    apply JsMapFacts.get_None_iff in H; now rewrite H.
Qed.

Lemma unknown_id_witness :
  let st := Sample.ledger Sample.f64 250 in
  updateProposalStatus 99 "closed" st = (None, st)
  /\ updateArtistContractAddress 99 "0xf39F" st = (None, st)
  /\ markRevenueDistributed 99 st = (None, st).
Proof.
  intros st.
  destruct (unknown_id_is_reported_and_changes_nothing st 99)
    as (Hp & Ha & Hr).
  split; [|split].
  - apply Hp. vm_compute. intros [H|[]]. discriminate.
  - apply Ha. vm_compute. intros [H|[]]. discriminate.
  - apply Hr. vm_compute. intros [].
Defined.

(** ** C1: the distributed flag *)

(** C1, as the code has it. [markRevenueDistributed] on a stored revenue
    event returns the event with [distributed] set and stores it, leaving
    the Earning rows as they are; on an event that is already distributed
    it succeeds again and the store does not change. Once set, the flag
    stays set under every operation of the store. *)
Theorem distributed_flag_is_set_and_never_reset
  {num : Type} (st : MemStorage num) (id : Z) (r : Revenue.t num) :
  reachable st ->
  JsMap.get id (revenues st) = Some r ->
  (exists st',
      markRevenueDistributed id st = (Some (asDistributed r), st')
      /\ Revenue.distributed (asDistributed r) = true
      /\ JsMap.get id (revenues st') = Some (asDistributed r)
      /\ earnings st' = earnings st
      /\ (Revenue.distributed r = true -> st' = st))
  /\ (Revenue.distributed r = true ->
      forall op, exists r',
        JsMap.get id (revenues (exec op st)) = Some r'
        /\ Revenue.distributed r' = true).
Proof.
  intros Hreach G. split.
  - unfold markRevenueDistributed. rewrite G.
    eexists. split; [reflexivity|]. simpl.
    split; [reflexivity|]. split; [apply JsMapFacts.get_set_same|].
    split; [reflexivity|]. intros Hd.
    rewrite (asDistributed_fixed r Hd).
    rewrite (JsMapFacts.set_same_value _ _ _ G). apply storage_eta.
  - intros Hd op.
    destruct (exec_revenue op st id r (reachable_ids st Hreach) G)
      as [H|[_ H]].
    + exists r. auto.
    + exists (asDistributed r). auto.
Qed.

Lemma distributed_flag_witness :
  let st := Sample.distributedLedger Sample.f64 100 in
  markRevenueDistributed 1 st
  = (JsMap.get 1 (revenues st), st)
  /\ exists r',
       JsMap.get 1 (revenues
                      (exec (CreateRevenue 30
                               (Revenue.mkInsert 1 (Sample.f64 7) "licensing"))
                            st))
       = Some r'
       /\ Revenue.distributed r' = true.
Proof.
  intros st.
  assert (Hreach : reachable st).
  { unfold st, Sample.distributedLedger, Sample.ledger.
    repeat apply reachable_exec. apply reachable_new. }
  assert (G : JsMap.get 1 (revenues st)
              = Some (Revenue.mk (Revenue.mkInsert 1 (Sample.f64 100)
                                    "streaming") 1 10 true))
    by (vm_compute; reflexivity).
  destruct (distributed_flag_is_set_and_never_reset st 1 _ Hreach G)
    as [(st' & Hmark & _ & _ & _ & Hsame) Hkeep].
  split.
  - rewrite Hmark, (Hsame eq_refl), G. reflexivity.
  - apply Hkeep. reflexivity.
Defined.

(** C1 as stated fails. Revenue event 1 of the sample ledger is already
    distributed; a second [markRevenueDistributed] returns the event (it is
    no failure), and [createEarning] for the event adds one more Earning
    row to those of the event. *)
Lemma second_distribution_is_accepted :
  let st := Sample.distributedLedger Sample.f64 100 in
  let st1 := snd (createEarning 40 (Sample.artistEarning Sample.f64 60) st) in
  let st2 := snd (markRevenueDistributed 1 st1) in
  let st3 := snd (createEarning 50 (Sample.artistEarning Sample.f64 60) st2) in
  reachable st
  /\ option_map Revenue.distributed (JsMap.get 1 (revenues st1)) = Some true
  /\ option_map Revenue.distributed (fst (markRevenueDistributed 1 st1))
     = Some true
  /\ List.length (earningsOfRevenue 1 st1) = 1%nat
  /\ List.length (earningsOfRevenue 1 st3) = 2%nat.
Proof.
  intros st st1 st2 st3. split.
  - unfold st, Sample.distributedLedger, Sample.ledger.
    repeat apply reachable_exec. apply reachable_new.
  - vm_compute. auto.
Qed.

(** ** C9: the status of a proposal *)

(** C9, as the code has it. [updateProposalStatus] on a stored proposal
    writes the given status over the current one, whatever the current one
    is (closed and cancelled included), and returns the updated proposal,
    whose other fields are unchanged. No other operation of the store
    changes a stored proposal. *)
Theorem status_is_overwritten_only_by_updateProposalStatus
  {num : Type} (st : MemStorage num) (id : Z) (p : Proposal.t) :
  reachable st ->
  JsMap.get id (proposals st) = Some p ->
  (forall status, exists p' st',
      updateProposalStatus id status st = (Some p', st')
      /\ JsMap.get id (proposals st') = Some p'
      /\ Proposal.status p' = status
      /\ Proposal.data p' = Proposal.data p
      /\ Proposal.id p' = Proposal.id p
      /\ Proposal.startDate p' = Proposal.startDate p)
  /\ (forall op,
      (forall status, op <> UpdateProposalStatus id status) ->
      JsMap.get id (proposals (exec op st)) = Some p).
Proof.
  intros Hreach G. split.
  - intros status. unfold updateProposalStatus. rewrite G.
    do 2 eexists. split; [reflexivity|]. simpl.
    split; [apply JsMapFacts.get_set_same|]. auto.
  - intros op Hop.
    destruct (exec_proposal op st id p (reachable_ids st Hreach) G)
      as [H|(status & Hop' & _)]; auto.
    now destruct (Hop status).
Qed.

Lemma status_overwrite_witness :
  let st := Sample.closedLedger Sample.f64 in
  (exists p' st',
      updateProposalStatus 1 "cancelled" st = (Some p', st')
      /\ JsMap.get 1 (proposals st') = Some p'
      /\ Proposal.status p' = "cancelled"%string)
  /\ option_map Proposal.status
       (JsMap.get 1 (proposals
                       (exec (CreateProposal 30 Sample.albumConcept) st)))
     = Some "closed"%string.
Proof.
  intros st.
  assert (Hreach : reachable st).
  { unfold st, Sample.closedLedger, Sample.ledger.
    repeat apply reachable_exec. apply reachable_new. }
  assert (G : JsMap.get 1 (proposals st)
              = Some (Proposal.mk Sample.albumConcept 1 0 "closed"))
    by (vm_compute; reflexivity).
  destruct (status_is_overwritten_only_by_updateProposalStatus
              st 1 _ Hreach G) as [Hset Hkeep].
  split.
  - destruct (Hset "cancelled"%string) as (p' & st' & H1 & H2 & H3 & _).
    exists p', st'. auto.
  - rewrite (Hkeep (CreateProposal 30 Sample.albumConcept));
      [reflexivity | discriminate].
Defined.

(** C9 as stated fails. Proposal 1 of the sample ledger is closed;
    [updateProposalStatus] with "active" returns the proposal (it is no
    failure) and the stored status is "active" again. *)
Lemma closed_proposal_is_reopened :
  let st := Sample.closedLedger Sample.f64 in
  reachable st
  /\ option_map Proposal.status (getProposal 1 st) = Some "closed"%string
  /\ option_map Proposal.status (fst (updateProposalStatus 1 "active" st))
     = Some "active"%string
  /\ option_map Proposal.status
       (getProposal 1 (snd (updateProposalStatus 1 "active" st)))
     = Some "active"%string.
Proof.
  intros st. split.
  - unfold st, Sample.closedLedger, Sample.ledger.
    repeat apply reachable_exec. apply reachable_new.
  - vm_compute. auto.
Qed.

(** ** The vote handler *)

Section VoteHandler.
Context {num : Type} {N : JsNum num} {RC : RealColumn num}.
Implicit Types (st : MemStorage num) (body : VoteBody.t num).

Lemma filter_filter {A : Type} (f g : A -> bool) (l : list A) :
  filter f (filter g l) = filter (fun x => f x && g x) l.
Proof.
  induction l as [|x l IH]; simpl; auto.
  destruct (g x); simpl; rewrite ?andb_true_r, ?andb_false_r.
  - destruct (f x); now rewrite IH.
  - auto.
Qed.

(** The rows the handler filters out of [getUserTokens] are the holding
    rows of the pair. *)
Lemma artistTokens_holdingRows artistId userId st :
  filter (fun token => Token.artistId (Token.data token) =? artistId)
         (getUserTokens userId st)
  = holdingRows artistId userId st.
Proof. unfold getUserTokens, holdingRows. apply filter_filter. Qed.

(** The four answers of the handler. *)
Lemma postVote_cases now proposalId body st :
  match getProposal proposalId st with
  | None => postVote now proposalId body st = (NotFound, st)
  | Some proposal =>
      match insertVoteSchema proposalId body with
      | None => postVote now proposalId body st = (BadRequest, st)
      | Some voteData =>
          let artistId := Proposal.artistId (Proposal.data proposal) in
          let userId := Vote.userId voteData in
          match holdingRows artistId userId st with
          | [] => postVote now proposalId body st = (Forbidden, st)
          | _ :: _ =>
              postVote now proposalId body st
              = (Created (fst (createVote now
                                 (withWeight (totalHolding artistId userId st)
                                             voteData) st)),
                 snd (createVote now
                        (withWeight (totalHolding artistId userId st)
                                    voteData) st))
          end
      end
  end.
Proof.
  unfold postVote.
  destruct (getProposal proposalId st) as [proposal|]; auto.
  destruct (insertVoteSchema proposalId body) as [voteData|]; auto.
  rewrite artistTokens_holdingRows. unfold totalHolding, sumOf.
  destruct (holdingRows _ _ st); reflexivity.
Qed.

End VoteHandler.

Section VoteClaims.
Context {num : Type} {N : JsNum num} {RC : RealColumn num}.
Implicit Types (st : MemStorage num) (body : VoteBody.t num).

Lemma holdingRows_tokens artistId userId st st2 :
  tokens st2 = tokens st ->
  holdingRows artistId userId st2 = holdingRows artistId userId st.
Proof. unfold holdingRows. now intros ->. Qed.

(** ** C5: the stored weight *)

(** The bodies that the insert schema accepts. *)
Lemma insertVoteSchema_Some proposalId body voteData :
  insertVoteSchema proposalId body = Some voteData
  <-> exists userId optionIndex weight,
        body = VoteBody.mk (Some userId) (Some optionIndex) (Some weight)
        /\ integerColumn proposalId = true
        /\ integerColumn userId = true
        /\ integerColumn optionIndex = true
        /\ realColumn weight = true
        /\ voteData = Vote.mkInsert proposalId userId optionIndex weight.
Proof.
  unfold insertVoteSchema. split.
  - destruct body as [[userId|] [optionIndex|] [weight|]]; simpl;
      try discriminate.
    destruct (integerColumn proposalId) eqn:Hp; [|discriminate].
    destruct (integerColumn userId) eqn:Hu; [|discriminate].
    destruct (integerColumn optionIndex) eqn:Ho; [|discriminate].
    destruct (realColumn weight) eqn:Hw; [|discriminate].
    simpl. intros [= <-]. exists userId, optionIndex, weight. auto 6.
  - intros (userId & optionIndex & weight & -> & Hp & Hu & Ho & Hw & ->).
    simpl. now rewrite Hp, Hu, Ho, Hw.
Qed.

(** C5. When the vote handler answers 201, the Vote it stored is that of
    the user and for the option index of the request, and its weight is
    the sum of [amount] over the holding rows of (proposal.artistId,
    userId) in the store at the time of the call. The weight sent in the
    request has no influence on it: the same request with any other
    weight that the schema accepts gets the same answer and leaves the
    same store, and with a weight that the schema rejects it is answered
    400 and stores nothing. *)
Theorem stored_weight_is_the_total_holding
  now proposalId body st vote st' :
  postVote now proposalId body st = (Created vote, st') ->
  exists proposal userId optionIndex,
    getProposal proposalId st = Some proposal
    /\ VoteBody.userId body = Some userId
    /\ VoteBody.optionIndex body = Some optionIndex
    /\ Vote.data vote
       = Vote.mkInsert proposalId userId optionIndex
           (totalHolding (Proposal.artistId (Proposal.data proposal))
              userId st)
    /\ JsMap.get (Vote.id vote) (votes st') = Some vote
    /\ forall weight',
        postVote now proposalId
          (VoteBody.mk (Some userId) (Some optionIndex) (Some weight')) st
        = if realColumn weight' then (Created vote, st')
          else (BadRequest, st).
Proof.
  intros H.
  pose proof (postVote_cases now proposalId body st) as C.
  destruct (getProposal proposalId st) as [proposal|] eqn:G;
    [|rewrite C in H; discriminate].
  destruct (insertVoteSchema proposalId body) as [voteData|] eqn:V;
    [|rewrite C in H; discriminate].
  apply insertVoteSchema_Some in V.
  destruct V as (userId & optionIndex & weight & -> & Hp & Hu & Ho & Hw & ->).
  simpl in C.
  destruct (holdingRows _ userId st) as [|t ts] eqn:Hrows;
    [rewrite C in H; discriminate|].
  rewrite C in H. injection H as <- <-.
  exists proposal, userId, optionIndex. simpl.
  repeat (split; [reflexivity|]).
  split; [apply JsMapFacts.get_set_same|].
  intros weight'.
  pose proof (postVote_cases now proposalId
                (VoteBody.mk (Some userId) (Some optionIndex) (Some weight'))
                st) as C'.
  rewrite G in C'. unfold insertVoteSchema in C'. simpl in C'.
  rewrite Hp, Hu, Ho in C'. simpl in C'.
  destruct (realColumn weight'); [|exact C'].
  simpl in C'. rewrite Hrows in C'. exact C'.
Qed.

(** ** C2: the lifecycle of the proposal *)

(** C2, as the code has it. The vote handler reads neither the status nor
    the end date of the proposal: on two stores that hold the same
    tokens, votes and counters, and under the proposal id a proposal of
    the same artist, it gives the same answer and stores the same votes.
    The lifecycle test is applied by [getActiveProposals] alone, which
    lists the stored proposals whose status is "active" and whose end date
    is after [now]. *)
Theorem vote_handler_does_not_read_the_lifecycle now proposalId body st :
  (forall st2 p p2,
      getProposal proposalId st = Some p ->
      getProposal proposalId st2 = Some p2 ->
      Proposal.artistId (Proposal.data p2)
      = Proposal.artistId (Proposal.data p) ->
      tokens st2 = tokens st ->
      votes st2 = votes st ->
      currentIds st2 = currentIds st ->
      fst (postVote now proposalId body st2)
      = fst (postVote now proposalId body st)
      /\ votes (snd (postVote now proposalId body st2))
         = votes (snd (postVote now proposalId body st)))
  /\ (forall q,
      In q (getActiveProposals now st)
      <-> In q (JsMap.values (proposals st))
          /\ Proposal.status q = "active"%string
          /\ now < Proposal.endDate (Proposal.data q)).
Proof.
  split.
  - intros st2 p p2 G G2 Ha Ht Hv Hc.
    pose proof (postVote_cases now proposalId body st) as C.
    pose proof (postVote_cases now proposalId body st2) as C2.
    rewrite G in C. rewrite G2 in C2.
    destruct (insertVoteSchema proposalId body) as [voteData|];
      [|rewrite C, C2; auto].
    simpl in C, C2. rewrite Ha in C2.
    unfold totalHolding in *.
    rewrite (holdingRows_tokens _ _ st st2 Ht) in C2.
    destruct (holdingRows _ _ st); rewrite C, C2; simpl; auto.
    now rewrite Hv, Hc.
  - intros q. unfold getActiveProposals, isActiveAt.
    rewrite filter_In, andb_true_iff, String.eqb_eq, Z.ltb_lt. tauto.
Qed.

(** ** C3: the option index *)

(** C3, as the code has it. For a stored proposal the vote handler answers
    400 exactly when the insert schema rejects the body, that is when
    [userId], [optionIndex] or [weight] is missing, is no number of the
    column's type or lies outside the range of its column (or the proposal
    id lies outside the range of an integer column), and it then stores
    nothing. The option index is not compared with the options of the
    proposal: a vote that the schema accepts, of a user with a holding row
    for the artist, is stored with the option index it carries, whatever
    integer of the column's range that is. *)
Theorem option_index_is_stored_unchecked
  now proposalId proposal body st :
  getProposal proposalId st = Some proposal ->
  (fst (postVote now proposalId body st) = BadRequest
   <-> integerColumn proposalId = false
       \/ (forall userId,
             VoteBody.userId body = Some userId ->
             integerColumn userId = false)
       \/ (forall optionIndex,
             VoteBody.optionIndex body = Some optionIndex ->
             integerColumn optionIndex = false)
       \/ (forall weight,
             VoteBody.weight body = Some weight -> realColumn weight = false))
  /\ (fst (postVote now proposalId body st) = BadRequest ->
      snd (postVote now proposalId body st) = st)
  /\ (forall userId optionIndex weight,
      body = VoteBody.mk (Some userId) (Some optionIndex) (Some weight) ->
      integerColumn proposalId = true ->
      integerColumn userId = true ->
      integerColumn optionIndex = true ->
      realColumn weight = true ->
      holdingRows (Proposal.artistId (Proposal.data proposal)) userId st
      <> [] ->
      exists vote st',
        postVote now proposalId body st = (Created vote, st')
        /\ Vote.optionIndex (Vote.data vote) = optionIndex
        /\ JsMap.get (Vote.id vote) (votes st') = Some vote).
Proof.
  intros G.
  pose proof (postVote_cases now proposalId body st) as C.
  rewrite G in C. split; [|split].
  - destruct (insertVoteSchema proposalId body) as [voteData|] eqn:V.
    + apply insertVoteSchema_Some in V.
      destruct V as (userId & optionIndex & weight & -> & Hp & Hu & Ho & Hw
                     & ->).
      simpl in C. split.
      * destruct (holdingRows _ userId st); rewrite C; discriminate.
      * intros [H|[H|[H|H]]].
        -- congruence.
        -- specialize (H userId eq_refl). congruence.
        -- specialize (H optionIndex eq_refl). congruence.
        -- specialize (H weight eq_refl). congruence.
    + rewrite C. split; [intros _|reflexivity].
      unfold insertVoteSchema in V.
      destruct body as [[userId|] [optionIndex|] [weight|]]; simpl in *;
        try (right; left; discriminate);
        try (right; right; left; discriminate);
        try (right; right; right; discriminate).
      destruct (integerColumn proposalId); [|now left].
      destruct (integerColumn userId) eqn:Hu;
        [|right; left; now intros ? [= <-]].
      destruct (integerColumn optionIndex) eqn:Ho;
        [|right; right; left; now intros ? [= <-]].
      destruct (realColumn weight) eqn:Hw; [discriminate|].
      right; right; right. now intros ? [= <-].
  - destruct (insertVoteSchema proposalId body) as [voteData|];
      [|now rewrite C].
    simpl in C.
    destruct (holdingRows _ _ st); rewrite C; [discriminate|discriminate].
  - intros userId optionIndex weight -> Hp Hu Ho Hw Hrows.
    unfold insertVoteSchema in C. simpl in C.
    rewrite Hp, Hu, Ho, Hw in C. simpl in C.
    destruct (holdingRows _ userId st); [congruence|].
    do 2 eexists. split; [exact C|]. simpl.
    split; [reflexivity | apply JsMapFacts.get_set_same].
Qed.

(** A user without a holding row for the artist of the proposal is
    answered 403, whatever the option index that the schema accepts, and
    nothing is stored. *)
Lemma no_holding_row_is_forbidden
  now proposalId proposal body voteData st :
  getProposal proposalId st = Some proposal ->
  insertVoteSchema proposalId body = Some voteData ->
  holdingRows (Proposal.artistId (Proposal.data proposal))
    (Vote.userId voteData) st = [] ->
  postVote now proposalId body st = (Forbidden, st).
Proof.
  intros G V Hrows.
  pose proof (postVote_cases now proposalId body st) as C.
  rewrite G, V in C. simpl in C. now rewrite Hrows in C.
Qed.

End VoteClaims.

(** *** The vote handler on the sample ledger *)

Lemma stored_weight_witness :
  let st := Sample.ledger Sample.f64 250 in
  postVote 500 1 (Sample.voteBody Sample.f64 3 0 1) st
  = postVote 500 1 (Sample.voteBody Sample.f64 3 0 999) st
  /\ fst (postVote 500 1 (Sample.voteBody Sample.f64 3 0 8388608) st)
     = BadRequest
  /\ exists vote,
       fst (postVote 500 1 (Sample.voteBody Sample.f64 3 0 999) st)
       = Created vote
       /\ Vote.userId (Vote.data vote) = 3
       /\ Vote.weight (Vote.data vote) = totalHolding 1 3 st.
Proof.
  intros st.
  set (vote := Vote.mk (Vote.mkInsert 1 3 0 (Sample.f64 250)) 1 500).
  set (st' := snd (postVote 500 1 (Sample.voteBody Sample.f64 3 0 999) st)).
  assert (H : postVote 500 1 (Sample.voteBody Sample.f64 3 0 999) st
              = (Created vote, st')) by (vm_compute; reflexivity).
  destruct (stored_weight_is_the_total_holding 500 1 _ st vote st' H)
    as (proposal & userId & optionIndex & G & Hu & Ho & Hd & _ & Hany).
  assert (proposal = Proposal.mk Sample.albumConcept 1 0 "active") as ->
    by (vm_compute in G; injection G as <-; reflexivity).
  injection Hu as <-. injection Ho as <-.
  split; [|split].
  - rewrite H. apply (Hany (Sample.f64 1)).
  - unfold Sample.voteBody. now rewrite (Hany (Sample.f64 8388608)).
  - exists vote. rewrite H. split; [reflexivity|].
    now rewrite Hd.
Defined.

Lemma lifecycle_witness :
  fst (postVote 2000 1 (Sample.voteBody Sample.f64 3 0 1)
         (Sample.closedLedger Sample.f64))
  = fst (postVote 2000 1 (Sample.voteBody Sample.f64 3 0 1)
           (Sample.ledger Sample.f64 250)).
Proof.
  destruct (vote_handler_does_not_read_the_lifecycle 2000 1
              (Sample.voteBody Sample.f64 3 0 1)
              (Sample.ledger Sample.f64 250)) as [Hsame _].
  apply (Hsame (Sample.closedLedger Sample.f64)
               (Proposal.mk Sample.albumConcept 1 0 "active")
               (Proposal.mk Sample.albumConcept 1 0 "closed"));
    vm_compute; reflexivity.
Defined.

(** C2 as stated fails. Proposal 1 of the sample ledger ends at time
    1000. At time 2000, with the stored status still "active", it is not
    listed as active, and at time 500 the closed proposal is not either;
    in both cases the vote of user 3, who holds 250 tokens, is answered
    201 and the Vote is stored. *)
Lemma vote_on_ended_proposal_is_recorded :
  let expired := Sample.ledger Sample.f64 250 in
  let closed := Sample.closedLedger Sample.f64 in
  let body := Sample.voteBody Sample.f64 3 0 250 in
  let vote now := Vote.mk (Vote.mkInsert 1 3 0 (Sample.f64 250)) 1 now in
  option_map Proposal.status (getProposal 1 expired) = Some "active"%string
  /\ option_map (isActiveAt 2000) (getProposal 1 expired) = Some false
  /\ getActiveProposals 2000 expired = []
  /\ fst (postVote 2000 1 body expired) = Created (vote 2000)
  /\ getProposalVotes 1 (snd (postVote 2000 1 body expired)) = [vote 2000]
  /\ option_map Proposal.status (getProposal 1 closed) = Some "closed"%string
  /\ getActiveProposals 500 closed = []
  /\ fst (postVote 500 1 body closed) = Created (vote 500)
  /\ getProposalVotes 1 (snd (postVote 500 1 body closed)) = [vote 500].
Proof. vm_compute. repeat split. Qed.

Lemma option_index_witness :
  (exists vote st',
      postVote 500 1 (Sample.voteBody Sample.f64 3 1 250)
        (Sample.ledger Sample.f64 250)
      = (Created vote, st')
      /\ Vote.optionIndex (Vote.data vote) = 1
      /\ JsMap.get (Vote.id vote) (votes st') = Some vote)
  /\ postVote 500 1 (Sample.voteBody Sample.f64 3 2147483648 250)
       (Sample.ledger Sample.f64 250)
     = (BadRequest, Sample.ledger Sample.f64 250).
Proof.
  assert (G : getProposal 1 (Sample.ledger Sample.f64 250)
              = Some (Proposal.mk Sample.albumConcept 1 0 "active"))
    by (vm_compute; reflexivity).
  split.
  - destruct (option_index_is_stored_unchecked 500 1 _
                (Sample.voteBody Sample.f64 3 1 250) _ G)
      as (_ & _ & Hstored).
    apply (Hstored 3 1 (Sample.f64 250)); try reflexivity.
    vm_compute. discriminate.
  - destruct (option_index_is_stored_unchecked 500 1 _
                (Sample.voteBody Sample.f64 3 2147483648 250) _ G)
      as (Hbad & Hkeeps & _).
    assert (B : fst (postVote 500 1
                       (Sample.voteBody Sample.f64 3 2147483648 250)
                       (Sample.ledger Sample.f64 250)) = BadRequest).
    { apply Hbad. right; right; left. intros optionIndex [= <-].
      reflexivity. }
    rewrite (surjective_pairing (postVote _ _ _ _)).
    now rewrite B, (Hkeeps B).
Defined.

(** C3 as stated fails. Proposal 1 of the sample ledger has two options;
    votes for the option indexes 7 and -1 are answered 201 and stored. *)
Lemma vote_for_missing_option_is_recorded :
  let st := Sample.ledger Sample.f64 250 in
  let vote i := Vote.mk (Vote.mkInsert 1 3 i (Sample.f64 250)) 1 500 in
  option_map (fun p => List.length (Proposal.options (Proposal.data p)))
    (getProposal 1 st) = Some 2%nat
  /\ fst (postVote 500 1 (Sample.voteBody Sample.f64 3 7 250) st)
     = Created (vote 7)
  /\ getProposalVotes 1
       (snd (postVote 500 1 (Sample.voteBody Sample.f64 3 7 250) st))
     = [vote 7]
  /\ fst (postVote 500 1 (Sample.voteBody Sample.f64 3 (-1) 250) st)
     = Created (vote (-1))
  /\ getProposalVotes 1
       (snd (postVote 500 1 (Sample.voteBody Sample.f64 3 (-1) 250) st))
     = [vote (-1)].
Proof. vm_compute. repeat split. Qed.

(** ** C4: a holding of zero tokens *)

(** C4 at the input where the code departs from it. POST /api/tokens
    accepts an amount of 0 and stores the holding row; user 3 then has a
    total holding of 0 for artist 1, and the vote handler, which tests the
    number of rows and not their sum, answers 201 and stores a Vote of
    weight 0. A user without any row is answered 403. *)
Lemma zero_holding_vote_is_recorded :
  let st0 : MemStorage float :=
    exec (CreateProposal 0 Sample.albumConcept)
      (exec (CreateArtist (Sample.aurora Sample.f64)) emptyStorage) in
  let row := TokenBody.mk (Some 1) (Some 3) (Some 0%float) None None in
  let st := snd (postToken 5 row st0) in
  let body := Sample.voteBody Sample.f64 3 0 1 in
  fst (postToken 5 row st0)
  = Created (Token.mk (Token.mkInsert 1 3 0%float None None) 1 5)
  /\ st = Sample.ledger Sample.f64 0
  /\ totalHolding 1 3 st = 0%float
  /\ fst (postVote 500 1 body st)
     = Created (Vote.mk (Vote.mkInsert 1 3 0 0%float) 1 500)
  /\ getProposalVotes 1 (snd (postVote 500 1 body st))
     = [Vote.mk (Vote.mkInsert 1 3 0 0%float) 1 500]
  /\ postVote 500 1 body st0 = (Forbidden, st0).
Proof. vm_compute. repeat split. Qed.

(** ** Binary64 arithmetic

    What the rounding of binary64 does to the sums and products that the
    handlers compute, derived from the specification of the primitive
    operations ([FloatAxioms]) over [SpecFloat]. *)

Module Binary64Facts.

Local Abbreviation digits m := (Z.pos (digits2_pos m)).

Lemma digits_bounds (m : positive) :
  2 ^ (digits m - 1) <= Z.pos m < 2 ^ digits m.
Proof.
  assert (E : digits2_pos m = Pos.size m) by (induction m; simpl; congruence).
  rewrite E. split.
  - pose proof (Pos.size_le m) as H.
    apply Pos2Z.pos_le_pos in H. rewrite Pos2Z.inj_pow in H.
    change (Z.pos m~0) with (2 * Z.pos m) in H.
    replace (Z.pos (Pos.size m)) with (Z.succ (Z.pos (Pos.size m) - 1)) in H
      by lia.
    rewrite Z.pow_succ_r in H by lia. lia.
  - pose proof (Pos.size_gt m) as H.
    apply Pos2Z.pos_lt_pos in H. now rewrite Pos2Z.inj_pow in H.
Qed.

Lemma digits_unique (m : positive) (k : Z) :
  2 ^ (k - 1) <= Z.pos m < 2 ^ k -> digits m = k.
Proof.
  intros [Hl Hu]. pose proof (digits_bounds m) as [Gl Gu].
  assert (0 < k).
  { destruct (Z.ltb_spec 0 k); auto.
    assert (2 ^ k <= 2 ^ 0) by (apply Z.pow_le_mono_r; lia).
    simpl in *. lia. }
  destruct (Z.lt_trichotomy (digits m) k) as [L|[E|G]]; auto; exfalso.
  - assert (2 ^ digits m <= 2 ^ (k - 1)) by (apply Z.pow_le_mono_r; lia).
    lia.
  - assert (2 ^ k <= 2 ^ (digits m - 1)) by (apply Z.pow_le_mono_r; lia).
    lia.
Qed.

Lemma iter_xO (m d : positive) :
  Z.pos (Pos.iter xO m d) = Z.pos m * 2 ^ Z.pos d.
Proof.
  apply (Pos.iter_ind _ xO m
           (fun d r => Z.pos r = Z.pos m * 2 ^ Z.pos d)).
  - change (Z.pos m~0) with (2 * Z.pos m). lia.
  - intros p r IH. change (Z.pos r~0) with (2 * Z.pos r).
    rewrite IH, Pos2Z.inj_succ, Z.pow_succ_r by lia. ring.
Qed.

Lemma iter_pos_iter {A : Type} (f : A -> A) (p : positive) (x : A) :
  iter_pos f p x = Pos.iter f x p.
Proof.
  revert x; induction p as [p IH|p IH|]; intros x; simpl; auto.
  - rewrite !IH. now rewrite <- !Pos.iter_swap.
  - now rewrite !IH.
Qed.

(** One step of the right shift. *)
Lemma shr_1_spec (m : Z) (r s : bool) :
  0 <= m ->
  shr_1 (Build_shr_record m r s)
  = Build_shr_record (m / 2) (Z.odd m) (r || s).
Proof.
  intros H. destruct m as [|[p|p|]|p]; try lia; simpl; f_equal.
  - change (Z.pos p~1) with (2 * Z.pos p + 1).
    apply Z.div_unique with 1; lia.
  - change (Z.pos p~0) with (2 * Z.pos p).
    apply Z.div_unique with 0; lia.
Qed.

(** [k] steps of the right shift, from an exact record. *)
Lemma shr_spec (m : Z) (k : positive) :
  0 <= m ->
  iter_pos shr_1 k (Build_shr_record m false false)
  = Build_shr_record (m / 2 ^ Z.pos k) (Z.odd (m / 2 ^ (Z.pos k - 1)))
      (negb (m mod 2 ^ (Z.pos k - 1) =? 0)).
Proof.
  intros H. rewrite iter_pos_iter.
  apply (Pos.iter_ind _ shr_1 (Build_shr_record m false false)
           (fun k rec =>
              rec = Build_shr_record (m / 2 ^ Z.pos k)
                      (Z.odd (m / 2 ^ (Z.pos k - 1)))
                      (negb (m mod 2 ^ (Z.pos k - 1) =? 0)))).
  - rewrite shr_1_spec by exact H. simpl.
    rewrite Z.div_1_r, Z.mod_1_r. reflexivity.
  - intros p rec ->.
    rewrite shr_1_spec by (apply Z.div_pos; lia).
    rewrite Pos2Z.inj_succ.
    replace (Z.succ (Z.pos p) - 1) with (Z.pos p) by lia.
    f_equal.
    + rewrite Z.div_div by lia. f_equal.
      rewrite Z.pow_succ_r by lia. ring.
    + assert (Hj : 0 <= Z.pos p - 1) by lia.
      remember (Z.pos p - 1) as j eqn:Ej.
      replace (Z.pos p) with (Z.succ j) by lia. clear Ej.
      rewrite Z.pow_succ_r, Z.mul_comm by lia.
      rewrite Z.rem_mul_r by lia.
      rewrite Zodd_mod.
      assert (0 < 2 ^ j) by (apply Z.pow_pos_nonneg; lia).
      pose proof (Z.mod_pos_bound m (2 ^ j)) as B.
      pose proof (Z.mod_pos_bound (m / 2 ^ j) 2) as B2.
      destruct (Z.eqb_spec ((m / 2 ^ j) mod 2) 1) as [E|E];
        destruct (Z.eqb_spec (m mod 2 ^ j) 0) as [F|F];
        simpl; symmetry.
      * apply negb_true_iff, Z.eqb_neq. rewrite E, F. lia.
      * apply negb_true_iff, Z.eqb_neq. rewrite E. lia.
      * apply negb_false_iff, Z.eqb_eq. rewrite F.
        assert ((m / 2 ^ j) mod 2 = 0) as -> by lia. lia.
      * apply negb_true_iff, Z.eqb_neq.
        assert ((m / 2 ^ j) mod 2 = 0) as -> by lia. lia.
Qed.

(** Rounding to nearest, ties to even, of a mantissa shifted by [k]: the
    result is within half a unit of the last place kept, and is the
    quotient itself when nothing was shifted out. *)
Lemma round_nearest_even_spec (m : Z) (k : positive) :
  0 <= m ->
  let rec :=
    Build_shr_record (m / 2 ^ Z.pos k) (Z.odd (m / 2 ^ (Z.pos k - 1)))
      (negb (m mod 2 ^ (Z.pos k - 1) =? 0)) in
  let m1 := round_nearest_even (shr_m rec) (loc_of_shr_record rec) in
  m / 2 ^ Z.pos k <= m1 <= m / 2 ^ Z.pos k + 1
  /\ 2 * Z.abs (m1 * 2 ^ Z.pos k - m) <= 2 ^ Z.pos k
  /\ (m mod 2 ^ Z.pos k = 0 -> m1 = m / 2 ^ Z.pos k).
Proof.
  intros H rec m1. subst rec m1. cbn [shr_m].
  assert (Hj : 0 <= Z.pos k - 1) by lia.
  remember (Z.pos k - 1) as j eqn:Ej.
  replace (Z.pos k) with (Z.succ j) by lia. clear Ej.
  rewrite Z.pow_succ_r by lia.
  assert (HP : 0 < 2 ^ j) by (apply Z.pow_pos_nonneg; lia).
  set (P := 2 ^ j) in *.
  pose proof (Z.div_mod m (2 * P) ltac:(lia)) as Hm.
  pose proof (Z.mod_pos_bound m (2 * P) ltac:(lia)) as Hr.
  assert (Hrem : m mod (2 * P) = m mod P + P * ((m / P) mod 2))
    by (rewrite (Z.mul_comm 2 P); apply Z.rem_mul_r; lia).
  pose proof (Z.mod_pos_bound m P HP) as Hlow.
  pose proof (Z.mod_pos_bound (m / P) 2 ltac:(lia)) as Hbit.
  rewrite Zodd_mod.
  set (q := m / (2 * P)) in *. set (rem := m mod (2 * P)) in *.
  set (low := m mod P) in *. set (bit := (m / P) mod 2) in *.
  clearbody q rem low bit P.
  destruct (Z.eqb_spec bit 1) as [E|E];
    destruct (Z.eqb_spec low 0) as [F|F];
    cbv beta iota delta [round_nearest_even loc_of_shr_record negb].
  - destruct (Z.even q); lia.
  - lia.
  - assert (bit = 0) by lia. lia.
  - assert (bit = 0) by lia. lia.
Qed.

Lemma fexp_normal (x : Z) :
  -1074 <= x - 53 -> fexp prec emax x = x - 53.
Proof. intros H. unfold fexp, SpecFloat.emin, prec, emax. lia. Qed.

(** [binary_round_aux] on a mantissa of at least 53 digits with nothing
    lost before: the result is a normal number within half a unit in the
    last place of the exact value [M * 2^e], and the exact value itself
    when the digits to drop are all 0. *)
Lemma binary_round_aux_spec (s : bool) (M : positive) (e : Z) :
  53 <= digits M ->
  -1074 <= e + (digits M - 53) ->
  e + (digits M - 53) < 971 ->
  exists (m' : positive) (e' : Z),
    binary_round_aux prec emax s (Z.pos M) e loc_Exact = S754_finite s m' e'
    /\ digits m' = 53
    /\ e + (digits M - 53) <= e' <= e + (digits M - 53) + 1
    /\ 2 * Z.abs (Z.pos m' * 2 ^ (e' - e) - Z.pos M) <= 2 ^ (digits M - 53)
    /\ (Z.pos M mod 2 ^ (digits M - 53) = 0 ->
        Z.pos m' * 2 ^ (e' - e) = Z.pos M).
Proof.
  intros Hd Hlo Hhi. pose proof (digits_bounds M) as [Bl Bu].
  unfold binary_round_aux, shr_fexp.
  change (Zdigits2 (Z.pos M)) with (digits M).
  rewrite fexp_normal by lia.
  replace (digits M + e - 53 - e) with (digits M - 53) by lia.
  remember (digits M) as d eqn:Ed.
  destruct (d - 53) as [|k|k] eqn:Ek; try lia.
  - (* 53 digits: nothing to shift *)
    cbn [shr shr_record_of_loc shr_m loc_of_shr_record round_nearest_even].
    change (Zdigits2 (Z.pos M)) with (digits M). rewrite <- Ed.
    rewrite fexp_normal by lia.
    replace (d + e - 53 - e) with 0 by lia.
    cbn [shr shr_record_of_loc shr_m].
    replace (e <=? emax - prec) with true
      by (symmetry; apply Z.leb_le; unfold emax, prec; lia).
    exists M, e. split; [reflexivity|]. rewrite <- Ed.
    replace (e + 0) with e by lia.
    replace (e - e) with 0 by lia. rewrite Z.pow_0_r.
    repeat split; try lia.
  - (* more digits: shift by [k], round, and renormalise *)
    cbn [shr shr_record_of_loc]. rewrite shr_spec by lia.
    pose proof (round_nearest_even_spec (Z.pos M) k ltac:(lia))
      as (Hq & Herr & Hexact).
    cbv zeta in Hq, Herr, Hexact.
    set (m1 := round_nearest_even _ _) in *.
    assert (Hpow : 2 ^ d = 2 ^ 53 * 2 ^ Z.pos k)
      by (rewrite <- Z.pow_add_r by lia; f_equal; lia).
    assert (Hpow' : 2 ^ (d - 1) = 2 ^ 52 * 2 ^ Z.pos k)
      by (rewrite <- Z.pow_add_r by lia; f_equal; lia).
    assert (Hk : 0 < 2 ^ Z.pos k) by (apply Z.pow_pos_nonneg; lia).
    assert (Hq1 : 2 ^ 52 <= Z.pos M / 2 ^ Z.pos k)
      by (apply Z.div_le_lower_bound; lia).
    assert (Hq2 : Z.pos M / 2 ^ Z.pos k < 2 ^ 53)
      by (apply Z.div_lt_upper_bound; lia).
    destruct m1 as [|p|p] eqn:Em1; try lia.
    destruct (Z.eq_dec (Z.pos p) (2 ^ 53)) as [E53|N53].
    + (* the rounding carried into a 54th digit *)
      injection E53 as ->.
      change (Zdigits2 (Z.pos 9007199254740992)) with 54.
      rewrite fexp_normal by lia.
      replace (54 + (e + Z.pos k) - 53 - (e + Z.pos k)) with 1 by lia.
      cbn [shr iter_pos shr_1 shr_record_of_loc shr_m orb].
      replace (e + Z.pos k + 1 <=? emax - prec) with true
        by (symmetry; apply Z.leb_le; unfold emax, prec; lia).
      exists 4503599627370496%positive, (e + Z.pos k + 1).
      split; [reflexivity|]. split; [reflexivity|].
      split; [lia|].
      replace (e + Z.pos k + 1 - e) with (Z.succ (Z.pos k)) by lia.
      rewrite Z.pow_succ_r by lia.
      change (Z.pos 4503599627370496) with (2 ^ 52).
      change (2 ^ 53) with (2 * 2 ^ 52) in *.
      split; [lia|]. intros Hz. specialize (Hexact Hz). lia.
    + assert (Ep : digits p = 53)
        by (apply digits_unique; change (53 - 1) with 52; lia).
      change (Zdigits2 (Z.pos p)) with (digits p). rewrite Ep.
      rewrite fexp_normal by lia.
      replace (53 + (e + Z.pos k) - 53 - (e + Z.pos k)) with 0 by lia.
      cbn [shr shr_record_of_loc shr_m].
      replace (e + Z.pos k <=? emax - prec) with true
        by (symmetry; apply Z.leb_le; unfold emax, prec; lia).
      exists p, (e + Z.pos k). split; [reflexivity|].
      split; [exact Ep|]. split; [lia|].
      replace (e + Z.pos k - e) with (Z.pos k) by lia.
      split; [exact Herr|]. intros Hz. specialize (Hexact Hz).
      rewrite Hexact.
      pose proof (Z.div_mod (Z.pos M) (2 ^ Z.pos k) ltac:(lia)). lia.
Qed.

(** The same bound, relative to the exact value. *)
Lemma binary_round_aux_relative (s : bool) (M : positive) (e : Z) :
  53 <= digits M ->
  -1074 <= e + (digits M - 53) ->
  e + (digits M - 53) < 971 ->
  exists (m' : positive) (e' : Z),
    binary_round_aux prec emax s (Z.pos M) e loc_Exact = S754_finite s m' e'
    /\ digits m' = 53
    /\ e + (digits M - 53) <= e' <= e + (digits M - 53) + 1
    /\ 2 ^ 53 * Z.abs (Z.pos m' * 2 ^ (e' - e) - Z.pos M) <= Z.pos M
    /\ (Z.pos M mod 2 ^ (digits M - 53) = 0 ->
        Z.pos m' * 2 ^ (e' - e) = Z.pos M).
Proof.
  intros Hd Hlo Hhi.
  destruct (binary_round_aux_spec s M e Hd Hlo Hhi)
    as (m' & e' & Hr & Hm & He & Herr & Hexact).
  exists m', e'. repeat (split; auto).
  pose proof (digits_bounds M) as [Bl _].
  assert (Hpow : 2 ^ (digits M - 1) = 2 ^ 52 * 2 ^ (digits M - 53))
    by (rewrite <- Z.pow_add_r by lia; f_equal; lia).
  change (2 ^ 53) with (2 * 2 ^ 52).
  set (x := Z.abs _) in *. set (P := 2 ^ (digits M - 53)) in *.
  clearbody x P. nia.
Qed.

Lemma binary_round_large (s : bool) (M : positive) (e : Z) :
  53 <= digits M ->
  -1074 <= e + (digits M - 53) ->
  binary_round prec emax s M e
  = binary_round_aux prec emax s (Z.pos M) e loc_Exact.
Proof.
  intros Hd Hlo. unfold binary_round, shl_align.
  rewrite fexp_normal by lia.
  destruct (digits M + e - 53 - e) eqn:E; try lia; reflexivity.
Qed.

(** A mantissa of fewer than 53 digits is shifted to the left. *)
Lemma binary_round_small (s : bool) (M : positive) (e : Z) :
  digits M < 53 ->
  -1074 <= e + (digits M - 53) ->
  e + (digits M - 53) < 971 ->
  exists m' : positive,
    binary_round prec emax s M e = S754_finite s m' (e + (digits M - 53))
    /\ digits m' = 53
    /\ Z.pos m' = Z.pos M * 2 ^ (53 - digits M).
Proof.
  intros Hd Hlo Hhi. pose proof (digits_bounds M) as [Bl Bu].
  unfold binary_round, shl_align.
  rewrite fexp_normal by lia.
  destruct (digits M + e - 53 - e) as [|k|k] eqn:E; try lia.
  assert (Ek : Z.pos k = 53 - digits M) by lia.
  set (m' := Pos.iter xO M k).
  assert (Hm' : Z.pos m' = Z.pos M * 2 ^ (53 - digits M))
    by (unfold m'; rewrite iter_xO; now rewrite Ek).
  assert (Dm' : digits m' = 53).
  { apply digits_unique. rewrite Hm'. change (53 - 1) with 52.
    assert (H1 : 2 ^ 52 = 2 ^ (digits M - 1) * 2 ^ (53 - digits M))
      by (rewrite <- Z.pow_add_r by lia; f_equal; lia).
    assert (H2 : 2 ^ 53 = 2 ^ digits M * 2 ^ (53 - digits M))
      by (rewrite <- Z.pow_add_r by lia; f_equal; lia).
    assert (0 < 2 ^ (53 - digits M)) by (apply Z.pow_pos_nonneg; lia).
    rewrite H1, H2. split; nia. }
  destruct (binary_round_aux_spec s m' (digits M + e - 53))
    as (m'' & e'' & Hr & Hm & He & _ & Hexact);
    try (rewrite Dm'; lia).
  fold m'. cbv beta iota. rewrite Hr. rewrite Dm' in *.
  change (53 - 53) with 0 in *. rewrite Z.pow_0_r, Z.mod_1_r in Hexact.
  specialize (Hexact eq_refl).
  assert (e'' = digits M + e - 53).
  { destruct (Z.eq_dec e'' (digits M + e - 53)) as [|Hne]; auto.
    assert (e'' - (digits M + e - 53) = 1) as E1 by lia.
    rewrite E1 in Hexact. pose proof (digits_bounds m'') as [Cl Cu].
    pose proof (digits_bounds m') as [Dl Du].
    rewrite Hm in *. rewrite Dm' in *. change (53 - 1) with 52 in *.
    change (2 ^ 53) with (2 * 2 ^ 52) in *. lia. }
  subst e''. replace (digits M + e - 53 - (digits M + e - 53)) with 0
    in Hexact by lia.
  rewrite Z.pow_0_r, Z.mul_1_r in Hexact. injection Hexact as ->.
  exists m'. split; [f_equal; lia|]. auto.
Qed.

(** Two 53-digit mantissas that give the same value are the same. *)
Lemma normal_unique (m1 m2 : positive) (k1 k2 : Z) :
  digits m1 = 53 -> digits m2 = 53 -> 0 <= k1 -> 0 <= k2 ->
  Z.pos m1 * 2 ^ k1 = Z.pos m2 * 2 ^ k2 ->
  m1 = m2 /\ k1 = k2.
Proof.
  intros D1 D2 H1 H2 E.
  pose proof (digits_bounds m1) as [A1 B1].
  pose proof (digits_bounds m2) as [A2 B2].
  rewrite D1 in *. rewrite D2 in *. change (53 - 1) with 52 in *.
  change (2 ^ 53) with (2 * 2 ^ 52) in *.
  assert (K : k1 = k2).
  { destruct (Z.lt_trichotomy k1 k2) as [L|[K|G]]; auto; exfalso.
    - replace k2 with (k1 + Z.succ (k2 - k1 - 1)) in E by lia.
      rewrite Z.pow_add_r, Z.pow_succ_r in E by lia.
      assert (0 < 2 ^ k1) by (apply Z.pow_pos_nonneg; lia).
      assert (0 < 2 ^ (k2 - k1 - 1)) by (apply Z.pow_pos_nonneg; lia).
      assert (Z.pos m1 = Z.pos m2 * (2 * 2 ^ (k2 - k1 - 1))) by nia.
      nia.
    - replace k1 with (k2 + Z.succ (k1 - k2 - 1)) in E by lia.
      rewrite Z.pow_add_r, Z.pow_succ_r in E by lia.
      assert (0 < 2 ^ k2) by (apply Z.pow_pos_nonneg; lia).
      assert (0 < 2 ^ (k1 - k2 - 1)) by (apply Z.pow_pos_nonneg; lia).
      assert (Z.pos m2 = Z.pos m1 * (2 * 2 ^ (k1 - k2 - 1))) by nia.
      nia. }
  subst k2. split; auto.
  assert (0 < 2 ^ k1) by (apply Z.pow_pos_nonneg; lia).
  assert (Z.pos m1 = Z.pos m2) by nia. congruence.
Qed.

Lemma shl_align_value (m : positive) (e ez : Z) :
  ez <= e -> Z.pos (fst (shl_align m e ez)) = Z.pos m * 2 ^ (e - ez).
Proof.
  intros H. unfold shl_align.
  destruct (ez - e) as [|p|p] eqn:E; try lia; cbn [fst].
  - replace (e - ez) with 0 by lia. rewrite Z.pow_0_r. lia.
  - rewrite iter_xO. f_equal. f_equal. lia.
Qed.

Lemma pow2_digits_le (M : positive) (j : Z) :
  Z.pos M < 2 ^ j -> digits M <= j.
Proof.
  intros H. pose proof (digits_bounds M) as [Bl _].
  destruct (Z.leb_spec (digits M) j) as [|L]; auto. exfalso.
  assert (2 ^ j <= 2 ^ (digits M - 1)).
  { destruct (Z.leb_spec 0 j).
    - apply Z.pow_le_mono_r; lia.
    - rewrite Z.pow_neg_r in H by lia. lia. }
  lia.
Qed.

Lemma pow2_digits_ge (M : positive) (j : Z) :
  2 ^ (j - 1) <= Z.pos M -> j <= digits M.
Proof.
  intros H. pose proof (digits_bounds M) as [_ Bu].
  destruct (Z.leb_spec j (digits M)) as [|L]; auto. exfalso.
  assert (2 ^ digits M <= 2 ^ (j - 1)) by (apply Z.pow_le_mono_r; lia).
  lia.
Qed.

(** The sum of two positive normal numbers. *)
Lemma SFadd_normal (mx my : positive) (ex ey : Z) :
  digits mx = 53 -> digits my = 53 ->
  -1074 <= ex -> -1074 <= ey -> ex < 969 -> ey < 969 ->
  let ez := Z.min ex ey in
  let M := Z.pos mx * 2 ^ (ex - ez) + Z.pos my * 2 ^ (ey - ez) in
  exists (m' : positive) (e' : Z),
    SFadd prec emax (S754_finite false mx ex) (S754_finite false my ey)
    = S754_finite false m' e'
    /\ digits m' = 53
    /\ Z.max ex ey <= e' <= Z.max ex ey + 2
    /\ 2 ^ 53 * Z.abs (Z.pos m' * 2 ^ (e' - ez) - M) <= M
    /\ (forall j, 0 <= j -> M < 2 ^ (53 + j) -> M mod 2 ^ j = 0 ->
        Z.pos m' * 2 ^ (e' - ez) = M).
Proof.
  intros Dx Dy Lx Ly Ux Uy ez M.
  pose proof (digits_bounds mx) as [Axl Axu].
  pose proof (digits_bounds my) as [Ayl Ayu].
  rewrite Dx in *. rewrite Dy in *. change (53 - 1) with 52 in *.
  unfold SFadd. fold ez. cbn [cond_Zopp].
  rewrite <- Pos2Z.inj_add.
  set (Mp := (fst (shl_align mx ex ez) + fst (shl_align my ey ez))%positive).
  assert (HM : Z.pos Mp = M).
  { unfold Mp, M. rewrite Pos2Z.inj_add.
    rewrite !shl_align_value by (unfold ez; lia). reflexivity. }
  cbn [binary_normalize].
  assert (Px : 0 < 2 ^ (ex - ez)) by (apply Z.pow_pos_nonneg; unfold ez; lia).
  assert (Py : 0 < 2 ^ (ey - ez)) by (apply Z.pow_pos_nonneg; unfold ez; lia).
  assert (Hmax : Z.max ex ey - ez = ex - ez \/ Z.max ex ey - ez = ey - ez)
    by lia.
  assert (E0 : ex - ez = 0 \/ ey - ez = 0) by (unfold ez; lia).
  assert (Lo : 2 ^ (53 + (Z.max ex ey - ez) - 1) <= Z.pos Mp).
  { rewrite HM. unfold M.
    replace (53 + (Z.max ex ey - ez) - 1) with (52 + (Z.max ex ey - ez))
      by lia.
    rewrite Z.pow_add_r by (unfold ez; lia).
    destruct Hmax as [-> | ->]; nia. }
  assert (Hi : Z.pos Mp < 2 ^ (54 + (Z.max ex ey - ez))).
  { rewrite HM. unfold M.
    rewrite Z.pow_add_r by (unfold ez; lia).
    change (2 ^ 54) with (2 * 2 ^ 53).
    assert (2 ^ (ex - ez) <= 2 ^ (Z.max ex ey - ez))
      by (apply Z.pow_le_mono_r; unfold ez; lia).
    assert (2 ^ (ey - ez) <= 2 ^ (Z.max ex ey - ez))
      by (apply Z.pow_le_mono_r; unfold ez; lia).
    nia. }
  apply pow2_digits_ge in Lo. apply pow2_digits_le in Hi.
  rewrite binary_round_large by (unfold ez in *; lia).
  destruct (binary_round_aux_relative false Mp ez)
    as (m' & e' & Hr & Dm & He & Herr & Hexact);
    try (unfold ez in *; lia).
  exists m', e'. rewrite HM in *.
  split; [exact Hr|]. split; [exact Dm|]. split; [unfold ez in *; lia|].
  split; [exact Herr|].
  intros j Hj Hlt Hmod. apply Hexact.
  rewrite <- HM in Hlt. apply pow2_digits_le in Hlt.
  replace j with ((digits Mp - 53) + (j - (digits Mp - 53))) in Hmod by lia.
  rewrite Z.pow_add_r in Hmod by lia.
  assert (0 < 2 ^ (digits Mp - 53)) by (apply Z.pow_pos_nonneg; lia).
  assert (0 < 2 ^ (j - (digits Mp - 53))) by (apply Z.pow_pos_nonneg; lia).
  apply Z.mod_divide in Hmod; [|lia]. apply Z.mod_divide; [lia|].
  destruct Hmod as [c Hc]. exists (c * 2 ^ (j - (digits Mp - 53))).
  rewrite Hc. ring.
Qed.

(** The product of two positive normal numbers. *)
Lemma SFmul_normal (mx my : positive) (ex ey : Z) :
  digits mx = 53 -> digits my = 53 ->
  -1074 <= ex + ey + 52 -> ex + ey + 53 < 971 ->
  exists (m' : positive) (e' : Z),
    SFmul prec emax (S754_finite false mx ex) (S754_finite false my ey)
    = S754_finite false m' e'
    /\ digits m' = 53
    /\ ex + ey + 52 <= e' <= ex + ey + 54
    /\ 2 ^ 53 * Z.abs (Z.pos m' * 2 ^ (e' - (ex + ey)) - Z.pos mx * Z.pos my)
       <= Z.pos mx * Z.pos my.
Proof.
  intros Dx Dy Lo Hi.
  pose proof (digits_bounds mx) as [Axl Axu].
  pose proof (digits_bounds my) as [Ayl Ayu].
  rewrite Dx in *. rewrite Dy in *. change (53 - 1) with 52 in *.
  unfold SFmul. cbn [xorb].
  assert (L : 2 ^ (105 - 1) <= Z.pos (mx * my)).
  { rewrite Pos2Z.inj_mul. change (2 ^ (105 - 1)) with (2 ^ 52 * 2 ^ 52).
    nia. }
  assert (U : Z.pos (mx * my) < 2 ^ 106).
  { rewrite Pos2Z.inj_mul. change (2 ^ 106) with (2 ^ 53 * 2 ^ 53). nia. }
  apply pow2_digits_ge in L. apply pow2_digits_le in U.
  destruct (binary_round_aux_relative false (mx * my) (ex + ey))
    as (m' & e' & Hr & Dm & He & Herr & _); try lia.
  exists m', e'. rewrite Pos2Z.inj_mul in Herr.
  repeat (split; auto); lia.
Qed.

(** A finite number above the subnormal range has 53 digits. *)
Lemma Prim2SF_normal (x : float) (s : bool) (m : positive) (e : Z) :
  Prim2SF x = S754_finite s m e -> -1074 < e ->
  digits m = 53 /\ e <= 971.
Proof.
  intros E He. pose proof (Prim2SF_valid x) as V. rewrite E in V.
  unfold valid_binary, bounded, canonical_mantissa in V.
  apply andb_true_iff in V as [C B].
  apply Z.eqb_eq in C. apply Z.leb_le in B.
  unfold fexp, SpecFloat.emin, prec, emax in *. lia.
Qed.

(** The binary64 number of a positive integer below 2^53. *)
Lemma f64_normal (z : Z) :
  0 < z < 2 ^ 53 ->
  exists (m : positive) (e : Z),
    Prim2SF (Sample.f64 z) = S754_finite false m e
    /\ digits m = 53
    /\ -52 <= e <= 0
    /\ Z.pos m = z * 2 ^ (- e).
Proof.
  intros [Hl Hu]. unfold Sample.f64.
  replace (z <? 0) with false by (symmetry; apply Z.ltb_ge; lia).
  rewrite of_uint63_spec, Uint63.of_Z_spec.
  rewrite Z.mod_small
    by (split; [lia|]; apply Z.lt_trans with (2 ^ 53); [lia|reflexivity]).
  destruct z as [|p|p]; try lia. cbn [binary_normalize].
  pose proof (digits_bounds p) as [Bl Bu].
  assert (Hd : digits p <= 53) by (apply pow2_digits_le; lia).
  destruct (Z.eq_dec (digits p) 53) as [E|N].
  - rewrite binary_round_large by lia.
    destruct (binary_round_aux_spec false p 0)
      as (m' & e' & Hr & Dm & He & _ & Hexact); try lia.
    rewrite E in *. change (53 - 53) with 0 in *.
    rewrite Z.pow_0_r, Z.mod_1_r in Hexact. specialize (Hexact eq_refl).
    assert (e' = 0).
    { destruct (Z.eq_dec e' 0) as [|Hne]; auto.
      assert (e' - 0 = 1) as E1 by lia. rewrite E1 in Hexact.
      pose proof (digits_bounds m') as [Cl Cu]. rewrite Dm in *.
      change (53 - 1) with 52 in *.
      change (2 ^ 53) with (2 * 2 ^ 52) in *. lia. }
    subst e'. exists m', 0. rewrite Hr. repeat split; auto; try lia.
  - destruct (binary_round_small false p 0) as (m' & Hr & Dm & Hm);
      try lia.
    exists m', (0 + (digits p - 53)). rewrite Hr.
    repeat split; auto; try lia.
    rewrite Hm. f_equal. f_equal. lia.
Qed.

Lemma f64_zero : Prim2SF (Sample.f64 0) = S754_zero false.
Proof. reflexivity. Qed.

(** Binary64 adds non-negative integers exactly while the sum stays below
    2^53. *)
Lemma f64_add (a b : Z) :
  0 <= a -> 0 <= b -> a + b < 2 ^ 53 ->
  PrimFloat.add (Sample.f64 a) (Sample.f64 b) = Sample.f64 (a + b).
Proof.
  intros Ha Hb Hs. apply Prim2SF_inj. rewrite FloatAxioms.add_spec.
  destruct (Z.eq_dec a 0) as [->|Na].
  { rewrite f64_zero. simpl (0 + b). unfold SF64add, SFadd.
    destruct (Z.eq_dec b 0) as [->|Nb]; [reflexivity|].
    destruct (f64_normal b) as (m & e & -> & _); [lia|reflexivity]. }
  destruct (Z.eq_dec b 0) as [->|Nb].
  { rewrite f64_zero. rewrite Z.add_0_r. unfold SF64add, SFadd.
    destruct (f64_normal a) as (m & e & -> & _); [lia|reflexivity]. }
  destruct (f64_normal a) as (ma & ea & Ea & Da & Ra & Va); [lia|].
  destruct (f64_normal b) as (mb & eb & Eb & Db & Rb & Vb); [lia|].
  destruct (f64_normal (a + b)) as (mc & ec & Ec & Dc & Rc & Vc); [lia|].
  rewrite Ea, Eb, Ec. unfold SF64add.
  destruct (SFadd_normal ma mb ea eb Da Db)
    as (m' & e' & Hr & Dm & He & _ & Hexact); try lia.
  rewrite Hr. cbv zeta in Hexact.
  set (ez := Z.min ea eb) in *.
  assert (Pz : 0 < 2 ^ (- ez)) by (apply Z.pow_pos_nonneg; unfold ez; lia).
  assert (HM : Z.pos ma * 2 ^ (ea - ez) + Z.pos mb * 2 ^ (eb - ez)
               = (a + b) * 2 ^ (- ez)).
  { rewrite Va, Vb. rewrite <- !Z.mul_assoc, <- !Z.pow_add_r
      by (unfold ez; lia).
    replace (- ea + (ea - ez)) with (- ez) by lia.
    replace (- eb + (eb - ez)) with (- ez) by lia. ring. }
  rewrite HM in Hexact.
  specialize (Hexact (- ez)).
  assert (Hval : Z.pos m' * 2 ^ (e' - ez) = (a + b) * 2 ^ (- ez)).
  { apply Hexact.
    - unfold ez; lia.
    - rewrite Z.pow_add_r by (unfold ez; lia). nia.
    - apply Z.mod_mul. lia. }
  assert (Hec : ea <= ec).
  { pose proof (digits_bounds ma) as [Al Au].
    pose proof (digits_bounds mc) as [Cl Cu].
    rewrite Da, Dc in *. change (53 - 1) with 52 in *.
    change (2 ^ 53) with (2 * 2 ^ 52) in *.
    destruct (Z.leb_spec ea ec) as [|L]; auto. exfalso.
    assert (2 * 2 ^ (- ea) <= 2 ^ (- ec)).
    { rewrite <- Z.pow_succ_r by lia. apply Z.pow_le_mono_r; lia. }
    assert (Pa : 0 < 2 ^ (- ea)) by (apply Z.pow_pos_nonneg; lia).
    assert (Z.pos ma * 2 <= Z.pos mc); [|lia].
    rewrite Va, Vc. rewrite <- Z.mul_assoc.
    apply Z.mul_le_mono_nonneg; lia. }
  assert (Hez : ez <= ec) by (unfold ez; lia).
  destruct (normal_unique m' mc (e' - ez) (ec - ez)) as [-> E2]; auto;
    try lia.
  - rewrite Hval, Vc. rewrite <- Z.mul_assoc, <- Z.pow_add_r by lia.
    f_equal. f_equal. lia.
  - f_equal. lia.
Qed.

(** *** Values *)

Lemma nonnegNormal_weaken lo hi lo' hi' x :
  lo' <= lo -> hi <= hi' -> nonnegNormal lo hi x -> nonnegNormal lo' hi' x.
Proof.
  intros Hl Hh [->|(m & e & -> & D & R)]; [now left|right].
  exists m, e. repeat split; auto; lia.
Qed.

Lemma SF2Q_nonneg lo hi x : nonnegNormal lo hi x -> (0 <= SF2Q x)%Q.
Proof.
  intros [->|(m & e & -> & _)]; simpl; [apply Qle_refl|].
  assert (0 < 2 ^ e)%Q by (apply Qpower_0_lt; reflexivity).
  assert (0 < inject_Z (Z.pos m))%Q by reflexivity.
  nra.
Qed.

(** From the bound on the mantissas to the bound on the values. *)
Lemma relative_bound (V M e e' : Z) (m' : positive) :
  (e <= e')%Z ->
  V = Z.pos m' * 2 ^ (e' - e) ->
  2 ^ 53 * Z.abs (V - M) <= M ->
  let X := (inject_Z M * 2 ^ e)%Q in
  let v := (inject_Z (Z.pos m') * 2 ^ e')%Q in
  ((1 - unitRoundoff) * X <= v /\ v <= (1 + unitRoundoff) * X)%Q.
Proof.
  intros He HV Hb X v.
  assert (Pz : (0 < 2 ^ e)%Q) by (apply Qpower_0_lt; reflexivity).
  assert (Ev : (v == inject_Z V * 2 ^ e)%Q).
  { unfold v. rewrite HV, inject_Z_mult.
    rewrite Zpower_Qpower by lia.
    replace e' with ((e' - e) + e)%Z at 1 by lia.
    rewrite Qpower_plus by discriminate.
    change (inject_Z 2) with 2%Q. ring. }
  assert (H1 : (inject_Z (2 ^ 53 * (V + - M)) <= inject_Z M)%Q)
    by (rewrite <- Zle_Qle; lia).
  assert (H2 : (inject_Z (- M) <= inject_Z (2 ^ 53 * (V + - M)))%Q)
    by (rewrite <- Zle_Qle; lia).
  rewrite inject_Z_mult, inject_Z_plus, !inject_Z_opp in H1, H2.
  change (inject_Z (2 ^ 53)) with (9007199254740992 # 1)%Q in *.
  unfold X. rewrite Ev. unfold unitRoundoff.
  set (a := inject_Z V) in *. set (b := inject_Z M) in *.
  set (z := (2 ^ e)%Q) in *. clearbody a b z.
  split; nra.
Qed.

Local Abbreviation u := unitRoundoff.

(** The product of two numbers that are 0 or positive and normal is
    rounded once. *)
Lemma mul_value (lo1 hi1 lo2 hi2 : Z) (x y : float) :
  nonnegNormal lo1 hi1 (Prim2SF x) ->
  nonnegNormal lo2 hi2 (Prim2SF y) ->
  -1074 <= lo1 + lo2 + 52 -> hi1 + hi2 + 53 < 971 ->
  nonnegNormal (lo1 + lo2 + 52) (hi1 + hi2 + 54)
    (Prim2SF (PrimFloat.mul x y))
  /\ ((1 - u) * (valueOf x * valueOf y) <= valueOf (PrimFloat.mul x y)
      /\ valueOf (PrimFloat.mul x y) <= (1 + u) * (valueOf x * valueOf y))%Q.
Proof.
  unfold valueOf. rewrite FloatAxioms.mul_spec. unfold SF64mul.
  intros [->|(mx & ex & -> & Dx & Rx)] [->|(my & ey & -> & Dy & Ry)] Lo Hi.
  - split; [now left|]. simpl. unfold u, unitRoundoff. split; lra.
  - split; [now left|]. cbn [SFmul xorb SF2Q]. unfold u, unitRoundoff.
    split; lra.
  - split; [now left|]. cbn [SFmul xorb SF2Q]. unfold u, unitRoundoff.
    split; lra.
  - destruct (SFmul_normal mx my ex ey Dx Dy) as (m' & e' & -> & Dm & He & Hb);
      try lia.
    split; [right; exists m', e'; repeat split; auto; lia|].
    cbn [SF2Q].
    pose proof (relative_bound _ (Z.pos mx * Z.pos my) (ex + ey) e' m'
                  ltac:(lia) eq_refl Hb) as B.
    cbv zeta in B. rewrite inject_Z_mult, Qpower_plus in B by discriminate.
    destruct B as [B1 B2].
    set (a := inject_Z (Z.pos mx)) in *. set (b := inject_Z (Z.pos my)) in *.
    set (p := (2 ^ ex)%Q) in *. set (q := (2 ^ ey)%Q) in *.
    set (v := (inject_Z (Z.pos m') * 2 ^ e')%Q) in *.
    clearbody a b p q v. unfold u, unitRoundoff in *. split; lra.
Qed.

(** And so is their sum. *)
Lemma add_value (lo hi : Z) (x y : float) :
  nonnegNormal lo hi (Prim2SF x) ->
  nonnegNormal lo hi (Prim2SF y) ->
  -1074 <= lo -> hi < 969 ->
  nonnegNormal lo (hi + 2) (Prim2SF (PrimFloat.add x y))
  /\ ((1 - u) * (valueOf x + valueOf y) <= valueOf (PrimFloat.add x y)
      /\ valueOf (PrimFloat.add x y) <= (1 + u) * (valueOf x + valueOf y))%Q.
Proof.
  unfold valueOf. rewrite FloatAxioms.add_spec. unfold SF64add.
  intros Hx Hy Lo Hi.
  pose proof (SF2Q_nonneg _ _ _ Hx) as Px.
  pose proof (SF2Q_nonneg _ _ _ Hy) as Py.
  destruct Hx as [Ex|(mx & ex & Ex & Dx & Rx)];
    destruct Hy as [Ey|(my & ey & Ey & Dy & Ry)]; rewrite Ex, Ey in *.
  - split; [now left|]. simpl. unfold u, unitRoundoff. split; lra.
  - split; [right; exists my, ey; repeat split; auto; lia|].
    cbn [SFadd]. cbn [SF2Q] in *. unfold u, unitRoundoff.
    set (v := (inject_Z (Z.pos my) * 2 ^ ey)%Q) in *. clearbody v.
    split; lra.
  - split; [right; exists mx, ex; repeat split; auto; lia|].
    cbn [SFadd]. cbn [SF2Q] in *. unfold u, unitRoundoff.
    set (v := (inject_Z (Z.pos mx) * 2 ^ ex)%Q) in *. clearbody v.
    split; lra.
  - destruct (SFadd_normal mx my ex ey Dx Dy)
      as (m' & e' & -> & Dm & He & Hb & _); try lia.
    split; [right; exists m', e'; repeat split; auto; lia|].
    cbn [SF2Q]. cbv zeta in Hb.
    set (ez := Z.min ex ey) in *.
    pose proof (relative_bound _ _ ez e' m' ltac:(unfold ez; lia) eq_refl Hb)
      as B.
    cbv zeta in B.
    rewrite inject_Z_plus, !inject_Z_mult in B.
    rewrite !Zpower_Qpower in B by (unfold ez; lia).
    change (inject_Z 2) with 2%Q in B.
    assert (E1 : (2 ^ (ex - ez) * 2 ^ ez == 2 ^ ex)%Q).
    { rewrite <- Qpower_plus by discriminate.
      now replace (ex - ez + ez)%Z with ex by lia. }
    assert (E2 : (2 ^ (ey - ez) * 2 ^ ez == 2 ^ ey)%Q).
    { rewrite <- Qpower_plus by discriminate.
      now replace (ey - ez + ez)%Z with ey by lia. }
    destruct B as [B1 B2].
    set (a := inject_Z (Z.pos mx)) in *. set (b := inject_Z (Z.pos my)) in *.
    set (p := (2 ^ ex)%Q) in *. set (q := (2 ^ ey)%Q) in *.
    set (p' := (2 ^ (ex - ez))%Q) in *. set (q' := (2 ^ (ey - ez))%Q) in *.
    set (z := (2 ^ ez)%Q) in *.
    set (v := (inject_Z (Z.pos m') * 2 ^ e')%Q) in *.
    clearbody a b p q p' q' z v. unfold u, unitRoundoff in *.
    assert (Ea : (a * p == a * p' * z)%Q) by (rewrite <- E1; ring).
    assert (Eb : (b * q == b * q' * z)%Q) by (rewrite <- E2; ring).
    split; lra.
Qed.

(** A number between 2^-1000 and 2^1000 is positive and normal. *)
Lemma between_normal (T : float) :
  PrimFloat.leb 0x1p-1000%float T = true ->
  PrimFloat.leb T 0x1p1000%float = true ->
  nonnegNormal (-1052) 948 (Prim2SF T).
Proof.
  rewrite !FloatAxioms.leb_spec.
  change (Prim2SF 0x1p-1000%float)
    with (S754_finite false 4503599627370496 (-1052)).
  change (Prim2SF 0x1p1000%float)
    with (S754_finite false 4503599627370496 948).
  intros Hl Hu. right.
  destruct (Prim2SF T) as [s|s| |s m e] eqn:E; try discriminate.
  - destruct s; discriminate.
  - unfold SFleb, SFcompare in Hl, Hu.
    destruct s; [discriminate|].
    assert (-1052 <= e)
      by (destruct (Z.compare_spec (-1052) e); [lia|lia|discriminate]).
    assert (e <= 948)
      by (destruct (Z.compare_spec e 948); [lia|lia|discriminate]).
    destruct (Prim2SF_normal T false m e E) as [D _]; [lia|].
    exists m, e. auto.
Qed.

Lemma shares_checked :
  forallb shareChecked (map Z.of_nat (seq 0 101)) = true.
Proof. vm_compute. reflexivity. Qed.

Lemma share_value (s : Z) :
  0 <= s <= 100 ->
  nonnegNormal (-59) (-52) (Prim2SF (PrimFloat.div (Sample.f64 s) 100))
  /\ ((1 - u) * (s # 100) <= valueOf (PrimFloat.div (Sample.f64 s) 100)
      /\ valueOf (PrimFloat.div (Sample.f64 s) 100) <= (1 + u) * (s # 100))%Q.
Proof.
  intros Hs.
  assert (C : shareChecked s = true).
  { pose proof shares_checked as F. rewrite forallb_forall in F.
    apply F. apply in_map_iff. exists (Z.to_nat s).
    split; [lia|]. apply in_seq. lia. }
  unfold shareChecked in C. unfold valueOf.
  destruct (Prim2SF (PrimFloat.div (Sample.f64 s) 100)) as [[|]| | |[|] m e];
    try discriminate.
  - apply Z.eqb_eq in C. subst s. split; [now left|].
    simpl. unfold u, unitRoundoff. split; lra.
  - rewrite !andb_true_iff in C.
    destruct C as ((((D & L) & U) & Q1) & Q2).
    apply Z.eqb_eq in D. apply Z.leb_le in L, U.
    apply Qle_bool_iff in Q1, Q2.
    split; [right; exists m, e; auto|].
    cbn [SF2Q]. split; [rewrite Qmult_1_l | rewrite Qmult_1_l]; assumption.
Qed.

(** The three amounts of a revenue total [T], for whole percentages that
    add up to 100: their binary64 sum is within [5 * unitRoundoff] of [T],
    relative to [T]. *)
Lemma split_value (T : float) (a h t : Z) :
  0 <= a -> 0 <= h -> 0 <= t -> a + h + t = 100 ->
  nonnegNormal (-1052) 948 (Prim2SF T) ->
  let amount s := PrimFloat.mul T (PrimFloat.div (Sample.f64 s) 100) in
  let sum := PrimFloat.add (PrimFloat.add (amount a) (amount h)) (amount t) in
  isFinite sum = true
  /\ (Qabs (valueOf sum - valueOf T) <= 5 * u * valueOf T)%Q.
Proof.
  intros Ha Hh Ht Hsum HT amount sum.
  pose proof (SF2Q_nonneg _ _ _ HT) as PT. fold (valueOf T) in PT.
  destruct (share_value a ltac:(lia)) as (Na & La & Ua).
  destruct (share_value h ltac:(lia)) as (Nh & Lh & Uh).
  destruct (share_value t ltac:(lia)) as (Nt & Lt' & Ut).
  destruct (mul_value _ _ _ _ T _ HT Na ltac:(lia) ltac:(lia))
    as (Pa & Lpa & Upa).
  destruct (mul_value _ _ _ _ T _ HT Nh ltac:(lia) ltac:(lia))
    as (Ph & Lph & Uph).
  destruct (mul_value _ _ _ _ T _ HT Nt ltac:(lia) ltac:(lia))
    as (Pt & Lpt & Upt).
  fold (amount a) in Pa, Lpa, Upa. fold (amount h) in Ph, Lph, Uph.
  fold (amount t) in Pt, Lpt, Upt.
  change (-1052 + -59 + 52) with (-1059) in *.
  change (948 + -52 + 54) with 950 in *.
  destruct (add_value (-1059) 950 (amount a) (amount h) Pa Ph
              ltac:(lia) ltac:(lia)) as (P1 & L1 & U1).
  change (950 + 2) with 952 in P1.
  assert (Pt' : nonnegNormal (-1059) 952 (Prim2SF (amount t)))
    by (apply (nonnegNormal_weaken (-1059) 950); [lia | lia | exact Pt]).
  destruct (add_value (-1059) 952 _ (amount t) P1 Pt'
              ltac:(lia) ltac:(lia)) as (P2 & L2 & U2).
  fold sum in P2, L2, U2.
  split.
  { unfold isFinite.
    destruct P2 as [->|(m & e & -> & _)]; reflexivity. }
  clear P2.
  assert (Hone : ((a # 100) + (h # 100) + (t # 100) == 1)%Q)
    by (unfold Qeq, Qplus; cbn [Qnum Qden]; rewrite !Pos2Z.inj_mul; lia).
  assert (Qa : (0 <= a # 100)%Q) by (unfold Qle; cbn [Qnum Qden]; lia).
  assert (Qh : (0 <= h # 100)%Q) by (unfold Qle; cbn [Qnum Qden]; lia).
  assert (Qt : (0 <= t # 100)%Q) by (unfold Qle; cbn [Qnum Qden]; lia).
  set (ca := valueOf (PrimFloat.div (Sample.f64 a) 100)) in *.
  set (ch := valueOf (PrimFloat.div (Sample.f64 h) 100)) in *.
  set (ct := valueOf (PrimFloat.div (Sample.f64 t) 100)) in *.
  set (pa := valueOf (amount a)) in *. set (ph := valueOf (amount h)) in *.
  set (pt := valueOf (amount t)) in *.
  set (s1 := valueOf (PrimFloat.add (amount a) (amount h))) in *.
  set (s2 := valueOf sum) in *. set (x := valueOf T) in *.
  set (qa := (a # 100)%Q) in *. set (qh := (h # 100)%Q) in *.
  set (qt := (t # 100)%Q) in *.
  clearbody ca ch ct pa ph pt s1 s2 x qa qh qt.
  unfold u, unitRoundoff in *.
  assert (Xa : ((1 - (1 # 9007199254740992)) * qa * x <= x * ca
                /\ x * ca <= (1 + (1 # 9007199254740992)) * qa * x)%Q)
    by (split; nra).
  assert (Xh : ((1 - (1 # 9007199254740992)) * qh * x <= x * ch
                /\ x * ch <= (1 + (1 # 9007199254740992)) * qh * x)%Q)
    by (split; nra).
  assert (Xt : ((1 - (1 # 9007199254740992)) * qt * x <= x * ct
                /\ x * ct <= (1 + (1 # 9007199254740992)) * qt * x)%Q)
    by (split; nra).
  assert (Xone : (qa * x + qh * x + qt * x == x)%Q)
    by (rewrite <- !Qmult_plus_distr_l, Hone; ring).
  assert (Ya : (0 <= qa * x)%Q) by nra.
  assert (Yh : (0 <= qh * x)%Q) by nra.
  assert (Yt : (0 <= qt * x)%Q) by nra.
  set (xa := (qa * x)%Q) in *. set (xh := (qh * x)%Q) in *.
  set (xt := (qt * x)%Q) in *.
  set (ya := (x * ca)%Q) in *. set (yh := (x * ch)%Q) in *.
  set (yt := (x * ct)%Q) in *.
  destruct Xa as [Xa1 Xa2], Xh as [Xh1 Xh2], Xt as [Xt1 Xt2].
  assert (Xa1' : ((1 - (1 # 9007199254740992)) * xa <= ya)%Q)
    by (unfold xa; rewrite Qmult_assoc; exact Xa1).
  assert (Xa2' : (ya <= (1 + (1 # 9007199254740992)) * xa)%Q)
    by (unfold xa; rewrite Qmult_assoc; exact Xa2).
  assert (Xh1' : ((1 - (1 # 9007199254740992)) * xh <= yh)%Q)
    by (unfold xh; rewrite Qmult_assoc; exact Xh1).
  assert (Xh2' : (yh <= (1 + (1 # 9007199254740992)) * xh)%Q)
    by (unfold xh; rewrite Qmult_assoc; exact Xh2).
  assert (Xt1' : ((1 - (1 # 9007199254740992)) * xt <= yt)%Q)
    by (unfold xt; rewrite Qmult_assoc; exact Xt1).
  assert (Xt2' : (yt <= (1 + (1 # 9007199254740992)) * xt)%Q)
    by (unfold xt; rewrite Qmult_assoc; exact Xt2).
  clearbody xa xh xt ya yh yt.
  clear Xa1 Xa2 Xh1 Xh2 Xt1 Xt2 La Ua Lh Uh Lt' Ut.
  apply Qabs_Qle_condition. split; lra.
Qed.

End Binary64Facts.

(** ** The vote tabulation *)

Section ListFacts.
Context {A : Type}.

Lemma setNth_length n (x : A) l : List.length (setNth n x l) = List.length l.
Proof.
  revert n; induction l as [|y l IH]; intros [|n]; simpl; auto.
Qed.

Lemma setNth_map {B : Type} (f : A -> B) n x l :
  setNth n (f x) (map f l) = map f (setNth n x l).
Proof.
  revert n; induction l as [|y l IH]; intros [|n]; simpl; auto.
  now rewrite IH.
Qed.

Lemma nth_setNth_same n (x d : A) l :
  (n < List.length l)%nat -> nth n (setNth n x l) d = x.
Proof.
  revert n; induction l as [|y l IH]; intros [|n]; simpl; intros H;
    try lia; auto.
  apply IH. lia.
Qed.

Lemma nth_setNth_other n m (x d : A) l :
  n <> m -> nth m (setNth n x l) d = nth m l d.
Proof.
  revert n m; induction l as [|y l IH]; intros [|n] [|m]; simpl; intros H;
    auto; congruence.
Qed.

Lemma nth_error_dense n (d : A) l :
  (n < List.length l)%nat ->
  nth_error (map Some l) n = Some (Some (nth n l d)).
Proof.
  intros H. rewrite nth_error_map.
  now rewrite (nth_error_nth' l d H).
Qed.

Lemma fold_left_over_map {B C : Type} (f : C -> B -> C) (g : A -> B) l a :
  fold_left f (map g l) a = fold_left (fun s x => f s (g x)) l a.
Proof. revert a; induction l as [|x l IH]; simpl; auto. Qed.

Lemma fold_left_agree {B : Type} (f g : B -> A -> B) l a :
  (forall x b, In x l -> f b x = g b x) ->
  fold_left f l a = fold_left g l a.
Proof.
  revert a; induction l as [|x l IH]; intros a H; simpl; auto.
  rewrite H by (simpl; auto). apply IH. intros; apply H; simpl; auto.
Qed.

End ListFacts.

Section Tabulation.
Context {num : Type} {N : JsNum num} {RC : RealColumn num}.

Local Abbreviation idx v := (Vote.optionIndex (Vote.data v)).
Local Abbreviation wgt v := (Vote.weight (Vote.data v)).
Local Abbreviation inRange n v := (0 <= idx v < Z.of_nat n).

(** [optionVotes[i] += w] on an array without holes, for [i] within it. *)
Local Abbreviation denseStep :=
  (fun (ys : list num) (v : Vote.t num) =>
     setNth (Z.to_nat (idx v)) (nadd (nth (Z.to_nat (idx v)) ys nzero) (wgt v))
            ys).

Lemma addAt_dense i w (ys : list num) :
  0 <= i < Z.of_nat (List.length ys) ->
  addAt i w (map Some ys)
  = map Some (setNth (Z.to_nat i) (nadd (nth (Z.to_nat i) ys nzero) w) ys).
Proof.
  intros H. unfold addAt. rewrite length_map.
  replace ((0 <=? i) && (i <? Z.of_nat (List.length ys))) with true
    by (symmetry; apply andb_true_iff; split;
        [apply Z.leb_le | apply Z.ltb_lt]; lia).
  rewrite (nth_error_dense _ nzero) by lia.
  apply setNth_map.
Qed.

Lemma dense_length (votes : list (Vote.t num)) ys :
  List.length (fold_left denseStep votes ys) = List.length ys.
Proof.
  revert ys; induction votes as [|v votes IH]; intros ys; simpl; auto.
  now rewrite IH, setNth_length.
Qed.

(** With every option index within the array, the tabulation never makes
    a hole. *)
Lemma fold_addAt_dense (votes : list (Vote.t num)) ys :
  (forall v, In v votes -> inRange (List.length ys) v) ->
  fold_left (fun a v => addAt (idx v) (wgt v) a) votes (map Some ys)
  = map Some (fold_left denseStep votes ys).
Proof.
  revert ys; induction votes as [|v votes IH]; intros ys H; simpl; auto.
  rewrite addAt_dense by (apply H; simpl; auto).
  apply IH. intros v' Hin. rewrite setNth_length. apply H. simpl; auto.
Qed.

(** Slot [i] accumulates, in the order of the votes, the weights of the
    votes for option [i]. *)
Lemma dense_slot (votes : list (Vote.t num)) ys i :
  (forall v, In v votes -> inRange (List.length ys) v) ->
  nth i (fold_left denseStep votes ys) nzero
  = fold_left (fun s v => nadd s (wgt v))
      (filter (fun v => idx v =? Z.of_nat i) votes) (nth i ys nzero).
Proof.
  revert ys; induction votes as [|v votes IH]; intros ys H; simpl; auto.
  assert (Hv : inRange (List.length ys) v) by (apply H; simpl; auto).
  rewrite IH
    by (intros v' Hin; rewrite setNth_length; apply H; simpl; auto).
  destruct (Z.eqb_spec (idx v) (Z.of_nat i)) as [E|E]; simpl.
  - rewrite E, Nat2Z.id. rewrite nth_setNth_same by lia. reflexivity.
  - rewrite nth_setNth_other by lia. reflexivity.
Qed.

Lemma reduceSum_dense (ys : list num) :
  reduceSum (map Some ys) = fold_left nadd ys nzero.
Proof.
  unfold reduceSum.
  exact (fold_left_over_map
           (fun acc slot => match slot with
                            | Some b => nadd acc b
                            | None => acc
                            end) Some ys nzero).
Qed.

(** Summing the slots by index is summing the array. *)
Lemma sum_by_index (ys : list num) a :
  fold_left (fun s i => nadd s (nth i ys nzero)) (seq 0 (List.length ys)) a
  = fold_left nadd ys a.
Proof.
  revert a; induction ys as [|y ys IH]; intros a; simpl; auto.
  rewrite <- seq_shift, fold_left_over_map. simpl. apply IH.
Qed.

Section Exact.
Context {E : ExactAdd N}.

Lemma nadd_zero_r (a : num) : nadd a nzero = a.
Proof. rewrite nadd_comm. apply nadd_zero_l. Qed.

Lemma fold_nadd_shift (l : list num) a w :
  fold_left nadd l (nadd a w) = nadd (fold_left nadd l a) w.
Proof.
  revert a; induction l as [|x l IH]; intros a; simpl; auto.
  rewrite <- IH. f_equal.
  rewrite <- !nadd_assoc. f_equal. apply nadd_comm.
Qed.

(** Adding [w] to one slot adds [w] to the sum of the array. *)
Lemma fold_nadd_setNth (l : list num) n a w :
  (n < List.length l)%nat ->
  fold_left nadd (setNth n (nadd (nth n l nzero) w) l) a
  = nadd (fold_left nadd l a) w.
Proof.
  revert n a; induction l as [|x l IH]; intros [|n] a H; simpl in *;
    try lia.
  - rewrite nadd_assoc. apply fold_nadd_shift.
  - apply IH. lia.
Qed.

Lemma fold_nadd_zeros n : fold_left nadd (repeat nzero n) nzero = nzero.
Proof.
  induction n as [|n IH]; simpl; auto. now rewrite nadd_zero_r.
Qed.

Lemma dense_total (votes : list (Vote.t num)) ys :
  (forall v, In v votes -> inRange (List.length ys) v) ->
  fold_left nadd (fold_left denseStep votes ys) nzero
  = fold_left (fun s v => nadd s (wgt v)) votes (fold_left nadd ys nzero).
Proof.
  revert ys; induction votes as [|v votes IH]; intros ys H; simpl; auto.
  assert (Hv : inRange (List.length ys) v) by (apply H; simpl; auto).
  rewrite IH
    by (intros v' Hin; rewrite setNth_length; apply H; simpl; auto).
  rewrite fold_nadd_setNth by lia. reflexivity.
Qed.

End Exact.

(** *** Weights that are integers *)

Section IntegerWeights.
Context (ofZ : Z -> num) (bound : Z) (HZ : addsIntegers ofZ bound).
Context (w : Vote.t num -> Z).

Local Abbreviation integral votes :=
  (forall v : Vote.t num, In v votes -> 0 <= w v /\ wgt v = ofZ (w v)).

Lemma sumZ_nonneg {A : Type} (f : A -> Z) (l : list A) :
  (forall x, In x l -> 0 <= f x) -> 0 <= sumZ f l.
Proof.
  induction l as [|x l IH]; simpl; intros H; [lia|].
  assert (0 <= f x) by (apply H; simpl; auto).
  assert (0 <= sumZ f l) by (apply IH; intros; apply H; simpl; auto).
  lia.
Qed.

Lemma fold_nadd_integers (zs : list Z) (acc : Z) :
  0 <= acc -> (forall z, In z zs -> 0 <= z) ->
  acc + sumZ (fun z => z) zs <= bound ->
  fold_left nadd (map ofZ zs) (ofZ acc) = ofZ (acc + sumZ (fun z => z) zs).
Proof.
  revert acc; induction zs as [|z zs IH]; intros acc Ha Hz Hb; simpl in *.
  - f_equal. lia.
  - assert (0 <= z) by (apply Hz; auto).
    assert (0 <= sumZ (fun z => z) zs)
      by (apply sumZ_nonneg; intros; apply Hz; auto).
    rewrite (proj2 HZ) by lia.
    rewrite IH by (try lia; intros; apply Hz; auto). f_equal. lia.
Qed.

Lemma fold_weights_integers (votes : list (Vote.t num)) (acc : Z) :
  integral votes -> 0 <= acc -> acc + sumZ w votes <= bound ->
  fold_left (fun s v => nadd s (wgt v)) votes (ofZ acc)
  = ofZ (acc + sumZ w votes).
Proof.
  revert acc; induction votes as [|v votes IH]; intros acc Hw Ha Hb;
    simpl in *.
  - f_equal. lia.
  - destruct (Hw v) as [Hv ->]; auto.
    assert (0 <= sumZ w votes)
      by (apply sumZ_nonneg; intros; apply Hw; auto).
    rewrite (proj2 HZ) by lia.
    rewrite IH by (try lia; intros; apply Hw; auto). f_equal. lia.
Qed.

Lemma sumZ_setNth (zs : list Z) (i : nat) (x : Z) :
  (i < List.length zs)%nat ->
  sumZ (fun z => z) (setNth i (nth i zs 0 + x) zs)
  = sumZ (fun z => z) zs + x.
Proof.
  revert i; induction zs as [|z zs IH]; intros [|i] H; simpl in *; try lia.
  rewrite IH by lia. lia.
Qed.

Lemma nth_le_sumZ (zs : list Z) (i : nat) :
  (forall z, In z zs -> 0 <= z) -> 0 <= nth i zs 0 <= sumZ (fun z => z) zs.
Proof.
  revert i; induction zs as [|z zs IH]; intros [|i] H; simpl; try lia.
  - assert (0 <= z) by (apply H; simpl; auto).
    assert (0 <= sumZ (fun z => z) zs)
      by (apply sumZ_nonneg; intros; apply H; simpl; auto).
    lia.
  - assert (0 <= z) by (apply H; simpl; auto).
    assert (0 <= nth i zs 0 <= sumZ (fun z => z) zs)
      by (apply IH; intros; apply H; simpl; auto).
    lia.
Qed.

Lemma in_setNth {A : Type} (i : nat) (x y : A) (l : list A) :
  In y (setNth i x l) -> y = x \/ In y l.
Proof.
  revert i; induction l as [|z l IH]; intros [|i]; simpl; auto.
  - intros [<-|H]; auto.
  - intros [<-|H]; auto. destruct (IH i H); auto.
Qed.

(** The tabulation keeps integers in the slots, and adds the integer of
    each vote to one of them. *)
Lemma dense_integers (votes : list (Vote.t num)) (zs : list Z) :
  (forall v, In v votes -> inRange (List.length zs) v) ->
  integral votes ->
  (forall z, In z zs -> 0 <= z) ->
  sumZ (fun z => z) zs + sumZ w votes <= bound ->
  exists zs',
    fold_left denseStep votes (map ofZ zs) = map ofZ zs'
    /\ (forall z, In z zs' -> 0 <= z)
    /\ sumZ (fun z => z) zs' = sumZ (fun z => z) zs + sumZ w votes.
Proof.
  revert zs; induction votes as [|v votes IH]; intros zs Hr Hw Hz Hb;
    simpl in *.
  - exists zs. repeat split; auto. lia.
  - destruct (Hw v) as [Hv Ev]; auto.
    assert (Hi : inRange (List.length zs) v) by (apply Hr; auto).
    assert (Hs : 0 <= sumZ w votes)
      by (apply sumZ_nonneg; intros; apply Hw; auto).
    pose proof (nth_le_sumZ zs (Z.to_nat (idx v)) Hz) as Hn.
    assert (Hnth : nth (Z.to_nat (idx v)) (map ofZ zs) nzero
                   = ofZ (nth (Z.to_nat (idx v)) zs 0))
      by (rewrite <- (proj1 HZ); apply map_nth).
    rewrite Hnth, Ev, (proj2 HZ) by lia.
    rewrite setNth_map.
    destruct (IH (setNth (Z.to_nat (idx v))
                    (nth (Z.to_nat (idx v)) zs 0 + w v) zs))
      as (zs' & E & Hz' & Hsum).
    + intros v' Hv'. rewrite setNth_length. apply Hr. auto.
    + intros v' Hv'. apply Hw. auto.
    + intros z Hin. apply in_setNth in Hin as [->|Hin]; [lia|auto].
    + rewrite sumZ_setNth by lia. lia.
    + exists zs'. split; [exact E|]. split; [exact Hz'|].
      rewrite Hsum, sumZ_setNth by lia. lia.
Qed.

(** With integer weights whose sum the numbers hold, the total of the
    tabulation is the sum of the weights. *)
Lemma dense_total_integers (votes : list (Vote.t num)) (n : nat) :
  (forall v, In v votes -> inRange n v) ->
  integral votes ->
  sumZ w votes <= bound ->
  fold_left nadd (fold_left denseStep votes (repeat nzero n)) nzero
  = ofZ (sumZ w votes)
  /\ fold_left (fun s v => nadd s (wgt v)) votes nzero = ofZ (sumZ w votes).
Proof.
  intros Hr Hw Hb.
  assert (Hs : 0 <= sumZ w votes)
    by (apply sumZ_nonneg; intros; apply Hw; auto).
  assert (Ez : forall k, sumZ (fun z => z) (repeat 0 k) = 0)
    by (intros k; induction k as [|k IH]; simpl; lia).
  specialize (Ez n). split.
  - replace (repeat nzero n) with (map ofZ (repeat 0 n))
      by (rewrite <- (proj1 HZ); apply map_repeat).
    destruct (dense_integers votes (repeat 0 n)) as (zs' & -> & Hz' & Hsum).
    + now rewrite repeat_length.
    + exact Hw.
    + intros z Hin. apply repeat_spec in Hin. lia.
    + lia.
    + rewrite <- (proj1 HZ) at 1.
      rewrite fold_nadd_integers by (auto; lia). f_equal. lia.
  - rewrite <- (proj1 HZ) at 1.
    now rewrite fold_weights_integers by (auto; lia).
Qed.

End IntegerWeights.

(** The tabulation of votes that all name an option of the proposal. *)
Lemma tabulate_dense (proposal : Proposal.t) (votes : list (Vote.t num)) :
  let n := List.length (Proposal.options (Proposal.data proposal)) in
  (forall v, In v votes -> inRange n v) ->
  tabulate proposal votes
  = VoteCounts.mk (Proposal.options (Proposal.data proposal))
      (map Some (fold_left denseStep votes (repeat nzero n)))
      (fold_left nadd (fold_left denseStep votes (repeat nzero n)) nzero).
Proof.
  intros n H. unfold tabulate.
  replace (repeat (Some nzero) _) with (map Some (repeat nzero n))
    by apply map_repeat.
  rewrite fold_addAt_dense by (rewrite repeat_length; exact H).
  now rewrite reduceSum_dense.
Qed.

End Tabulation.

(** Exact arithmetic has the laws of [ExactAdd]. *)
#[export] Instance exact_ExactAdd : ExactAdd exact.
Proof.
  split.
  - intros [a|] [b|] [c|]; simpl; auto. f_equal. apply Qcplus_assoc.
  - intros [a|] [b|]; simpl; auto. f_equal. apply Qcplus_comm.
  - intros [a|]; simpl; auto. f_equal. apply Qcplus_0_l.
Qed.

(** ** C6: conservation of weight in the tally *)

(** Binary64 holds the integers from 0 to 2^53 - 1 and adds them without
    rounding. *)
Lemma binary64_adds_integers : addsIntegers Sample.f64 (2 ^ 53 - 1).
Proof.
  split; [reflexivity|]. intros a b Ha Hb Hs.
  apply Binary64Facts.f64_add; lia.
Qed.

(** Without rounding, the total of in-range votes is the sum of their
    weights, whatever numbers these are. *)
Lemma tally_total_without_rounding
  {num : Type} {N : JsNum num} {E : ExactAdd N}
  (proposal : Proposal.t) (votes : list (Vote.t num)) :
  (forall vote,
      In vote votes ->
      0 <= Vote.optionIndex (Vote.data vote)
        < Z.of_nat (List.length (Proposal.options (Proposal.data proposal)))) ->
  VoteCounts.total (tabulate proposal votes)
  = sumOf (fun vote => Vote.weight (Vote.data vote)) votes.
Proof.
  intros H. rewrite (tabulate_dense proposal votes H). simpl.
  rewrite dense_total by (intros v Hv; rewrite repeat_length; auto).
  now rewrite fold_nadd_zeros.
Qed.

(** C6, as the code has it, in the program's arithmetic. For a proposal
    whose stored votes all carry an option index in [0, options.length):
    [counts[i]] is the sum of the weights of the votes for option [i], and
    the sum of [counts] over the options is [total]; when moreover the
    weights are non-negative integers whose sum is below 2^53, [total] is
    the sum of the weights of all the votes stored for the proposal. *)
Theorem tally_conserves_the_weight_of_valid_votes
  (proposal : Proposal.t) (st : MemStorage float) :
  (forall vote,
      In vote (getProposalVotes (Proposal.id proposal) st) ->
      0 <= Vote.optionIndex (Vote.data vote)
        < Z.of_nat (List.length (Proposal.options (Proposal.data proposal)))) ->
  let votes := getProposalVotes (Proposal.id proposal) st in
  let c := proposalVotes proposal st in
  (forall i,
      (i < List.length (Proposal.options (Proposal.data proposal)))%nat ->
      countAt i c
      = Some (sumOf (fun vote => Vote.weight (Vote.data vote))
                (filter (fun vote =>
                           Vote.optionIndex (Vote.data vote) =? Z.of_nat i)
                        votes)))
  /\ sumOverOptions c = VoteCounts.total c
  /\ (forall w : Vote.t float -> Z,
      (forall vote,
          In vote votes ->
          0 <= w vote
          /\ Vote.weight (Vote.data vote) = Sample.f64 (w vote)) ->
      sumZ w votes < 2 ^ 53 ->
      VoteCounts.total c
      = sumOf (fun vote => Vote.weight (Vote.data vote)) votes
      /\ VoteCounts.total c = Sample.f64 (sumZ w votes)).
Proof.
  intros H votes c. subst c votes. unfold proposalVotes.
  set (votes := getProposalVotes (Proposal.id proposal) st) in *.
  set (n := List.length (Proposal.options (Proposal.data proposal))) in *.
  rewrite (tabulate_dense proposal votes H). fold n.
  assert (Hrange : forall v, In v votes ->
            0 <= Vote.optionIndex (Vote.data v)
              < Z.of_nat (List.length (repeat (@nzero float binary64) n)))
    by (intros v Hv; rewrite repeat_length; auto).
  assert (Hlen : List.length
                   (fold_left
                      (fun (ys : list float) (v : Vote.t float) =>
                         setNth (Z.to_nat (Vote.optionIndex (Vote.data v)))
                           (nadd (nth (Z.to_nat (Vote.optionIndex (Vote.data v)))
                                      ys nzero)
                                 (Vote.weight (Vote.data v))) ys)
                      votes (repeat nzero n)) = n)
    by (rewrite dense_length; apply repeat_length).
  split; [|split].
  - intros i Hi. unfold countAt. cbn [VoteCounts.counts].
    rewrite (nth_error_dense _ nzero) by lia.
    rewrite (dense_slot votes _ i Hrange).
    rewrite nth_repeat_lt by exact Hi. reflexivity.
  - unfold sumOverOptions, sumOf, countAt.
    cbn [VoteCounts.counts VoteCounts.total VoteCounts.options]. fold n.
    rewrite <- Hlen at 1.
    rewrite <- sum_by_index.
    apply fold_left_agree.
    intros i a Hi. apply in_seq in Hi.
    rewrite (nth_error_dense _ nzero) by lia. reflexivity.
  - intros w Hw Hsum. cbn [VoteCounts.total]. unfold sumOf.
    assert (Hb : sumZ w votes <= 2 ^ 53 - 1) by lia.
    destruct (dense_total_integers Sample.f64 (2 ^ 53 - 1)
                binary64_adds_integers w votes n H Hw Hb)
      as [Et Es].
    split; [now rewrite Et, Es | exact Et].
Qed.

(** Three votes on proposal 1 of the sample ledger: 250 for option 0, 100
    and 50 for option 1. *)
Lemma tally_witness :
  let st : MemStorage float :=
    exec (CreateVote 23 (Vote.mkInsert 1 5 1 (Sample.f64 50)))
      (exec (CreateVote 22 (Vote.mkInsert 1 4 1 (Sample.f64 100)))
         (exec (CreateVote 21 (Vote.mkInsert 1 3 0 (Sample.f64 250)))
            (Sample.ledger Sample.f64 250))) in
  let proposal := Proposal.mk Sample.albumConcept 1 0 "active" in
  let c := proposalVotes proposal st in
  countAt 1 c
  = Some (sumOf (fun vote => Vote.weight (Vote.data vote))
            (filter (fun vote => Vote.optionIndex (Vote.data vote) =? 1)
                    (getProposalVotes 1 st)))
  /\ sumOverOptions c = VoteCounts.total c
  /\ VoteCounts.total c
     = sumOf (fun vote => Vote.weight (Vote.data vote))
         (getProposalVotes 1 st)
  /\ VoteCounts.total c = Sample.f64 400.
Proof.
  intros st proposal c.
  assert (H : forall vote,
             In vote (getProposalVotes (Proposal.id proposal) st) ->
             0 <= Vote.optionIndex (Vote.data vote)
               < Z.of_nat (List.length
                             (Proposal.options (Proposal.data proposal)))).
  { intros vote Hin. cbn in Hin.
    destruct Hin as [<-|[<-|[<-|[]]]]; cbn; lia. }
  destruct (tally_conserves_the_weight_of_valid_votes proposal st H)
    as (Hslot & Hsum & Htotal).
  set (w := fun vote : Vote.t float =>
              match Vote.id vote with 1 => 250 | 2 => 100 | _ => 50 end).
  destruct (Htotal w) as [Ht Hz].
  - intros vote Hin. cbn in Hin.
    destruct Hin as [<-|[<-|[<-|[]]]]; cbn; split; (lia || reflexivity).
  - cbn. lia.
  - split; [|split; [|split]].
    + apply (Hslot 1%nat). cbn. lia.
    + exact Hsum.
    + exact Ht.
    + exact Hz.
Defined.

(** C6 as stated fails. The vote handler stores votes for option indexes
    outside the options of the proposal (proposal 1 has two options). A
    vote of weight 250 for index 2 makes [total] NaN, and a vote of weight
    250 for index -1 is left out of [total], which stays 0; in both cases
    the weights of the stored votes of the proposal sum to 250. *)
Lemma tally_loses_votes_for_missing_options :
  let proposal := Proposal.mk Sample.albumConcept 1 0 "active" in
  let body i := Sample.voteBody Sample.f64 3 i 250 in
  let st i := snd (postVote 20 1 (body i) (Sample.ledger Sample.f64 250)) in
  let weights i :=
    sumOf (fun vote => Vote.weight (Vote.data vote)) (getProposalVotes 1 (st i)) in
  getProposal 1 (st 2) = Some proposal
  /\ getProposal 1 (st (-1)) = Some proposal
  /\ weights 2 = 250%float
  /\ weights (-1) = 250%float
  /\ VoteCounts.counts (proposalVotes proposal (st 2))
     = [Some 0%float; Some 0%float; Some PrimFloat.nan]
  /\ VoteCounts.total (proposalVotes proposal (st 2)) = PrimFloat.nan
  /\ VoteCounts.total (proposalVotes proposal (st 2)) <> weights 2
  /\ VoteCounts.counts (proposalVotes proposal (st (-1)))
     = [Some 0%float; Some 0%float]
  /\ VoteCounts.total (proposalVotes proposal (st (-1))) = 0%float
  /\ VoteCounts.total (proposalVotes proposal (st (-1))) <> weights (-1).
Proof.
  vm_compute.
  repeat (split; [reflexivity|]).
  split; [|repeat (split; [reflexivity|])].
  - intros H. apply (f_equal PrimFloat.is_nan) in H. vm_compute in H.
    discriminate.
  - intros H. apply (f_equal PrimFloat.is_zero) in H. vm_compute in H.
    discriminate.
Qed.

(** Rounding alone breaks the last equation of C6: with votes of weights
    2^53, 1 and 1 for the options 0, 1 and 1, binary64 gives the total
    2^53 + 2 while the weights, added in the order of the votes, give
    2^53. *)
Lemma tally_total_depends_on_rounding :
  let proposal := Proposal.mk Sample.albumConcept 1 0 "active" in
  let st : MemStorage float :=
    exec (CreateVote 23 (Vote.mkInsert 1 5 1 1%float))
      (exec (CreateVote 22 (Vote.mkInsert 1 4 1 1%float))
         (exec (CreateVote 21
                  (Vote.mkInsert 1 3 0 (Sample.f64 9007199254740992)))
            (Sample.ledger Sample.f64 250))) in
  VoteCounts.total (proposalVotes proposal st)
  = Sample.f64 9007199254740994
  /\ sumOf (fun vote => Vote.weight (Vote.data vote)) (getProposalVotes 1 st)
     = Sample.f64 9007199254740992.
Proof. vm_compute. split; reflexivity. Qed.

(** ** C7: the three-way split *)

Section ExactSplit.

Lemma hundred_nonzero : Q2Qc (inject_Z 100) <> Q2Qc 0.
Proof. intros H. apply (f_equal this) in H. discriminate H. Qed.

(** A share of [a] percent of [T], without rounding. *)
Lemma exact_share (T a : Qc) :
  nmul (XNum T) (ndiv (XNum a) nhundred)
  = XNum (T * (a / Q2Qc (inject_Z 100)))%Qc.
Proof.
  simpl. unfold xofZ, xdiv.
  destruct (Qc_eq_dec (Q2Qc (inject_Z 100)) (Q2Qc 0)) as [E|_];
    [now destruct hundred_nonzero | reflexivity].
Qed.

(** The sum of amounts that are numbers is a number. *)
Lemma exact_total (revenues : list (Revenue.t xnum)) (acc : Qc) :
  (forall r, In r revenues ->
             exists q, Revenue.amount (Revenue.data r) = XNum q) ->
  exists T,
    fold_left (fun sum r => nadd sum (Revenue.amount (Revenue.data r)))
              revenues (XNum acc)
    = XNum T.
Proof.
  revert acc; induction revenues as [|r revenues IH]; intros acc H; simpl.
  - now exists acc.
  - destruct (H r) as [q Hq]; [simpl; auto|]. rewrite Hq. simpl.
    apply IH. intros; apply H; simpl; auto.
Qed.

Lemma split_of_hundred (T a h t : Qc) :
  (a + h + t)%Qc = Q2Qc (inject_Z 100) ->
  (T * (a / Q2Qc (inject_Z 100)) + T * (h / Q2Qc (inject_Z 100))
   + T * (t / Q2Qc (inject_Z 100)))%Qc = T.
Proof.
  intros H. pose proof hundred_nonzero as Hnz. rewrite <- H in *.
  field. exact Hnz.
Qed.

End ExactSplit.

(** C7, as the code has it. Without rounding, for an artist whose three
    shares add up to 100 and revenue amounts that are numbers, the artist
    amount, the token-holder amount and the treasury amount computed by the
    revenue handler add up to the total. In the program's binary64
    arithmetic, for shares that are whole percentages adding up to 100 and
    a total that is 0 or lies between 2^-1000 and 2^1000, the sum of the
    three amounts is a finite number within the rounding tolerance
    5 * 2^-53 * total of the total; and a revenue of 100 with the shares
    60/30/10 gives
    exactly 60 to the artist, 30 to the token holders and 10 to the
    treasury. *)
Theorem three_way_split_adds_up :
  (forall (artist : Artist.t xnum) (revenues : list (Revenue.t xnum)),
      nadd (nadd (Artist.artistShare (Artist.data artist))
                 (Artist.tokenHolderShare (Artist.data artist)))
           (Artist.treasuryShare (Artist.data artist))
      = nhundred ->
      (forall r, In r revenues ->
                 exists q, Revenue.amount (Revenue.data r) = XNum q) ->
      let d := revenueDistribution artist revenues in
      nadd (nadd (Distribution.artistAmount d)
                 (Distribution.tokenHolderAmount d))
           (Distribution.treasuryAmount d)
      = Distribution.totalEarnings d)
  /\ (forall (artist : Artist.t float) (revenues : list (Revenue.t float))
             (a h t : Z),
      Artist.artistShare (Artist.data artist) = Sample.f64 a ->
      Artist.tokenHolderShare (Artist.data artist) = Sample.f64 h ->
      Artist.treasuryShare (Artist.data artist) = Sample.f64 t ->
      0 <= a -> 0 <= h -> 0 <= t -> a + h + t = 100 ->
      let d := revenueDistribution artist revenues in
      let T := Distribution.totalEarnings d in
      T = 0%float
      \/ (PrimFloat.leb 0x1p-1000%float T = true
          /\ PrimFloat.leb T 0x1p1000%float = true) ->
      nadd (nadd (Artist.artistShare (Artist.data artist))
                 (Artist.tokenHolderShare (Artist.data artist)))
           (Artist.treasuryShare (Artist.data artist))
      = nhundred
      /\ isFinite (nadd (nadd (Distribution.artistAmount d)
                              (Distribution.tokenHolderAmount d))
                        (Distribution.treasuryAmount d)) = true
      /\ (Qabs (valueOf (nadd (nadd (Distribution.artistAmount d)
                                    (Distribution.tokenHolderAmount d))
                              (Distribution.treasuryAmount d))
                - valueOf T)
          <= 5 * unitRoundoff * valueOf T)%Q)
  /\ revenueDistribution (Sample.sharing Sample.f64 60 30 10)
       [Sample.revenueOf Sample.f64 100]
     = Distribution.mk 100%float 60%float 30%float 10%float.
Proof.
  split; [|split; [|vm_compute; reflexivity]].
  - intros [[? ? ? ? ? ? ? ? [a|] [h|] [t|] ?] ?] revenues Hsum Hnum;
      try (simpl in Hsum; discriminate Hsum).
    apply (f_equal (fun x => match x with XNum q => q | XNaN => a end))
      in Hsum.
    change ((a + h + t)%Qc = Q2Qc (inject_Z 100)) in Hsum.
    destruct (exact_total revenues (Q2Qc (inject_Z 0)) Hnum) as [T HT].
    unfold revenueDistribution. cbn [Distribution.artistAmount
      Distribution.tokenHolderAmount Distribution.treasuryAmount
      Distribution.totalEarnings Artist.data Artist.artistShare
      Artist.tokenHolderShare Artist.treasuryShare].
    change (@nzero xnum exact) with (XNum (Q2Qc (inject_Z 0))).
    rewrite HT, !exact_share. simpl. f_equal.
    now apply split_of_hundred.
  - intros artist revenues a h t Ea Eh Et Ha Hh Ht Hsum d T HT.
    split.
    + rewrite Ea, Eh, Et.
      change (@nadd float binary64) with PrimFloat.add.
      rewrite !Binary64Facts.f64_add by lia.
      rewrite Hsum. reflexivity.
    + unfold d, revenueDistribution. cbn [Distribution.artistAmount
        Distribution.tokenHolderAmount Distribution.treasuryAmount].
      fold (Distribution.totalEarnings d). fold T.
      rewrite Ea, Eh, Et.
      apply (Binary64Facts.split_value T a h t Ha Hh Ht Hsum).
      destruct HT as [->|[Hl Hu]]; [now left|].
      now apply Binary64Facts.between_normal.
Qed.

(** The input at which the three amounts do not add up exactly: there the
    sum is within the tolerance. *)
Lemma three_way_split_witness :
  let d := revenueDistribution (Sample.sharing Sample.f64 13 67 20)
             [Sample.revenueOf Sample.f64 3] in
  isFinite (nadd (nadd (Distribution.artistAmount d)
                       (Distribution.tokenHolderAmount d))
                 (Distribution.treasuryAmount d)) = true
  /\ (Qabs (valueOf (nadd (nadd (Distribution.artistAmount d)
                             (Distribution.tokenHolderAmount d))
                       (Distribution.treasuryAmount d))
         - valueOf (Distribution.totalEarnings d))
   <= 5 * unitRoundoff * valueOf (Distribution.totalEarnings d))%Q.
Proof.
  intros d.
  apply (proj2 (proj1 (proj2 three_way_split_adds_up)
           (Sample.sharing Sample.f64 13 67 20)
           [Sample.revenueOf Sample.f64 3] 13 67 20
           eq_refl eq_refl eq_refl ltac:(lia) ltac:(lia) ltac:(lia) eq_refl
           (or_intror (conj eq_refl eq_refl)))).
Defined.

(** C7 as stated fails in the program's arithmetic. The shares 13, 67 and
    20 add up to 100; for a revenue of 3 the three amounts are 0.39,
    2.0100000000000002 and 0.6000000000000001, and in whichever order they
    are added the sum is 3.0000000000000004, not 3. *)
Lemma three_way_split_is_rounded :
  let artist := Sample.sharing Sample.f64 13 67 20 in
  let d := revenueDistribution artist [Sample.revenueOf Sample.f64 3] in
  let a := Distribution.artistAmount d in
  let h := Distribution.tokenHolderAmount d in
  let t := Distribution.treasuryAmount d in
  nadd (nadd (Artist.artistShare (Artist.data artist))
             (Artist.tokenHolderShare (Artist.data artist)))
       (Artist.treasuryShare (Artist.data artist))
  = 100%float
  /\ Distribution.totalEarnings d = 3%float
  /\ nadd (nadd a h) t = 0x1.8000000000001p+1%float
  /\ nadd (nadd a t) h = 0x1.8000000000001p+1%float
  /\ nadd (nadd h t) a = 0x1.8000000000001p+1%float
  /\ nadd (nadd a h) t <> Distribution.totalEarnings d.
Proof.
  vm_compute. repeat (split; [reflexivity|]).
  intros H. apply (f_equal (fun x => PrimFloat.eqb x 3)) in H.
  vm_compute in H. discriminate.
Qed.

(** ** C8: creating a proposal *)

(** C8, as the code has it. [MemStorage.createProposal] never fails: it
    stores whatever proposal data it is given, under the next proposal id,
    with status "active" and the current time as start date. POST
    /api/proposals adds no check of the options or of the end date to
    that: it answers 400 and stores nothing when the insert schema rejects
    the body, which the schema does whenever [endDate] is no [Date]
    object, so for every body that was parsed from JSON; a body that the
    schema accepts is handed to [createProposal] as it was parsed. *)
Theorem proposal_is_stored_without_validation
  {num : Type} (now : Z) (st : MemStorage num) :
  (forall data,
      exists proposal st',
        createProposal now data st = (proposal, st')
        /\ Proposal.data proposal = data
        /\ Proposal.status proposal = "active"%string
        /\ Proposal.startDate proposal = now
        /\ Proposal.id proposal = CurrentIds.proposal (currentIds st)
        /\ getProposal (Proposal.id proposal) st' = Some proposal)
  /\ (forall body,
      insertProposalSchema body = None ->
      postProposal now body st = (BadRequest, st))
  /\ (forall body,
      ProposalBody.endDate body = None ->
      postProposal now body st = (BadRequest, st))
  /\ (forall body data,
      insertProposalSchema body = Some data ->
      postProposal now body st
      = (Created (fst (createProposal now data st)),
         snd (createProposal now data st))).
Proof.
  split; [|split; [|split]].
  - intros data. unfold createProposal. do 2 eexists.
    split; [reflexivity|]. simpl.
    repeat (split; [reflexivity|]). apply JsMapFacts.get_set_same.
  - intros body H. unfold postProposal. now rewrite H.
  - intros body H. unfold postProposal, insertProposalSchema. rewrite H.
    destruct (ProposalBody.artistId body), (ProposalBody.creatorId body),
      (ProposalBody.title body), (ProposalBody.description body),
      (ProposalBody.type body), (ProposalBody.options body); reflexivity.
  - intros body data H. unfold postProposal. now rewrite H.
Qed.

(** A request with every field in place, the end date as the string or
    number that JSON can carry. *)
Lemma json_proposal_request_witness :
  let st := Sample.ledger Sample.f64 250 in
  postProposal 2000
    (ProposalBody.mk (Some 1) (Some 1) (Some "Tour"%string)
       (Some "Where next"%string) (Some "business"%string)
       (Some ["Europe"; "America"]%string) None)
    st
  = (BadRequest, st).
Proof.
  intros st.
  apply (proj1 (proj2 (proj2
           (proposal_is_stored_without_validation 2000 st)))).
  reflexivity.
Defined.

(** C8 as stated fails. At time 2000, a proposal with one option, a
    proposal with a blank option label, and proposals whose end date is
    the current time or has passed are each stored by
    [MemStorage.createProposal], with status "active" and start date
    2000. *)
Lemma invalid_proposals_are_stored :
  let st := Sample.ledger Sample.f64 250 in
  let data options endDate :=
    Proposal.mkInsert 1 1 "Tour" "Where next" "business" options endDate in
  let stored options endDate :=
    Proposal.mk (data options endDate) 2 2000 "active" in
  let check options endDate :=
    fst (createProposal 2000 (data options endDate) st)
    = stored options endDate
    /\ getProposal 2 (snd (createProposal 2000 (data options endDate) st))
       = Some (stored options endDate) in
  check ["Europe"]%string 9000
  /\ check ["Europe"; "   "]%string 9000
  /\ check ["Europe"; "America"]%string 1000
  /\ check ["Europe"; "America"]%string 2000.
Proof. vm_compute. repeat split. Qed.

(** * Further properties of the store and of the handlers *)

(** ** More facts about [JsMap] *)

Module JsMapOrder.
Section Facts.
Context {V : Type}.
Implicit Types (m : JsMap.t V) (k : Z) (v : V).

Lemma in_set k v m k' v' :
  In (k', v') (JsMap.set k v m) -> (k', v') = (k, v) \/ In (k', v') m.
Proof.
  induction m as [|[k0 v0] m IH]; simpl.
  - intros [H|[]]; auto.
  - destruct (k =? k0); simpl; intros [H|H]; auto.
    destruct (IH H); auto.
Qed.

Lemma get_Some_In k v m : JsMap.get k m = Some v -> In (k, v) m.
Proof.
  induction m as [|[k0 v0] m IH]; simpl; [discriminate|].
  destruct (Z.eqb_spec k k0) as [->|]; [intros [= ->]; auto | auto].
Qed.

Lemma keys_set_existing k v v' m :
  JsMap.get k m = Some v -> JsMap.keys (JsMap.set k v' m) = JsMap.keys m.
Proof.
  induction m as [|[k0 v0] m IH]; simpl; [discriminate|].
  destruct (Z.eqb_spec k k0) as [->|]; simpl; intros H; auto.
  now rewrite IH.
Qed.

Lemma values_set_fresh k v m :
  JsMap.get k m = None -> JsMap.values (JsMap.set k v m) = JsMap.values m ++ [v].
Proof.
  intros H. rewrite JsMapFacts.set_fresh by exact H.
  unfold JsMap.values. now rewrite map_app.
Qed.

Lemma keys_set_fresh k v m :
  JsMap.get k m = None -> JsMap.keys (JsMap.set k v m) = JsMap.keys m ++ [k].
Proof.
  intros H. rewrite JsMapFacts.set_fresh by exact H.
  unfold JsMap.keys. now rewrite map_app.
Qed.

(** The last write to a key wins. *)
Lemma set_set k v1 v2 m :
  JsMap.set k v2 (JsMap.set k v1 m) = JsMap.set k v2 m.
Proof.
  induction m as [|[k0 v0] m IH]; simpl.
  - now rewrite Z.eqb_refl.
  - destruct (k =? k0) eqn:E; simpl.
    + now rewrite Z.eqb_refl.
    + now rewrite E, IH.
Qed.

Lemma sorted_snoc (l : list Z) k :
  StronglySorted Z.lt l -> (forall x, In x l -> x < k) ->
  StronglySorted Z.lt (l ++ [k]).
Proof.
  induction 1 as [|a l Hs IH Ha]; intros Hk; simpl.
  - repeat constructor.
  - constructor.
    + apply IH. intros; apply Hk; simpl; auto.
    + apply Forall_app. split; auto. constructor; auto. apply Hk; simpl; auto.
Qed.

Lemma ascending_set_fresh n k v m :
  JsMap.below n m -> n <= k -> ascendingKeys m ->
  ascendingKeys (JsMap.set k v m).
Proof.
  intros Hb Hk Hs. unfold ascendingKeys.
  rewrite keys_set_fresh by (eapply JsMapFacts.below_get_None; eauto).
  apply sorted_snoc; auto. intros x Hx. apply Hb in Hx. lia.
Qed.

Lemma keyed_set (idOf : V -> Z) k v m :
  keyedById idOf m -> idOf v = k -> keyedById idOf (JsMap.set k v m).
Proof.
  intros Hm Hv k' v' Hin. apply in_set in Hin as [[= -> ->]|Hin]; auto.
Qed.

(** With distinct keys, a listed row is the row its key gives. *)
Lemma in_get k v m : ascendingKeys m -> In (k, v) m -> JsMap.get k m = Some v.
Proof.
  unfold ascendingKeys.
  induction m as [|[k0 v0] m IH]; simpl; intros Hs Hin; [easy|].
  inversion Hs as [|? ? Hs' Hlt]; subst.
  destruct Hin as [[= -> ->]|Hin].
  - now rewrite Z.eqb_refl.
  - destruct (Z.eqb_spec k k0) as [->|]; auto.
    rewrite Forall_forall in Hlt.
    assert (k0 < k0) by (apply Hlt; apply (in_map fst) in Hin; exact Hin).
    lia.
Qed.

(** Replacing the row of a key by a related row relates the listings. *)
Lemma values_set_related (R : V -> V -> Prop) k v v' m :
  (forall x, R x x) -> JsMap.get k m = Some v -> R v v' ->
  Forall2 R (JsMap.values m) (JsMap.values (JsMap.set k v' m)).
Proof.
  intros Hrefl. induction m as [|[k0 v0] m IH]; simpl; [discriminate|].
  destruct (Z.eqb_spec k k0) as [->|]; simpl; intros G HR.
  - injection G as ->. constructor; auto.
    clear - Hrefl. induction m; simpl; constructor; auto.
  - constructor; auto.
Qed.

End Facts.
End JsMapOrder.

(** ** The rows and their keys *)

Section RowsAndKeys.
Context {num : Type}.
Implicit Types (st : MemStorage num) (op : Op (num := num)).

Lemma emptyStorage_rows : rowsInOrder (@emptyStorage num).
Proof. split; simpl; try (intros ? ? []); constructor. Qed.

Ltac new_row Inv :=
  first
    [ apply JsMapOrder.keyed_set; [assumption | reflexivity]
    | eapply JsMapOrder.ascending_set_fresh;
      [ apply Inv | apply Z.le_refl | assumption ] ].

Ltac same_key G :=
  first
    [ apply JsMapOrder.keyed_set; [assumption | simpl; eauto]
    | unfold ascendingKeys;
      rewrite (JsMapOrder.keys_set_existing _ _ _ _ G); assumption ].

Lemma exec_rows op st :
  idsBelowCounters st -> rowsInOrder st -> rowsInOrder (exec op st).
Proof.
  intros Inv [? ? ? ? ? ? ? ? ? ? ? ? ? ?].
  destruct op; simpl;
    unfold updateArtistContractAddress, updateProposalStatus,
      markRevenueDistributed;
    try (split; simpl; auto; new_row Inv).
  - destruct (JsMap.get id (artists st)) eqn:G; split; simpl; auto;
      same_key G.
    apply (artists_keyed0 id). now apply JsMapOrder.get_Some_In.
  - destruct (JsMap.get id (proposals st)) eqn:G; split; simpl; auto;
      same_key G.
    apply (proposals_keyed0 id). now apply JsMapOrder.get_Some_In.
  - destruct (JsMap.get id (revenues st)) eqn:G; split; simpl; auto;
      same_key G.
    apply (revenues_keyed0 id). now apply JsMapOrder.get_Some_In.
Qed.

Lemma rows_of_reachable st : reachable st -> rowsInOrder st.
Proof.
  induction 1 as [|op st Hr IH]; [apply emptyStorage_rows|].
  apply exec_rows; auto. now apply reachable_ids.
Qed.

(** X1. In every store that the write operations reach from the
    constructor, each row of each of the seven maps is stored under the id
    it carries, and the keys of each map are strictly increasing: ids are
    never shared, and a listing is in the order of creation. *)
Theorem reachable_rows_in_order st : reachable st -> rowsInOrder st.
Proof.
  induction 1 as [|op st Hr IH]; [apply emptyStorage_rows|].
  apply exec_rows; auto. now apply reachable_ids.
Qed.

End RowsAndKeys.

Lemma rows_in_order_witness : rowsInOrder (Sample.ledger Sample.f64 250).
Proof.
  apply reachable_rows_in_order.
  unfold Sample.ledger. repeat apply reachable_exec. apply reachable_new.
Defined.

(** ** Creating rows *)

Section Creating.
Context {num : Type}.
Implicit Types (st : MemStorage num) (op : Op (num := num)).

Lemma counter_is_unused {V : Type} n (m : JsMap.t V) :
  JsMap.below n m -> JsMap.get n m = None.
Proof. intros H. eapply JsMapFacts.below_get_None; eauto. lia. Qed.

(** X2. In a reachable store, [createUser], [createArtist] and
    [createProposal] return a row whose id was not in use; afterwards the
    getter finds that row under its id and finds every other id as
    before. *)
Theorem created_row_is_found_under_a_new_id st :
  reachable st ->
  (forall now user,
      let r := createUser now user st in
      getUser (User.id (fst r)) st = None
      /\ getUser (User.id (fst r)) (snd r) = Some (fst r)
      /\ forall id, id <> User.id (fst r) ->
                    getUser id (snd r) = getUser id st)
  /\ (forall artist,
      let r := createArtist artist st in
      getArtist (Artist.id (fst r)) st = None
      /\ getArtist (Artist.id (fst r)) (snd r) = Some (fst r)
      /\ forall id, id <> Artist.id (fst r) ->
                    getArtist id (snd r) = getArtist id st)
  /\ (forall now proposal,
      let r := createProposal now proposal st in
      getProposal (Proposal.id (fst r)) st = None
      /\ getProposal (Proposal.id (fst r)) (snd r) = Some (fst r)
      /\ forall id, id <> Proposal.id (fst r) ->
                    getProposal id (snd r) = getProposal id st).
Proof.
  intros Hr. pose proof (reachable_ids st Hr) as Inv.
  unfold getUser, getArtist, getProposal.
  split; [|split]; intros; simpl;
    (split; [apply counter_is_unused; apply Inv|]);
    (split; [apply JsMapFacts.get_set_same|]);
    intros id Hid; now apply JsMapFacts.get_set_other.
Qed.

(** X3. In a reachable store, a created row goes to the end of the
    listings it belongs to, and every other listing is unchanged: the
    listings by user, artist or proposal of tokens, proposals, votes,
    revenues and earnings, and the list of all artists. *)
Theorem created_row_is_appended_to_its_listings st :
  reachable st ->
  (forall now token userId artistId,
      let r := createToken now token st in
      getUserTokens userId (snd r)
      = getUserTokens userId st
        ++ (if Token.userId token =? userId then [fst r] else [])
      /\ getArtistTokens artistId (snd r)
         = getArtistTokens artistId st
           ++ (if Token.artistId token =? artistId then [fst r] else []))
  /\ (forall now proposal userId artistId,
      let r := createProposal now proposal st in
      getUserProposals userId (snd r)
      = getUserProposals userId st
        ++ (if Proposal.creatorId proposal =? userId then [fst r] else [])
      /\ getArtistProposals artistId (snd r)
         = getArtistProposals artistId st
           ++ (if Proposal.artistId proposal =? artistId then [fst r] else []))
  /\ (forall now vote userId proposalId,
      let r := createVote now vote st in
      getUserVotes userId (snd r)
      = getUserVotes userId st
        ++ (if Vote.userId vote =? userId then [fst r] else [])
      /\ getProposalVotes proposalId (snd r)
         = getProposalVotes proposalId st
           ++ (if Vote.proposalId vote =? proposalId then [fst r] else []))
  /\ (forall now revenue artistId,
      let r := createRevenue now revenue st in
      getArtistRevenues artistId (snd r)
      = getArtistRevenues artistId st
        ++ (if Revenue.artistId revenue =? artistId then [fst r] else []))
  /\ (forall now earning userId artistId,
      let r := createEarning now earning st in
      getUserEarnings userId (snd r)
      = getUserEarnings userId st
        ++ (match Earning.userId earning with
            | Some u => if u =? userId then [fst r] else []
            | None => []
            end)
      /\ getArtistEarnings artistId (snd r)
         = getArtistEarnings artistId st
           ++ (match Earning.artistId earning with
               | Some a => if a =? artistId then [fst r] else []
               | None => []
               end))
  /\ (forall artist,
      let r := createArtist artist st in
      getAllArtists (snd r) = getAllArtists st ++ [fst r]).
Proof.
  intros Hr. pose proof (reachable_ids st Hr) as Inv.
  unfold getUserTokens, getArtistTokens, getUserProposals, getArtistProposals,
    getUserVotes, getProposalVotes, getArtistRevenues, getUserEarnings,
    getArtistEarnings, getAllArtists.
  repeat split; intros; simpl;
    rewrite JsMapOrder.values_set_fresh
      by (apply counter_is_unused; apply Inv);
    rewrite ?filter_app; simpl; try reflexivity.
  - now destruct (Earning.userId earning) as [u|]; [destruct (u =? userId)|].
  - now destruct (Earning.artistId earning) as [a|]; [destruct (a =? artistId)|].
Qed.

End Creating.

Lemma sample_ledger_reachable {num : Type} (lit : Z -> num) held :
  reachable (Sample.ledger lit held).
Proof.
  unfold Sample.ledger. repeat apply reachable_exec. apply reachable_new.
Qed.

Lemma created_row_witness :
  let st := Sample.ledger Sample.f64 250 in
  let r := createProposal 30 Sample.albumConcept st in
  getProposal (Proposal.id (fst r)) st = None
  /\ getProposal (Proposal.id (fst r)) (snd r) = Some (fst r).
Proof.
  intros st r.
  destruct (created_row_is_found_under_a_new_id st
              (sample_ledger_reachable Sample.f64 250)) as (_ & _ & Hp).
  destruct (Hp 30 Sample.albumConcept) as (H1 & H2 & _). auto.
Defined.

Lemma appended_row_witness :
  let st := Sample.ledger Sample.f64 250 in
  let r := createToken 30 (Token.mkInsert 1 3 (Sample.f64 50) None None) st in
  getUserTokens 3 (snd r) = getUserTokens 3 st ++ [fst r]
  /\ getUserTokens 4 (snd r) = getUserTokens 4 st ++ [].
Proof.
  intros st r.
  destruct (created_row_is_appended_to_its_listings st
              (sample_ledger_reachable Sample.f64 250)) as (Ht & _).
  split.
  - apply (Ht 30 (Token.mkInsert 1 3 (Sample.f64 50) None None) 3 1).
  - apply (Ht 30 (Token.mkInsert 1 3 (Sample.f64 50) None None) 4 1).
Defined.

(** ** Rows over the history of the store *)

Section Histories.
Context {num : Type}.
Implicit Types (st : MemStorage num) (op : Op (num := num)).

Lemma execAll_reachable ops st : reachable st -> reachable (execAll ops st).
Proof.
  revert st; induction ops as [|op ops IH]; intros st H; simpl; auto.
  apply IH. now apply reachable_exec.
Qed.

Ltac unfold_updates :=
  unfold updateArtistContractAddress, updateProposalStatus,
    markRevenueDistributed.

Ltac fresh_or_other Inv :=
  rewrite JsMapFacts.get_set_other; auto;
  intros ->;
  match goal with
  | G : JsMap.get _ _ = Some _ |- _ =>
      rewrite counter_is_unused in G by apply Inv; discriminate
  end.

Lemma exec_user op st id u :
  idsBelowCounters st -> JsMap.get id (users st) = Some u ->
  JsMap.get id (users (exec op st)) = Some u.
Proof.
  intros Inv G. destruct op; simpl; unfold_updates; auto.
  - fresh_or_other Inv.
  - destruct (JsMap.get id0 (artists st)); auto.
  - destruct (JsMap.get id0 (proposals st)); auto.
  - destruct (JsMap.get id0 (revenues st)); auto.
Qed.

Lemma exec_token op st id (t : Token.t num) :
  idsBelowCounters st -> JsMap.get id (tokens st) = Some t ->
  JsMap.get id (tokens (exec op st)) = Some t.
Proof.
  intros Inv G. destruct op; simpl; unfold_updates; auto.
  - destruct (JsMap.get id0 (artists st)); auto.
  - fresh_or_other Inv.
  - destruct (JsMap.get id0 (proposals st)); auto.
  - destruct (JsMap.get id0 (revenues st)); auto.
Qed.

Lemma exec_vote op st id (v : Vote.t num) :
  idsBelowCounters st -> JsMap.get id (votes st) = Some v ->
  JsMap.get id (votes (exec op st)) = Some v.
Proof.
  intros Inv G. destruct op; simpl; unfold_updates; auto.
  - destruct (JsMap.get id0 (artists st)); auto.
  - destruct (JsMap.get id0 (proposals st)); auto.
  - fresh_or_other Inv.
  - destruct (JsMap.get id0 (revenues st)); auto.
Qed.

Lemma exec_earning op st id (e : Earning.t num) :
  idsBelowCounters st -> JsMap.get id (earnings st) = Some e ->
  JsMap.get id (earnings (exec op st)) = Some e.
Proof.
  intros Inv G. destruct op; simpl; unfold_updates; auto.
  - destruct (JsMap.get id0 (artists st)); auto.
  - destruct (JsMap.get id0 (proposals st)); auto.
  - destruct (JsMap.get id0 (revenues st)); auto.
  - fresh_or_other Inv.
Qed.

(** X4. Users, token holdings, votes and earnings are written once: a
    row that a reachable store holds is held unchanged, under the same id,
    after any further sequence of store operations. *)
Theorem stored_rows_are_written_once st ops :
  reachable st ->
  (forall id u,
      JsMap.get id (users st) = Some u ->
      JsMap.get id (users (execAll ops st)) = Some u)
  /\ (forall id t,
      JsMap.get id (tokens st) = Some t ->
      JsMap.get id (tokens (execAll ops st)) = Some t)
  /\ (forall id v,
      JsMap.get id (votes st) = Some v ->
      JsMap.get id (votes (execAll ops st)) = Some v)
  /\ (forall id e,
      JsMap.get id (earnings st) = Some e ->
      JsMap.get id (earnings (execAll ops st)) = Some e).
Proof.
  revert st; induction ops as [|op ops IH]; intros st Hr; simpl.
  - auto.
  - destruct (IH (exec op st) (reachable_exec op st Hr))
      as (Hu & Ht & Hv & He).
    pose proof (reachable_ids st Hr) as Inv.
    repeat split; intros.
    + apply Hu. now apply exec_user.
    + apply Ht. now apply exec_token.
    + apply Hv. now apply exec_vote.
    + apply He. now apply exec_earning.
Qed.

Lemma exec_artist op st id (a : Artist.t num) :
  idsBelowCounters st -> JsMap.get id (artists st) = Some a ->
  exists a',
    JsMap.get id (artists (exec op st)) = Some a'
    /\ forall c, withContractAddress c a' = withContractAddress c a.
Proof.
  intros Inv G. destruct op; simpl; unfold_updates; eauto.
  - exists a. split; auto. fresh_or_other Inv.
  - destruct (Z.eq_dec id0 id) as [->|Hne].
    + rewrite G. simpl. eexists. split; [apply JsMapFacts.get_set_same|].
      reflexivity.
    + exists a. split; auto.
      destruct (JsMap.get id0 (artists st)); simpl; auto.
      rewrite JsMapFacts.get_set_other; auto.
  - destruct (JsMap.get id0 (proposals st)); eauto.
  - destruct (JsMap.get id0 (revenues st)); eauto.
Qed.

(** X5. The rows that can be updated change in one field only. After any
    sequence of store operations on a reachable store, a stored artist
    differs from what it was at most in its contract address, a stored
    proposal at most in its status, and a stored revenue event at most in
    its distributed flag, which is not reset once set. *)
Theorem updated_rows_change_in_one_field st ops :
  reachable st ->
  (forall id a,
      JsMap.get id (artists st) = Some a ->
      exists a',
        JsMap.get id (artists (execAll ops st)) = Some a'
        /\ forall c, withContractAddress c a' = withContractAddress c a)
  /\ (forall id p,
      JsMap.get id (proposals st) = Some p ->
      exists p',
        JsMap.get id (proposals (execAll ops st)) = Some p'
        /\ forall s, withStatus s p' = withStatus s p)
  /\ (forall id r,
      JsMap.get id (revenues st) = Some r ->
      exists r',
        JsMap.get id (revenues (execAll ops st)) = Some r'
        /\ asDistributed r' = asDistributed r
        /\ (Revenue.distributed r = true -> Revenue.distributed r' = true)).
Proof.
  revert st; induction ops as [|op ops IH]; intros st Hr; simpl.
  - repeat split; intros; eauto.
  - destruct (IH (exec op st) (reachable_exec op st Hr)) as (Ha & Hp & Hv).
    pose proof (reachable_ids st Hr) as Inv.
    repeat split.
    + intros id a G.
      destruct (exec_artist op st id a Inv G) as (a1 & G1 & E1).
      destruct (Ha id a1 G1) as (a2 & G2 & E2).
      exists a2. split; auto. intros c. now rewrite E2.
    + intros id p G.
      destruct (exec_proposal op st id p Inv G) as [G1|(s0 & _ & G1)];
        destruct (Hp id _ G1) as (p2 & G2 & E2); exists p2; split; auto.
    + intros id r G.
      destruct (exec_revenue op st id r Inv G) as [G1|(_ & G1)];
        destruct (Hv id _ G1) as (r2 & G2 & E2 & F2); exists r2;
        repeat split; auto.
Qed.

(** X20. The last update wins: updating the contract address of an artist,
    or the status of a proposal, twice in a row gives the answer and the
    store of the second update alone, whether or not the id is stored. *)
Theorem last_update_wins st id :
  (forall c1 c2,
      updateArtistContractAddress id c2
        (snd (updateArtistContractAddress id c1 st))
      = updateArtistContractAddress id c2 st)
  /\ (forall s1 s2,
      updateProposalStatus id s2 (snd (updateProposalStatus id s1 st))
      = updateProposalStatus id s2 st).
Proof.
  split; intros.
  - unfold updateArtistContractAddress.
    destruct (JsMap.get id (artists st)) as [a|] eqn:G; simpl.
    + rewrite JsMapFacts.get_set_same, JsMapOrder.set_set. reflexivity.
    + now rewrite G.
  - unfold updateProposalStatus.
    destruct (JsMap.get id (proposals st)) as [p|] eqn:G; simpl.
    + rewrite JsMapFacts.get_set_same, JsMapOrder.set_set. reflexivity.
    + now rewrite G.
Qed.

End Histories.

Lemma written_once_witness :
  let st := Sample.ledger Sample.f64 250 in
  let ops :=
    [CreateToken 30 (Token.mkInsert 1 3 (Sample.f64 50) None None);
     UpdateProposalStatus 1 "closed"%string;
     CreateVote 40 (Vote.mkInsert 1 3 0 (Sample.f64 300))] in
  JsMap.get 1 (tokens (execAll ops st))
  = Some (Token.mk (Token.mkInsert 1 3 (Sample.f64 250) None None) 1 5).
Proof.
  intros st ops.
  destruct (stored_rows_are_written_once st ops
              (sample_ledger_reachable Sample.f64 250)) as (_ & Ht & _).
  apply Ht. reflexivity.
Defined.

Lemma one_field_witness :
  let st := Sample.ledger Sample.f64 250 in
  let ops :=
    [UpdateArtistContractAddress 1 "0xf39F"%string;
     CreateArtist (Sample.aurora Sample.f64);
     UpdateArtistContractAddress 1 "0x7099"%string] in
  exists a',
    JsMap.get 1 (artists (execAll ops st)) = Some a'
    /\ forall c,
        withContractAddress c a'
        = withContractAddress c (Artist.mk (Sample.aurora Sample.f64) 1).
Proof.
  intros st ops.
  destruct (updated_rows_change_in_one_field st ops
              (sample_ledger_reachable Sample.f64 250)) as (Ha & _).
  apply Ha. reflexivity.
Defined.

(** ** Holdings and votes *)

Section HoldingsAndVotes.
Context {num : Type} {N : JsNum num} {RC : RealColumn num}.
Implicit Types (st : MemStorage num).

Lemma sumOf_snoc {A : Type} (f : A -> num) l x :
  sumOf f (l ++ [x]) = nadd (sumOf f l) (f x).
Proof. unfold sumOf. now rewrite fold_left_app. Qed.

(** X6. In a reachable store, a new holding row adds its amount to the
    total holding of its pair (artist, user), the voting weight of that
    user for that artist, and changes the total holding of no other
    pair. *)
Theorem new_holding_adds_its_amount st now token artistId userId :
  reachable st ->
  totalHolding artistId userId (snd (createToken now token st))
  = if (Token.artistId token =? artistId) && (Token.userId token =? userId)
    then nadd (totalHolding artistId userId st) (Token.amount token)
    else totalHolding artistId userId st.
Proof.
  intros Hr. pose proof (reachable_ids st Hr) as Inv.
  unfold totalHolding, holdingRows. simpl.
  rewrite JsMapOrder.values_set_fresh
    by (apply counter_is_unused; apply Inv).
  rewrite filter_app. simpl.
  destruct ((Token.artistId token =? artistId)
            && (Token.userId token =? userId)).
  - rewrite sumOf_snoc. reflexivity.
  - now rewrite app_nil_r.
Qed.

(** X7. The vote handler either leaves the store as it is (every answer
    but 201) or adds exactly one Vote row: on 201 the new row, which
    carries the proposal id of the request, goes to the end of the votes
    of that proposal, the votes stored before are all kept, and nothing
    but the votes and the vote counter changes. *)
Theorem vote_handler_only_appends st now proposalId body :
  reachable st ->
  let r := postVote now proposalId body st in
  match fst r with
  | Created vote =>
      Vote.proposalId (Vote.data vote) = proposalId
      /\ Vote.id vote = CurrentIds.vote (currentIds st)
      /\ votes (snd r) = votes st ++ [(Vote.id vote, vote)]
      /\ getProposalVotes proposalId (snd r)
         = getProposalVotes proposalId st ++ [vote]
      /\ (forall other, other <> proposalId ->
            getProposalVotes other (snd r) = getProposalVotes other st)
      /\ users (snd r) = users st
      /\ artists (snd r) = artists st
      /\ tokens (snd r) = tokens st
      /\ proposals (snd r) = proposals st
      /\ revenues (snd r) = revenues st
      /\ earnings (snd r) = earnings st
  | _ => snd r = st
  end.
Proof.
  intros Hr r. pose proof (reachable_ids st Hr) as Inv.
  pose proof (postVote_cases now proposalId body st) as C. unfold r.
  destruct (getProposal proposalId st) as [proposal|]; [|now rewrite C].
  destruct (insertVoteSchema proposalId body) as [voteData|] eqn:P;
    [|now rewrite C].
  simpl in C.
  destruct (holdingRows _ _ st); rewrite C; [reflexivity|]. simpl.
  assert (Hpid : Vote.proposalId voteData = proposalId).
  { destruct (proj1 (insertVoteSchema_Some _ _ _) P)
      as (u & i & w & _ & _ & _ & _ & _ & ->).
    reflexivity. }
  assert (Hfresh : JsMap.get (CurrentIds.vote (currentIds st)) (votes st)
                   = None)
    by (apply counter_is_unused; apply Inv).
  repeat split; auto.
  - now apply JsMapFacts.set_fresh.
  - unfold getProposalVotes. simpl.
    rewrite JsMapOrder.values_set_fresh by exact Hfresh.
    rewrite filter_app. simpl. rewrite Hpid, Z.eqb_refl. reflexivity.
  - intros other Hother. unfold getProposalVotes. simpl.
    rewrite JsMapOrder.values_set_fresh by exact Hfresh.
    rewrite filter_app. simpl. rewrite Hpid.
    destruct (Z.eqb_spec proposalId other); [congruence|].
    now rewrite app_nil_r.
Qed.

End HoldingsAndVotes.

Lemma vote_witness_reachable :
  reachable (Sample.votedLedger Sample.f64 0).
Proof.
  unfold Sample.votedLedger. apply reachable_exec.
  apply sample_ledger_reachable.
Qed.

Lemma new_holding_witness :
  let st := Sample.ledger Sample.f64 250 in
  totalHolding 1 3
    (snd (createToken 30 (Token.mkInsert 1 3 (Sample.f64 50) None None) st))
  = nadd (totalHolding 1 3 st) (Sample.f64 50).
Proof.
  intros st.
  apply (new_holding_adds_its_amount st 30
           (Token.mkInsert 1 3 (Sample.f64 50) None None) 1 3).
  apply sample_ledger_reachable.
Defined.

Lemma vote_appends_witness :
  let st := Sample.votedLedger Sample.f64 0 in
  let r := postVote 30 1 (Sample.voteBody Sample.f64 3 1 0) st in
  match fst r with
  | Created vote =>
      getProposalVotes 1 (snd r) = getProposalVotes 1 st ++ [vote]
  | _ => snd r = st
  end.
Proof.
  intros st r.
  pose proof (vote_handler_only_appends st 30 1
                (Sample.voteBody Sample.f64 3 1 0) vote_witness_reachable)
    as H.
  cbv zeta in H. fold st r in H. revert H.
  destruct (fst r); intros H; try exact H. apply H.
Defined.

(** ** The tally after one more vote *)

Section TallySteps.
Context {num : Type} {N : JsNum num} {RC : RealColumn num}.
Implicit Types (st : MemStorage num).

Lemma nth_error_setNth_same {A : Type} n (x : A) l :
  (n < List.length l)%nat -> nth_error (setNth n x l) n = Some x.
Proof.
  revert n; induction l as [|y l IH]; intros [|n]; simpl; intros H;
    try lia; auto.
  apply IH. lia.
Qed.

Lemma nth_error_setNth_other {A : Type} n m (x : A) l :
  n <> m -> nth_error (setNth n x l) m = nth_error l m.
Proof.
  revert n m; induction l as [|y l IH]; intros [|n] [|m]; simpl; intros H;
    auto; congruence.
Qed.

(** [optionVotes[i] += w] on a filled slot adds [w] to it. *)
Lemma addAt_filled_slot i w (a : JsArray num) x :
  nth_error a i = Some (Some x) ->
  nth_error (addAt (Z.of_nat i) w a) i = Some (Some (nadd x w)).
Proof.
  intros H.
  assert (Hi : (i < List.length a)%nat)
    by (apply nth_error_Some; congruence).
  unfold addAt.
  replace ((0 <=? Z.of_nat i) && (Z.of_nat i <? Z.of_nat (List.length a)))
    with true
    by (symmetry; apply andb_true_iff; split;
        [apply Z.leb_le | apply Z.ltb_lt]; lia).
  rewrite Nat2Z.id, H. now apply nth_error_setNth_same.
Qed.

(** [optionVotes[i] += w] leaves the other slots of the array alone. *)
Lemma addAt_other_slot i w (a : JsArray num) j :
  Z.of_nat j <> i -> (j < List.length a)%nat ->
  nth_error (addAt i w a) j = nth_error a j.
Proof.
  intros Hne Hj. unfold addAt.
  destruct ((0 <=? i) && (i <? Z.of_nat (List.length a))) eqn:E.
  - apply andb_true_iff in E as [E1 E2].
    apply Z.leb_le in E1.
    assert (Z.to_nat i <> j) by lia.
    destruct (nth_error a (Z.to_nat i)) as [[x|]|];
      now apply nth_error_setNth_other.
  - destruct ((0 <=? i) && (i <? arrayIndexLimit)); auto.
    now apply nth_error_app1.
Qed.

Lemma postVote_votes st now proposalId body vote st' :
  reachable st ->
  postVote now proposalId body st = (Created vote, st') ->
  getProposalVotes proposalId st' = getProposalVotes proposalId st ++ [vote]
  /\ forall other, other <> proposalId ->
       getProposalVotes other st' = getProposalVotes other st.
Proof.
  intros Hr H. pose proof (reachable_ids st Hr) as Inv.
  pose proof (postVote_cases now proposalId body st) as C.
  destruct (getProposal proposalId st) as [proposal|];
    [|rewrite C in H; discriminate].
  destruct (insertVoteSchema proposalId body) as [voteData|] eqn:P;
    [|rewrite C in H; discriminate].
  simpl in C.
  destruct (holdingRows _ _ st); rewrite C in H; [discriminate|].
  injection H as <- <-.
  assert (Hpid : Vote.proposalId voteData = proposalId).
  { destruct (proj1 (insertVoteSchema_Some _ _ _) P)
      as (u & i & w & _ & _ & _ & _ & _ & ->).
    reflexivity. }
  assert (Hfresh : JsMap.get (CurrentIds.vote (currentIds st)) (votes st)
                   = None)
    by (apply counter_is_unused; apply Inv).
  unfold getProposalVotes. simpl.
  rewrite JsMapOrder.values_set_fresh by exact Hfresh.
  split; [|intros other Hother]; rewrite filter_app; simpl; rewrite Hpid.
  - now rewrite Z.eqb_refl.
  - destruct (Z.eqb_spec proposalId other); [congruence|].
    now rewrite app_nil_r.
Qed.

(** X8. When the vote handler answers 201 in a reachable store, the vote
    counts of the proposal change in the slot of the vote only: a slot
    that held a number holds that number plus the weight of the vote,
    every other slot of the counts is as before, and the counts of every
    other proposal are as before. *)
Theorem tally_moves_by_the_weight_of_the_vote
  st now proposalId body proposal vote st' :
  reachable st ->
  getProposal proposalId st = Some proposal ->
  postVote now proposalId body st = (Created vote, st') ->
  let c := proposalVotes proposal st in
  let c' := proposalVotes proposal st' in
  (forall i x,
      Vote.optionIndex (Vote.data vote) = Z.of_nat i ->
      countAt i c = Some x ->
      countAt i c' = Some (nadd x (Vote.weight (Vote.data vote))))
  /\ (forall j,
      Z.of_nat j <> Vote.optionIndex (Vote.data vote) ->
      (j < List.length (VoteCounts.counts c))%nat ->
      countAt j c' = countAt j c)
  /\ (forall other,
      Proposal.id other <> proposalId ->
      proposalVotes other st' = proposalVotes other st).
Proof.
  intros Hr G H c c'.
  assert (Hid : Proposal.id proposal = proposalId).
  { apply (proposals_keyed st (rows_of_reachable st Hr)).
    now apply JsMapOrder.get_Some_In. }
  destruct (postVote_votes st now proposalId body vote st' Hr H)
    as [Happ Hother].
  assert (Hc : VoteCounts.counts c'
               = addAt (Vote.optionIndex (Vote.data vote))
                   (Vote.weight (Vote.data vote)) (VoteCounts.counts c)).
  { unfold c, c', proposalVotes, tabulate. rewrite Hid, Happ.
    simpl. now rewrite fold_left_app. }
  split; [|split].
  - intros i x Hi Hx. unfold countAt in *. rewrite Hc, Hi.
    destruct (nth_error (VoteCounts.counts c) i) as [[y|]|] eqn:E;
      try discriminate.
    injection Hx as ->. now rewrite (addAt_filled_slot i _ _ x E).
  - intros j Hj Hlen. unfold countAt. rewrite Hc.
    now rewrite addAt_other_slot.
  - intros other Hne. unfold proposalVotes. now rewrite Hother.
Qed.

End TallySteps.

Lemma tally_step_witness :
  let st := Sample.votedLedger Sample.f64 0 in
  let proposal := Proposal.mk Sample.albumConcept 1 0 "active" in
  let r := postVote 30 1 (Sample.voteBody Sample.f64 3 0 1) st in
  countAt 0 (proposalVotes proposal (snd r))
  = Some (nadd (Sample.f64 250) (Sample.f64 250))
  /\ countAt 1 (proposalVotes proposal (snd r))
     = countAt 1 (proposalVotes proposal st).
Proof.
  intros st proposal r.
  set (vote := Vote.mk (Vote.mkInsert 1 3 0 (Sample.f64 250)) 2 30).
  assert (H : postVote 30 1 (Sample.voteBody Sample.f64 3 0 1) st
              = (Created vote, snd r)) by (vm_compute; reflexivity).
  assert (G : getProposal 1 st = Some proposal) by (vm_compute; reflexivity).
  destruct (tally_moves_by_the_weight_of_the_vote st 30 1 _ proposal vote
              (snd r) vote_witness_reachable G H) as (Hslot & Hrest & _).
  split.
  - apply (Hslot 0%nat); vm_compute; reflexivity.
  - apply (Hrest 1%nat); [discriminate | vm_compute; lia].
Defined.

(** ** The revenue report *)

Section RevenueReport.
Context {num : Type} {N : JsNum num} {RC : RealColumn num}.
Implicit Types (st : MemStorage num) (op : Op (num := num)).

(** X9. In a reachable store, a revenue event accepted by
    POST /api/revenues adds its amount to the total of the revenue report
    of its artist, the three amounts of the report being the shares of the
    new total, and leaves the report of every other artist as it was. *)
Theorem new_revenue_adds_to_the_report
  st now body revenue st' artistId artist :
  reachable st ->
  getArtist artistId st = Some artist ->
  postRevenue now body st = (Created revenue, st') ->
  exists d,
    getArtistRevenue artistId st = Ok d
    /\ getArtistRevenue artistId st'
       = Ok (if Revenue.artistId (Revenue.data revenue) =? artistId
             then
               let total :=
                 nadd (Distribution.totalEarnings d)
                      (Revenue.amount (Revenue.data revenue)) in
               let shares := Artist.data artist in
               Distribution.mk total
                 (nmul total (ndiv (Artist.artistShare shares) nhundred))
                 (nmul total (ndiv (Artist.tokenHolderShare shares) nhundred))
                 (nmul total (ndiv (Artist.treasuryShare shares) nhundred))
             else d).
Proof.
  intros Hr G H. pose proof (reachable_ids st Hr) as Inv.
  unfold postRevenue in H.
  destruct (insertRevenueSchema body) as [revenueData|]; [|discriminate].
  simpl in H. injection H as <- <-.
  unfold getArtistRevenue, getArtist in *. simpl. rewrite G.
  eexists. split; [reflexivity|]. f_equal.
  unfold getArtistRevenues. simpl.
  rewrite JsMapOrder.values_set_fresh
    by (apply counter_is_unused; apply Inv).
  rewrite filter_app. simpl.
  destruct (Revenue.artistId revenueData =? artistId).
  - unfold revenueDistribution. rewrite !fold_left_app. reflexivity.
  - now rewrite app_nil_r.
Qed.

Lemma total_of_related (f : Revenue.t num -> bool) l l' acc :
  Forall2 (fun x y : Revenue.t num => Revenue.data x = Revenue.data y) l l' ->
  (forall x y, Revenue.data x = Revenue.data y -> f x = f y) ->
  fold_left (fun sum r => nadd sum (Revenue.amount (Revenue.data r)))
    (filter f l) acc
  = fold_left (fun sum r => nadd sum (Revenue.amount (Revenue.data r)))
      (filter f l') acc.
Proof.
  intros H Hf. revert acc.
  induction H as [|x y l l' Hxy H IH]; intros acc; simpl; auto.
  rewrite (Hf x y Hxy). destruct (f y); simpl; rewrite ?Hxy; apply IH.
Qed.

(** X10. The revenue report of a stored artist depends on the revenue
    amounts of that artist and on its shares only: in a reachable store
    every store operation leaves it as it was, except the creation of a
    revenue event for that artist. In particular marking revenue
    distributed and setting the contract address do not change it. *)
Theorem revenue_report_changes_with_new_revenue_only st op artistId artist :
  reachable st ->
  getArtist artistId st = Some artist ->
  (forall now revenue,
      op = CreateRevenue now revenue ->
      Revenue.artistId revenue <> artistId) ->
  getArtistRevenue artistId (exec op st) = getArtistRevenue artistId st.
Proof.
  intros Hr G Hop. pose proof (reachable_ids st Hr) as Inv.
  unfold getArtistRevenue, getArtist in *.
  destruct op; simpl;
    unfold updateArtistContractAddress, updateProposalStatus,
      markRevenueDistributed; auto.
  - rewrite JsMapFacts.get_set_other; auto.
    intros ->. rewrite counter_is_unused in G by apply Inv. discriminate.
  - destruct (Z.eq_dec id artistId) as [->|Hne].
    + rewrite G. simpl. rewrite JsMapFacts.get_set_same. reflexivity.
    + destruct (JsMap.get id (artists st)); simpl; auto.
      rewrite JsMapFacts.get_set_other; auto.
  - destruct (JsMap.get id (proposals st)); auto.
  - rewrite G. f_equal. unfold getArtistRevenues. simpl.
    rewrite JsMapOrder.values_set_fresh
      by (apply counter_is_unused; apply Inv).
    rewrite filter_app. simpl.
    destruct (Z.eqb_spec (Revenue.artistId revenue) artistId) as [E|_].
    + now destruct (Hop now revenue eq_refl).
    + now rewrite app_nil_r.
  - destruct (JsMap.get id (revenues st)) as [r|] eqn:Gr; simpl; auto.
    rewrite G. f_equal. unfold revenueDistribution, getArtistRevenues. simpl.
    rewrite (total_of_related _ (JsMap.values (revenues st))
               (JsMap.values (JsMap.set id (asDistributed r) (revenues st)))
               nzero); auto.
    + apply JsMapOrder.values_set_related with (v := r); auto.
    + intros x y E. now rewrite E.
Qed.

End RevenueReport.

Lemma revenue_adds_witness :
  let st := Sample.ledger Sample.f64 250 in
  let body := RevenueBody.mk (Some 1) (Some (Sample.f64 100))
                (Some "streaming"%string) in
  getArtistRevenue 1 (snd (postRevenue 10 body st))
  = Ok (Distribution.mk (nadd nzero (Sample.f64 100))
          (nmul (nadd nzero (Sample.f64 100)) (ndiv (Sample.f64 60) nhundred))
          (nmul (nadd nzero (Sample.f64 100)) (ndiv (Sample.f64 30) nhundred))
          (nmul (nadd nzero (Sample.f64 100)) (ndiv (Sample.f64 10) nhundred))).
Proof.
  intros st body.
  assert (H : postRevenue 10 body st
              = (Created (Revenue.mk
                            (Revenue.mkInsert 1 (Sample.f64 100) "streaming")
                            1 10 false),
                 snd (postRevenue 10 body st)))
    by (vm_compute; reflexivity).
  destruct (new_revenue_adds_to_the_report st 10 body _ _ 1
              (Artist.mk (Sample.aurora Sample.f64) 1)
              (sample_ledger_reachable Sample.f64 250) eq_refl H)
    as (d & Hd & Hd').
  rewrite Hd'. injection Hd as <-. reflexivity.
Defined.

Lemma revenue_frame_witness :
  let st := Sample.distributedLedger Sample.f64 100 in
  getArtistRevenue 1 (exec (MarkRevenueDistributed 1) st)
  = getArtistRevenue 1 st.
Proof.
  intros st.
  apply (revenue_report_changes_with_new_revenue_only st
           (MarkRevenueDistributed 1) 1
           (Artist.mk (Sample.aurora Sample.f64) 1)).
  - unfold st, Sample.distributedLedger. do 2 apply reachable_exec.
    apply sample_ledger_reachable.
  - reflexivity.
  - discriminate.
Defined.

(** ** The listing of active proposals *)

Section ActiveListing.
Context {num : Type}.
Implicit Types (st : MemStorage num).

Lemma filter_subsumed {A : Type} (f g : A -> bool) l :
  (forall x, f x = true -> g x = true) ->
  filter f l = filter f (filter g l).
Proof.
  intros H. induction l as [|x l IH]; simpl; auto.
  destruct (f x) eqn:Ef.
  - rewrite (H x Ef). simpl. now rewrite Ef, IH.
  - destruct (g x); simpl; rewrite ?Ef; auto.
Qed.

(** X11. The listing of active proposals only shrinks with time: the
    proposals listed at a later time are those listed earlier that have
    not ended since, in the same order. In a reachable store a created
    proposal is listed last, at the times before its end date, and never
    when its end date is not after the time of the listing. *)
Theorem active_listing_over_time st :
  (forall now later,
      now <= later ->
      getActiveProposals later st
      = filter (isActiveAt later) (getActiveProposals now st))
  /\ (reachable st ->
      forall created proposal now,
        let r := createProposal created proposal st in
        getActiveProposals now (snd r)
        = getActiveProposals now st
          ++ (if now <? Proposal.endDate proposal then [fst r] else [])).
Proof.
  split.
  - intros now later Hle. unfold getActiveProposals.
    apply filter_subsumed. intros p. unfold isActiveAt.
    rewrite !andb_true_iff, !Z.ltb_lt. intuition lia.
  - intros Hr created proposal now. pose proof (reachable_ids st Hr) as Inv.
    unfold getActiveProposals. simpl.
    rewrite JsMapOrder.values_set_fresh
      by (apply counter_is_unused; apply Inv).
    now rewrite filter_app.
Qed.

Lemma filter_all {A : Type} (f : A -> bool) l :
  (forall x, In x l -> f x = true) -> filter f l = l.
Proof.
  induction l as [|x l IH]; simpl; intros H; auto.
  rewrite H by auto. f_equal. apply IH. auto.
Qed.

Lemma active_without (m : JsMap.t Proposal.t) now id p p' :
  keyedById Proposal.id m -> ascendingKeys m ->
  JsMap.get id m = Some p -> isActiveAt now p' = false ->
  filter (isActiveAt now) (JsMap.values (JsMap.set id p' m))
  = filter (fun q => negb (Proposal.id q =? id))
      (filter (isActiveAt now) (JsMap.values m)).
Proof.
  unfold ascendingKeys.
  induction m as [|[k0 v0] m IH]; simpl; intros Hk Hs G Hp'; [discriminate|].
  inversion Hs as [|? ? Hs' Hlt]; subst.
  assert (Hv0 : Proposal.id v0 = k0) by (apply Hk; simpl; auto).
  assert (Hk' : keyedById Proposal.id m)
    by (intros k v Hin; apply Hk; simpl; auto).
  destruct (Z.eqb_spec id k0) as [->|Hne]; simpl.
  - rewrite Hp'.
    assert (Hrest : filter (fun q => negb (Proposal.id q =? k0))
                      (filter (isActiveAt now) (JsMap.values m))
                    = filter (isActiveAt now) (JsMap.values m)).
    { apply filter_all. intros q Hq. apply filter_In in Hq as [Hq _].
      apply in_map_iff in Hq as [[k v] [<- Hin]]. simpl.
      rewrite (Hk' k v Hin).
      rewrite Forall_forall in Hlt.
      assert (k0 < k) by (apply Hlt; apply (in_map fst) in Hin; exact Hin).
      destruct (Z.eqb_spec k k0); [lia | reflexivity]. }
    destruct (isActiveAt now v0); simpl; rewrite ?Hv0, ?Z.eqb_refl; simpl;
      now rewrite Hrest.
  - destruct (isActiveAt now v0); simpl.
    + rewrite Hv0. destruct (Z.eqb_spec k0 id); [congruence|]. simpl.
      f_equal. now apply IH.
    + now apply IH.
Qed.

(** X12. In a reachable store, setting the status of a stored proposal to
    anything but "active" takes that proposal, and no other, out of the
    listing of active proposals. *)
Theorem closing_unlists_that_proposal_only st id status now proposal :
  reachable st ->
  getProposal id st = Some proposal ->
  status <> "active"%string ->
  getActiveProposals now (snd (updateProposalStatus id status st))
  = filter (fun q => negb (Proposal.id q =? id)) (getActiveProposals now st).
Proof.
  intros Hr G Hs. pose proof (rows_of_reachable st Hr) as Rows.
  unfold getProposal in G. unfold updateProposalStatus, getActiveProposals.
  rewrite G. simpl.
  apply active_without with (p := proposal); auto; try apply Rows.
  unfold isActiveAt. simpl.
  destruct (String.eqb_spec status "active"); [contradiction | reflexivity].
Qed.

End ActiveListing.

Lemma active_listing_witness :
  let st := Sample.ledger Sample.f64 250 in
  getActiveProposals 900 st
  = filter (isActiveAt 900) (getActiveProposals 100 st)
  /\ getActiveProposals 100 (snd (createProposal 50 Sample.albumConcept st))
     = getActiveProposals 100 st
       ++ [fst (createProposal 50 Sample.albumConcept st)].
Proof.
  intros st.
  destruct (active_listing_over_time st) as [Htime Hnew]. split.
  - apply Htime. lia.
  - apply (Hnew (sample_ledger_reachable Sample.f64 250) 50
             Sample.albumConcept 100).
Defined.

Lemma closing_witness :
  let st := Sample.ledger Sample.f64 250 in
  getActiveProposals 100 (snd (updateProposalStatus 1 "closed" st))
  = filter (fun q => negb (Proposal.id q =? 1)) (getActiveProposals 100 st).
Proof.
  intros st.
  apply (closing_unlists_that_proposal_only st 1 "closed" 100
           (Proposal.mk Sample.albumConcept 1 0 "active")).
  - apply sample_ledger_reachable.
  - reflexivity.
  - discriminate.
Defined.

(** ** Users and login *)

Section UsersAndLogin.
Context {num : Type}.
Implicit Types (st : MemStorage num).

Local Abbreviation nameOf u := (User.username (User.data u)).

Lemma find_app_none {A : Type} (f : A -> bool) l l' :
  find f l = None -> find f (l ++ l') = find f l'.
Proof.
  induction l as [|x l IH]; simpl; auto. destruct (f x); [discriminate|auto].
Qed.

Lemma no_user_named st name :
  getUserByUsername name st = None ->
  ~ In name (map (fun u => nameOf u) (JsMap.values (users st))).
Proof.
  unfold getUserByUsername. intros H Hin.
  apply in_map_iff in Hin as (u & <- & Hu).
  pose proof (find_none _ _ H u Hu) as E. simpl in E.
  now rewrite String.eqb_refl in E.
Qed.

Lemma some_user_named st name u :
  getUserByUsername name st = Some u ->
  In u (JsMap.values (users st)) /\ nameOf u = name.
Proof.
  unfold getUserByUsername. intros H. apply find_some in H as [Hin E].
  split; auto. now apply String.eqb_eq.
Qed.

Lemma NoDup_snoc {A : Type} (l : list A) x :
  NoDup l -> ~ In x l -> NoDup (l ++ [x]).
Proof.
  intros Hl Hx. apply NoDup_app; auto.
  - repeat constructor. intros [].
  - intros a Ha [<-|[]]. contradiction.
Qed.

Lemma postUser_reachable st now body :
  reachable st -> reachable (snd (postUser now body st)).
Proof.
  intros Hr. unfold postUser.
  destruct (insertUserSchema body) as [userData|]; auto.
  destruct (getUserByUsername _ st); auto.
  apply (reachable_exec (CreateUser now userData) st Hr).
Qed.

Lemma postUser_unique st now body :
  reachable st -> uniqueUsernames st ->
  uniqueUsernames (snd (postUser now body st)).
Proof.
  intros Hr Hu. pose proof (reachable_ids st Hr) as Inv. unfold postUser.
  destruct (insertUserSchema body) as [userData|]; auto.
  destruct (getUserByUsername _ st) eqn:G; auto.
  unfold uniqueUsernames. simpl.
  rewrite JsMapOrder.values_set_fresh
    by (apply counter_is_unused; apply Inv).
  rewrite map_app. simpl. apply NoDup_snoc; auto.
  now apply no_user_named.
Qed.

(** The bodies that the insert schema of users rejects, and what it makes
    of the others. *)
Lemma insertUserSchema_None body :
  insertUserSchema body = None
  <-> UserBody.username body = None
      \/ UserBody.password body = None
      \/ UserBody.isArtist body = Mistyped
      \/ UserBody.walletAddress body = Mistyped
      \/ UserBody.bio body = Mistyped
      \/ UserBody.profileImage body = Mistyped.
Proof.
  unfold insertUserSchema.
  destruct body as [[username|] [password|] [|isArtist|] [|walletAddress|]
                      [|bio|] [|profileImage|]];
    simpl; split; intros H; try discriminate; auto 7;
    repeat (destruct H as [H|H]; try discriminate); discriminate.
Qed.

Lemma insertUserSchema_Some body userData :
  insertUserSchema body = Some userData ->
  UserBody.username body = Some (User.username userData)
  /\ UserBody.password body = Some (User.password userData).
Proof.
  unfold insertUserSchema.
  destruct (UserBody.username body), (UserBody.password body),
    (optionalColumn (UserBody.isArtist body)),
    (optionalColumn (UserBody.walletAddress body)),
    (optionalColumn (UserBody.bio body)),
    (optionalColumn (UserBody.profileImage body)); try discriminate.
  intros [= <-]. auto.
Qed.

(** X13. Registration keeps usernames unique: starting from a reachable
    store in which no two users share a username, after any sequence of
    POST /api/users requests no two users share one. A request is answered
    400 exactly when the body holds no string as username or as password,
    holds a value of another type than the column's in one of the optional
    fields, or carries the username of a stored user, and then the store
    is unchanged. *)
Theorem registration_keeps_usernames_unique st :
  reachable st ->
  uniqueUsernames st ->
  (forall requests, uniqueUsernames (postUsers requests st))
  /\ (forall now body,
      (fst (postUser now body st) = BadRequest
       <-> UserBody.username body = None
           \/ UserBody.password body = None
           \/ UserBody.isArtist body = Mistyped
           \/ UserBody.walletAddress body = Mistyped
           \/ UserBody.bio body = Mistyped
           \/ UserBody.profileImage body = Mistyped
           \/ exists u, In u (JsMap.values (users st))
                        /\ UserBody.username body = Some (nameOf u))
      /\ (fst (postUser now body st) = BadRequest ->
          snd (postUser now body st) = st)).
Proof.
  intros Hr Hu. split.
  - intros requests. revert st Hr Hu.
    induction requests as [|[now body] requests IH]; intros st Hr Hu; simpl;
      auto.
    apply IH; [now apply postUser_reachable | now apply postUser_unique].
  - intros now body. unfold postUser.
    destruct (insertUserSchema body) as [userData|] eqn:S.
    + destruct (insertUserSchema_Some _ _ S) as [En Ep].
      assert (Hnot : ~ (UserBody.username body = None
                        \/ UserBody.password body = None
                        \/ UserBody.isArtist body = Mistyped
                        \/ UserBody.walletAddress body = Mistyped
                        \/ UserBody.bio body = Mistyped
                        \/ UserBody.profileImage body = Mistyped)).
      { intros H. apply insertUserSchema_None in H. congruence. }
      destruct (getUserByUsername (User.username userData) st) as [u|] eqn:G;
        simpl.
      * apply some_user_named in G as [Hin E].
        split; [split; auto | reflexivity]. intros _.
        do 6 right. exists u. split; auto. now rewrite E.
      * split; [split|]; try discriminate.
        intros H. exfalso.
        destruct H as [H|[H|[H|[H|[H|[H|(u & Hin & H)]]]]]];
          try (apply Hnot; tauto).
        rewrite En in H. injection H as E.
        apply (no_user_named st _ G). rewrite E.
        exact (in_map (fun x : User.t => nameOf x) _ _ Hin).
    + simpl. split; [split; auto | reflexivity]. intros _.
      apply insertUserSchema_None in S. tauto.
Qed.

(** X14. Login succeeds only with the stored password: when
    POST /api/auth/login answers 200, the store holds a user whose
    username and password are the (non-empty) strings of the request, the
    user of the answer is that user without its password, and an artist
    in the answer is a stored artist of that user, who is flagged as
    artist. *)
Theorem login_requires_the_stored_password st username password user artist :
  login username password st = LoggedIn user artist ->
  exists stored,
    In stored (JsMap.values (users st))
    /\ username = Text (nameOf stored)
    /\ password = Text (User.password (User.data stored))
    /\ nameOf stored <> ""%string
    /\ User.password (User.data stored) <> ""%string
    /\ user = withoutPassword stored
    /\ forall a,
        artist = Some a ->
        User.isArtist (User.data stored) = Some true
        /\ Artist.userId (Artist.data a) = User.id stored
        /\ In a (JsMap.values (artists st)).
Proof.
  unfold login. intros H.
  destruct username as [|u|]; simpl in H; try discriminate;
    try (destruct (notGiven password); discriminate).
  destruct (String.eqb_spec u "") as [|Hu]; simpl in H; [discriminate|].
  destruct password as [|p|]; simpl in H; try discriminate;
    try (destruct (getUserByUsername u st); discriminate).
  destruct (String.eqb_spec p "") as [|Hp]; simpl in H; [discriminate|].
  destruct (getUserByUsername u st) as [stored|] eqn:G; [|discriminate].
  apply some_user_named in G as [Hin <-].
  destruct (String.eqb_spec (User.password (User.data stored)) p) as [<-|];
    simpl in H; [|discriminate].
  injection H as <- <-.
  exists stored. do 6 (split; [now auto|]).
  intros a Ha.
  destruct (User.isArtist (User.data stored)) as [[|]|]; try discriminate.
  unfold getArtistByUserId in Ha. apply find_some in Ha as [Hin' E].
  repeat split; auto. now apply Z.eqb_eq.
Qed.

(** X15. Registration and login round trip: in a reachable store, after
    POST /api/users has answered 201 for a body with a non-empty username
    and password, POST /api/auth/login with that username and password
    answers 200 with the user of the 201 answer, and with the username and
    any other password it answers 400 or 401. *)
Theorem registered_user_logs_in st now body user st' name password :
  reachable st ->
  postUser now body st = (Created user, st') ->
  UserBody.username body = Some name ->
  UserBody.password body = Some password ->
  name <> ""%string ->
  password <> ""%string ->
  (exists artist,
      login (Text name) (Text password) st' = LoggedIn user artist)
  /\ (forall other,
      other <> Text password ->
      login (Text name) other st' = InvalidCredentials
      \/ login (Text name) other st' = CredentialsRequired).
Proof.
  intros Hr H Hn Hp Hne Hpe. pose proof (reachable_ids st Hr) as Inv.
  unfold postUser in H.
  destruct (insertUserSchema body) as [userData|] eqn:S; [|discriminate].
  destruct (insertUserSchema_Some _ _ S) as [En Ep].
  rewrite Hn in En. rewrite Hp in Ep.
  injection En as En. injection Ep as Ep.
  destruct (getUserByUsername (User.username userData) st) eqn:G;
    [discriminate|].
  destruct (createUser now userData st) as [stored s0] eqn:C.
  rewrite <- En in G. clear S.
  injection H as <- <-.
  assert (Hfind : getUserByUsername name s0 = Some stored).
  { unfold createUser in C. injection C as <- <-.
    unfold getUserByUsername in *. simpl in *.
    rewrite JsMapOrder.values_set_fresh
      by (apply counter_is_unused; apply Inv).
    rewrite find_app_none by exact G. simpl.
    now rewrite <- En, String.eqb_refl. }
  assert (Hpw : User.password (User.data stored) = password)
    by (unfold createUser in C; injection C as <- _; now symmetry).
  assert (Hia : exists artist,
             match User.isArtist (User.data stored) with
             | Some true => getArtistByUserId (User.id stored) s0
             | _ => None
             end = artist) by eauto.
  clear C G En Ep.
  assert (En : String.eqb name "" = false) by now apply String.eqb_neq.
  split.
  - unfold login. cbn [notGiven orb]. rewrite En.
    replace (String.eqb password "") with false
      by (symmetry; now apply String.eqb_neq).
    cbn [orb]. rewrite Hfind, Hpw, String.eqb_refl. cbn [negb]. eauto.
  - intros other Hother. unfold login. cbn [notGiven orb]. rewrite En.
    destruct other as [|p|]; cbn [notGiven orb]; auto.
    + destruct (String.eqb p ""); cbn [orb]; auto.
      rewrite Hfind, Hpw.
      destruct (String.eqb_spec password p) as [->|]; cbn [negb]; auto.
      now destruct Hother.
    + rewrite Hfind. cbn [negb]. auto.
Qed.

Lemma find_unique {A : Type} (f : A -> string) (l : list A) x :
  NoDup (map f l) -> In x l ->
  find (fun y => String.eqb (f y) (f x)) l = Some x.
Proof.
  induction l as [|y l IH]; simpl; intros Hd Hin; [easy|].
  inversion Hd as [|? ? Hy Hd']; subst.
  destruct Hin as [->|Hin].
  - now rewrite String.eqb_refl.
  - destruct (String.eqb_spec (f y) (f x)) as [E|_]; auto.
    exfalso. apply Hy. rewrite E. now apply in_map.
Qed.

(** X16. With unique usernames, every stored user whose username and
    password are not empty logs in with them: the login answers 200 with
    that user. *)
Theorem stored_user_logs_in st stored :
  uniqueUsernames st ->
  In stored (JsMap.values (users st)) ->
  nameOf stored <> ""%string ->
  User.password (User.data stored) <> ""%string ->
  exists artist,
    login (Text (nameOf stored)) (Text (User.password (User.data stored))) st
    = LoggedIn (withoutPassword stored) artist.
Proof.
  intros Hu Hin Hn Hp. unfold login. simpl.
  replace (String.eqb (nameOf stored) "") with false
    by (symmetry; now apply String.eqb_neq).
  replace (String.eqb (User.password (User.data stored)) "") with false
    by (symmetry; now apply String.eqb_neq).
  simpl. unfold getUserByUsername.
  rewrite (find_unique (fun u => nameOf u) _ stored Hu Hin). simpl.
  rewrite String.eqb_refl. simpl. eauto.
Qed.

End UsersAndLogin.

Lemma registration_witness :
  let alice password :=
    UserBody.mk (Some "alice"%string) (Some password) Omitted Omitted Omitted
      Omitted in
  uniqueUsernames
    (postUsers [(1, alice "secret"%string); (2, alice "other"%string)]
       (@emptyStorage float)).
Proof.
  intros alice.
  apply (registration_keeps_usernames_unique (@emptyStorage float)).
  - apply reachable_new.
  - constructor.
Defined.

Lemma login_witness :
  let alice :=
    UserBody.mk (Some "alice"%string) (Some "secret"%string) Omitted Omitted
      Omitted Omitted in
  let st := snd (postUser 1 alice (@emptyStorage float)) in
  exists stored,
    In stored (JsMap.values (users st))
    /\ User.password (User.data stored) = "secret"%string.
Proof.
  intros alice st.
  destruct (login_requires_the_stored_password st (Text "alice")
              (Text "secret")
              (PublicUser.mk "alice" None None None None 1 1) None eq_refl)
    as (stored & Hin & _ & Hp & _).
  exists stored. split; auto. now injection Hp.
Defined.

Lemma register_login_witness :
  let alice :=
    UserBody.mk (Some "alice"%string) (Some "secret"%string) Omitted Omitted
      Omitted Omitted in
  let st := snd (postUser 1 alice (@emptyStorage float)) in
  (exists artist,
      login (Text "alice") (Text "secret") st
      = LoggedIn (PublicUser.mk "alice" None None None None 1 1) artist)
  /\ (login (Text "alice") (Text "guess") st = InvalidCredentials
      \/ login (Text "alice") (Text "guess") st = CredentialsRequired).
Proof.
  intros alice st.
  destruct (registered_user_logs_in (@emptyStorage float) 1 alice
              (PublicUser.mk "alice" None None None None 1 1) st
              "alice" "secret" reachable_new eq_refl eq_refl eq_refl)
    as [Hok Hbad]; try discriminate.
  split; [exact Hok | apply Hbad; discriminate].
Defined.

Lemma stored_user_witness :
  let alice :=
    UserBody.mk (Some "alice"%string) (Some "secret"%string) Omitted Omitted
      Omitted Omitted in
  let st := snd (postUser 1 alice (@emptyStorage float)) in
  exists artist,
    login (Text "alice") (Text "secret") st
    = LoggedIn (PublicUser.mk "alice" None None None None 1 1) artist.
Proof.
  intros alice st.
  apply (stored_user_logs_in st
           (User.mk (User.mkInsert "alice" "secret" None None None None) 1 1)).
  - repeat constructor. intros [].
  - left. reflexivity.
  - discriminate.
  - discriminate.
Defined.

(** ** The joins of the listing handlers *)

Section Joins.
Context {num : Type} {N : JsNum num} {RC : RealColumn num}.
Implicit Types (st : MemStorage num).

Lemma in_values_get {V : Type} (idOf : V -> Z) (m : JsMap.t V) v :
  keyedById idOf m -> ascendingKeys m ->
  In v (JsMap.values m) -> JsMap.get (idOf v) m = Some v.
Proof.
  intros Hk Hs Hin. apply in_map_iff in Hin as [[k v'] [E Hin]].
  simpl in E. subst v'. rewrite (Hk k v Hin).
  now apply JsMapOrder.in_get.
Qed.

Lemma get_keyed {V : Type} (idOf : V -> Z) (m : JsMap.t V) k v :
  keyedById idOf m -> JsMap.get k m = Some v -> idOf v = k.
Proof. intros Hk G. apply Hk. now apply JsMapOrder.get_Some_In. Qed.

(** X17. In a reachable store, [getUsersByIds] answers, in the order of
    the request and with its repetitions, the stored users of the
    requested ids that are in use: the ids of the users it returns are the
    requested ids that the store holds, and each returned user is the one
    [getUser] gives for its id. *)
Theorem getUsersByIds_returns_the_stored_users st ids :
  reachable st ->
  map User.id (getUsersByIds ids st)
  = filter (fun id => existsb (Z.eqb id) (JsMap.keys (users st))) ids
  /\ (forall u, In u (getUsersByIds ids st) ->
                In (User.id u) ids /\ getUser (User.id u) st = Some u)
  /\ (List.length (getUsersByIds ids st) <= List.length ids)%nat.
Proof.
  intros Hr. pose proof (rows_of_reachable st Hr) as Rows.
  pose proof (users_keyed st Rows) as Hk.
  unfold getUsersByIds, filterBoolean, getUser.
  induction ids as [|id ids (IH1 & IH2 & IH3)]; simpl.
  - split; [reflexivity|]. split; [intros u []|lia].
  - destruct (JsMap.get id (users st)) as [u|] eqn:G; simpl.
    + assert (Hid : User.id u = id) by (eapply get_keyed; eauto).
      assert (E : existsb (Z.eqb id) (JsMap.keys (users st)) = true).
      { apply existsb_exists. exists id. split; [|apply Z.eqb_refl].
        eapply JsMapFacts.get_Some_key; eauto. }
      rewrite E, Hid, IH1. split; [reflexivity|]. split; [|lia].
      intros u' [<-|Hin].
      * rewrite Hid. auto.
      * destruct (IH2 u' Hin). auto.
    + assert (E : existsb (Z.eqb id) (JsMap.keys (users st)) = false).
      { destruct (existsb _ _) eqn:E; auto.
        apply existsb_exists in E as (k & Hin & Ek).
        apply Z.eqb_eq in Ek. subst k.
        apply JsMapFacts.get_None_iff in G. contradiction. }
      rewrite E. split; [exact IH1|]. split; [|lia].
      intros u' Hin. destruct (IH2 u' Hin). auto.
Qed.

(** Looking a user up by id in the result of [getUsersByIds]. *)
Lemma find_in_getUsersByIds st ids k :
  keyedById User.id (users st) ->
  In k ids ->
  find (fun u => User.id u =? k) (getUsersByIds ids st)
  = JsMap.get k (users st).
Proof.
  intros Hk. unfold getUsersByIds, filterBoolean.
  assert (Hnone : forall ids',
             JsMap.get k (users st) = None ->
             find (fun u => User.id u =? k)
               (flat_map (fun x => match x with Some a => [a] | None => [] end)
                  (map (fun id => JsMap.get id (users st)) ids')) = None).
  { intros ids' Gk. induction ids' as [|i ids' IH]; simpl; auto.
    destruct (JsMap.get i (users st)) as [u|] eqn:G; simpl; auto.
    assert (User.id u = i) by (eapply get_keyed; eauto).
    destruct (Z.eqb_spec (User.id u) k); auto. congruence. }
  induction ids as [|i ids IH]; simpl; intros Hin; [easy|].
  destruct (JsMap.get i (users st)) as [u|] eqn:G; simpl.
  - assert (Hid : User.id u = i) by (eapply get_keyed; eauto).
    rewrite Hid. destruct (Z.eqb_spec i k) as [->|Hne]; [now rewrite G|].
    apply IH. destruct Hin; congruence.
  - destruct Hin as [->|Hin]; [|now apply IH].
    rewrite G. now apply Hnone.
Qed.

(** X18. In a reachable store, GET /api/artists lists the stored artists
    in the order of their creation, each with the username, profile
    image, bio and wallet address of the user that [getUser] gives for
    its [userId], or without them when no such user is stored: the join
    through [getUsersByIds] and [find] is the lookup by id. *)
Theorem artists_are_listed_with_their_users st :
  reachable st ->
  getArtistsWithDetails st
  = map (fun artist =>
           let user := getUser (Artist.userId (Artist.data artist)) st in
           ArtistDetails.mk artist
             (option_map (fun u => User.username (User.data u)) user)
             (match user with
              | Some u => User.profileImage (User.data u)
              | None => None
              end)
             (match user with
              | Some u => User.bio (User.data u)
              | None => None
              end)
             (match user with
              | Some u => User.walletAddress (User.data u)
              | None => None
              end))
        (JsMap.values (artists st)).
Proof.
  intros Hr. pose proof (rows_of_reachable st Hr) as Rows.
  unfold getArtistsWithDetails, getAllArtists, getUser.
  apply map_ext_in. intros artist Hin.
  rewrite find_in_getUsersByIds; [reflexivity | apply Rows |].
  exact (in_map (fun a : Artist.t num => Artist.userId (Artist.data a))
           _ _ Hin).
Qed.

End Joins.

Lemma users_by_ids_witness :
  let alice :=
    UserBody.mk (Some "alice"%string) (Some "secret"%string) Omitted Omitted
      Omitted Omitted in
  let st := snd (postUser 1 alice (@emptyStorage float)) in
  map User.id (getUsersByIds [7; 1; 1] st) = [1; 1].
Proof.
  intros alice st.
  assert (Hr : reachable st)
    by (apply (reachable_exec
                 (CreateUser 1 (User.mkInsert "alice" "secret" None None None
                                  None))); apply reachable_new).
  destruct (getUsersByIds_returns_the_stored_users st [7; 1; 1] Hr)
    as (Hids & _).
  rewrite Hids. reflexivity.
Defined.

(** Artist 1 of the sample data, with its user stored: the listing carries
    the username and the bio of that user. *)
Lemma artists_listing_witness :
  let st : MemStorage float :=
    exec (CreateArtist (Sample.aurora Sample.f64))
      (exec (CreateUser 1
               (User.mkInsert "alice" "secret" (Some true) None
                  (Some "Singer"%string) None))
         emptyStorage) in
  map (fun d => (ArtistDetails.username d, ArtistDetails.bio d))
      (getArtistsWithDetails st)
  = [(Some "alice"%string, Some "Singer"%string)].
Proof.
  intros st.
  rewrite (artists_are_listed_with_their_users st).
  - reflexivity.
  - unfold st. do 2 apply reachable_exec. apply reachable_new.
Defined.

Section ActiveDetails.
Context {num : Type} {N : JsNum num} {RC : RealColumn num}.
Implicit Types (st : MemStorage num).

Lemma in_setAdd x s y : In y (setAdd x s) <-> y = x \/ In y s.
Proof.
  unfold setAdd. destruct (existsb (Z.eqb x) s) eqn:E.
  - split; auto. intros [->|H]; auto.
    apply existsb_exists in E as (z & Hz & Ez).
    apply Z.eqb_eq in Ez. now subst z.
  - rewrite in_app_iff. simpl. intuition.
Qed.

Lemma in_artistIdSet (proposals : list Proposal.t) s x :
  In x (fold_left (fun s p => setAdd (Proposal.artistId (Proposal.data p)) s)
          proposals s)
  <-> In x s
      \/ In x (map (fun p => Proposal.artistId (Proposal.data p)) proposals).
Proof.
  revert s; induction proposals as [|p proposals IH]; intros s; simpl.
  - tauto.
  - rewrite IH, in_setAdd. intuition.
Qed.

(** The map from artist id to artist that the handler builds gives, for
    an id of the set, the artist that [getArtist] gives. *)
Lemma get_artistMap st ids m0 k :
  keyedById Artist.id (artists st) ->
  JsMap.get k
    (fold_left (fun m artist =>
                  match artist with
                  | Some a => JsMap.set (Artist.id a) a m
                  | None => m
                  end)
       (map (fun id => getArtist id st) ids) m0)
  = if existsb (Z.eqb k) ids
    then match getArtist k st with
         | Some a => Some a
         | None => JsMap.get k m0
         end
    else JsMap.get k m0.
Proof.
  intros Hk. revert m0; induction ids as [|i ids IH]; intros m0; simpl; auto.
  rewrite IH. unfold getArtist in *.
  destruct (JsMap.get i (artists st)) as [a|] eqn:G.
  - assert (Hid : Artist.id a = i)
      by (apply Hk; now apply JsMapOrder.get_Some_In).
    rewrite Hid.
    destruct (Z.eqb_spec k i) as [->|Hne]; simpl.
    + rewrite G, JsMapFacts.get_set_same. now destruct (existsb _ ids).
    + now rewrite JsMapFacts.get_set_other.
  - destruct (Z.eqb_spec k i) as [->|Hne]; simpl; auto.
    rewrite G. now destruct (existsb _ ids).
Qed.

(** X19. In a reachable store (whose proposals all hold an array of
    strings as [options], as every store of this model does),
    GET /api/proposals/active answers the
    proposals of [getActiveProposals], in their order, each with the name
    and token symbol of the artist that [getArtist] gives for its
    [artistId] ("Unknown Artist" and "UNKNOWN" when no such artist is
    stored) and with its own vote counts. *)
Theorem active_proposals_are_listed_with_their_artists st now :
  reachable st ->
  getActiveProposalsWithDetails now st
  = map (fun proposal =>
           let artist :=
             getArtist (Proposal.artistId (Proposal.data proposal)) st in
           ProposalDetails.mk proposal
             (match artist with
              | Some a => Artist.name (Artist.data a)
              | None => "Unknown Artist"%string
              end)
             (match artist with
              | Some a => Artist.tokenSymbol (Artist.data a)
              | None => "UNKNOWN"%string
              end)
             (proposalVotes proposal st))
        (getActiveProposals now st).
Proof.
  intros Hr. pose proof (rows_of_reachable st Hr) as Rows.
  unfold getActiveProposalsWithDetails.
  apply map_ext_in. intros proposal Hin.
  rewrite get_artistMap by apply Rows.
  replace (existsb _ _) with true.
  - simpl. now destruct (getArtist _ st).
  - symmetry. apply existsb_exists.
    exists (Proposal.artistId (Proposal.data proposal)).
    split; [|apply Z.eqb_refl].
    apply in_artistIdSet. right.
    exact (in_map (fun p => Proposal.artistId (Proposal.data p)) _ _ Hin).
Qed.

End ActiveDetails.

Lemma active_details_witness :
  let st := Sample.ledger Sample.f64 250 in
  map (fun d => ProposalDetails.artistName d)
    (getActiveProposalsWithDetails 100 st)
  = ["Aurora"%string].
Proof.
  intros st.
  rewrite (active_proposals_are_listed_with_their_artists st 100
             (sample_ledger_reachable Sample.f64 250)).
  reflexivity.
Defined.

(** ** The proposal form *)

Module ProposalFormFacts.
Import ProposalForm.

Lemma trimEnd_empty s :
  trimEnd s = ""%string
  <-> forallb isWhiteSpace (list_ascii_of_string s) = true.
Proof.
  induction s as [|c s IH]; simpl; [tauto|].
  rewrite andb_true_iff, <- IH.
  destruct (trimEnd s); destruct (isWhiteSpace c); split; intros H;
    try discriminate; try tauto; destruct H; discriminate.
Qed.

Lemma trimStart_white s :
  forallb isWhiteSpace (list_ascii_of_string (trimStart s))
  = forallb isWhiteSpace (list_ascii_of_string s).
Proof.
  induction s as [|c s IH]; simpl; auto.
  destruct (isWhiteSpace c) eqn:E; simpl; auto. now rewrite E.
Qed.

(** [s.trim() === ""] exactly when [s] is made of white space. *)
Lemma trim_empty s :
  trim s = ""%string
  <-> forallb isWhiteSpace (list_ascii_of_string s) = true.
Proof. unfold trim. now rewrite trimEnd_empty, trimStart_white. Qed.

Lemma forallb_false {A : Type} (f : A -> bool) l :
  forallb f l = false -> exists x, In x l /\ f x = false.
Proof.
  induction l as [|x l IH]; simpl; [discriminate|].
  destruct (f x) eqn:E; simpl; intros H.
  - destruct (IH H) as (y & Hy & Ey). eauto.
  - eauto.
Qed.

Lemma not_blank option :
  negb (String.eqb (trim option) "") = true ->
  exists c, In c (list_ascii_of_string option) /\ isWhiteSpace c = false.
Proof.
  intros H. apply negb_true_iff, String.eqb_neq in H.
  apply forallb_false.
  destruct (forallb isWhiteSpace (list_ascii_of_string option)) eqn:E; auto.
  apply trim_empty in E. contradiction.
Qed.

(** X21. What the proposal form posts is a valid proposal: when the
    submission of the form reaches [proposalMutation.mutate], the data it
    posts has at least two options, which are the options of the form that
    contain a character other than white space, in their order; its end
    date is after the time of the validation; its title has 5 to 100
    characters and its description at least 10; and all fields but the
    options are those of the form. *)
Theorem proposal_form_posts_valid_proposals now data sent :
  handleSubmit now data = Some sent ->
  (2 <= List.length (Proposal.options sent))%nat
  /\ Proposal.options sent
     = filter (fun option => negb (String.eqb (trim option) ""))
              (Proposal.options data)
  /\ (forall option,
      In option (Proposal.options sent) ->
      In option (Proposal.options data)
      /\ exists c, In c (list_ascii_of_string option)
                   /\ isWhiteSpace c = false)
  /\ now < Proposal.endDate sent
  /\ (5 <= String.length (Proposal.title sent) <= 100)%nat
  /\ (10 <= String.length (Proposal.description sent))%nat
  /\ 0 < Proposal.artistId sent
  /\ 0 < Proposal.creatorId sent
  /\ Proposal.artistId sent = Proposal.artistId data
  /\ Proposal.creatorId sent = Proposal.creatorId data
  /\ Proposal.title sent = Proposal.title data
  /\ Proposal.description sent = Proposal.description data
  /\ Proposal.type sent = Proposal.type data
  /\ Proposal.endDate sent = Proposal.endDate data.
Proof.
  unfold handleSubmit, onSubmit. intros H.
  destruct (formSchema now data) eqn:S; [|discriminate].
  destruct (List.length _ <? 2)%nat eqn:L; [discriminate|].
  injection H as <-. simpl.
  apply Nat.ltb_ge in L.
  unfold formSchema in S.
  repeat (apply andb_true_iff in S as [S ?]).
  repeat match goal with
         | H : (_ <? _) = true |- _ => apply Z.ltb_lt in H
         | H : (_ <=? _)%nat = true |- _ => apply Nat.leb_le in H
         end.
  repeat (split; [now auto|]).
  split.
  - intros option Hin. apply filter_In in Hin as [Hin Hb].
    split; auto. now apply not_blank.
  - repeat (split; auto).
Qed.

End ProposalFormFacts.

Lemma proposal_form_witness :
  let data :=
    Proposal.mkInsert 1 1 "Tour location" "Where should the tour go"
      "business" ["Europe"; "   "; "America"]%string 9000 in
  exists sent,
    ProposalForm.handleSubmit 2000 data = Some sent
    /\ Proposal.options sent = ["Europe"; "America"]%string.
Proof.
  intros data.
  set (sent := Proposal.mkInsert 1 1 "Tour location"
                 "Where should the tour go" "business"
                 ["Europe"; "America"]%string 9000).
  assert (H : ProposalForm.handleSubmit 2000 data = Some sent)
    by (vm_compute; reflexivity).
  exists sent. split; [exact H|].
  destruct (ProposalFormFacts.proposal_form_posts_valid_proposals
              2000 data sent H) as (_ & Hopts & _).
  rewrite Hopts. vm_compute. reflexivity.
Defined.

(** ** Every option has a count *)

Section OptionSlots.
Context {num : Type} {N : JsNum num} {RC : RealColumn num}.

Lemma addAt_keeps_filled n i w (a : JsArray num) :
  (forall j, (j < n)%nat -> exists x, nth_error a j = Some (Some x)) ->
  forall j, (j < n)%nat -> exists x, nth_error (addAt i w a) j = Some (Some x).
Proof.
  intros H j Hj. destruct (H j Hj) as [x Hx].
  destruct (Z.eq_dec (Z.of_nat j) i) as [<-|Hne].
  - exists (nadd x w). now apply addAt_filled_slot.
  - exists x. rewrite addAt_other_slot; auto.
    apply nth_error_Some. congruence.
Qed.

Lemma fold_addAt_keeps_filled n (votes : list (Vote.t num)) (a : JsArray num) :
  (forall j, (j < n)%nat -> exists x, nth_error a j = Some (Some x)) ->
  forall j, (j < n)%nat ->
    exists x,
      nth_error
        (fold_left (fun a v => addAt (Vote.optionIndex (Vote.data v))
                                     (Vote.weight (Vote.data v)) a)
                   votes a) j
      = Some (Some x).
Proof.
  revert a; induction votes as [|v votes IH]; intros a H; simpl; auto.
  apply IH. now apply addAt_keeps_filled.
Qed.

(** X22. For a proposal whose [options] is an array of strings: whatever
    votes are stored, the vote counts of the proposal hold a number
    (possibly NaN) for each of its options, never a hole or [undefined];
    for a proposal without votes each of these counts is 0. *)
Theorem every_option_has_a_count (proposal : Proposal.t) (st : MemStorage num) :
  (forall i,
      (i < List.length (Proposal.options (Proposal.data proposal)))%nat ->
      exists x, countAt i (proposalVotes proposal st) = Some x)
  /\ (getProposalVotes (Proposal.id proposal) st = [] ->
      forall i,
        (i < List.length (Proposal.options (Proposal.data proposal)))%nat ->
        countAt i (proposalVotes proposal st) = Some nzero).
Proof.
  assert (H0 : forall j,
             (j < List.length (Proposal.options (Proposal.data proposal)))%nat ->
             nth_error
               (repeat (Some (@nzero num N))
                  (List.length (Proposal.options (Proposal.data proposal)))) j
             = Some (Some nzero)).
  { intros j Hj. rewrite nth_error_repeat by exact Hj. reflexivity. }
  split.
  - intros i Hi. unfold countAt, proposalVotes, tabulate. simpl.
    destruct (fold_addAt_keeps_filled _
                (getProposalVotes (Proposal.id proposal) st) _
                (fun j Hj => ex_intro _ nzero (H0 j Hj)) i Hi) as [x Hx].
    exists x. now rewrite Hx.
  - intros Hnone i Hi. unfold countAt, proposalVotes, tabulate.
    rewrite Hnone. simpl. now rewrite H0.
Qed.

End OptionSlots.

Lemma option_count_witness :
  let st := Sample.votedLedger Sample.f64 7 in
  let proposal := Proposal.mk Sample.albumConcept 1 0 "active" in
  exists x, countAt 1 (proposalVotes proposal st) = Some x.
Proof.
  intros st proposal.
  apply (proj1 (every_option_has_a_count proposal st)).
  vm_compute. lia.
Defined.
